(** * A verified model of the GRPH graph codec (main.cpp)

    The development follows the layout of [main.cpp]: one module per
    struct ([BinWriter], [BinReader], [TSVScanner], [TextWriter],
    [Serializer], [Deserializer]).  Byte ranges are [list byte]; fixed-width
    unsigned integers are [Z] with the wrap-around written out; [die] is an
    outcome of its own, and so is an out-of-range [vector] access. *)

From Stdlib Require Import ZArith List Lia Bool String.
From Stdlib.Strings Require Import Byte.
From stdpp Require Import base list numbers sorting.
Import ListNotations.
Local Open Scope Z_scope.

(** ** Machine integers and bytes *)

Definition wrap8 (z : Z) : Z := z mod 2^8.
Definition wrap32 (z : Z) : Z := z mod 2^32.
Definition wrap64 (z : Z) : Z := z mod 2^64.

(** The numeric value of a byte of a file. *)
Definition byte_val (b : byte) : Z := Z.of_N (Byte.to_N b).

(** Conversion to [uint8_t]. *)
Definition u8 (z : Z) : byte :=
  match Byte.of_N (Z.to_N (wrap8 z)) with
  | Some b => b
  | None => x00
  end.

(** ** Outcomes

    [die(msg)] prints the diagnostic and exits with status 1.  Indexing a
    [std::vector] outside its bounds has no defined behaviour; the model
    stops there with [Undefined]. *)

Inductive failure : Type :=
| Die (msg : string)
| Undefined.

Inductive outcome (A : Type) : Type :=
| Ok (a : A)
| Fail (f : failure).
Arguments Ok {A} a.
Arguments Fail {A} f.

Definition bind {A B} (m : outcome A) (k : A -> outcome B) : outcome B :=
  match m with
  | Ok a => k a
  | Fail f => Fail f
  end.

Definition die {A} (msg : string) : outcome A := Fail (Die msg).

Notation "'let*' p ':=' m 'in' k" := (bind m (fun p => k))
  (at level 10, p pattern, m at level 100, k at level 200, only parsing).

(** ** Buffered binary writer

    The writer appends to a buffer that is written out in order, so an
    operation is modelled by the bytes it appends. *)

Module BinWriter.

Definition put (b : Z) : list byte := [u8 b].

Definition write (s : list byte) : list byte := s.

Definition u32le (x : Z) : list byte :=
  put (Z.land x 255) ++ put (Z.land (Z.shiftr x 8) 255)
  ++ put (Z.land (Z.shiftr x 16) 255) ++ put (Z.land (Z.shiftr x 24) 255).

Definition u64le (x : Z) : list byte :=
  flat_map (fun i => put (Z.land (Z.shiftr x (8 * i)) 255)) [0; 1; 2; 3; 4; 5; 6; 7].

(** [while (x>=0x80){ put(uint8_t(x)|0x80); x>>=7; } put(uint8_t(x));]
    A 64-bit value is below [0x80] after at most nine shifts, so ten
    rounds of fuel always reach the final [put] (see [varu_loop_fuel]). *)
Fixpoint varu_loop (fuel : nat) (x : Z) : list byte :=
  match fuel with
  | O => []
  | S fuel' =>
      if 128 <=? x
      then put (Z.lor (wrap8 x) 128) ++ varu_loop fuel' (Z.shiftr x 7)
      else put (wrap8 x)
  end.

Definition varu (x : Z) : list byte := varu_loop 10 (wrap64 x).

End BinWriter.

(** ** Binary reader over memory

    The reader state is the byte range [p, e) that is left. *)

Module BinReader.

Definition reader (A : Type) : Type := list byte -> outcome (A * list byte).

Definition has (n : nat) (p : list byte) : bool := (n <=? length p)%nat.

Definition get : reader Z := fun p =>
  match p with
  | b :: p' => Ok (byte_val b, p')
  | [] => die "unexpected EOF in binary file"
  end.

Definition u32le : reader Z := fun p =>
  match p with
  | p0 :: p1 :: p2 :: p3 :: p' =>
      Ok (Z.lor (Z.lor (Z.lor (byte_val p0) (Z.shiftl (byte_val p1) 8))
                       (Z.shiftl (byte_val p2) 16)) (Z.shiftl (byte_val p3) 24), p')
  | _ => die "unexpected EOF (u32)"
  end.

Fixpoint u64le_loop (i : Z) (bs : list byte) (x : Z) : Z :=
  match bs with
  | [] => x
  | b :: bs' => u64le_loop (i + 1) bs' (Z.lor x (Z.shiftl (byte_val b) (8 * i)))
  end.

Definition u64le : reader Z := fun p =>
  if has 8 p then Ok (u64le_loop 0 (take 8 p) 0, drop 8 p)
  else die "unexpected EOF (u64)".

(** [x |= uint64_t(b & 0x7F) << s; if(!(b&0x80)) break; s+=7;
    if (s>63) die("varint too long");] *)
Fixpoint varu_loop (x s : Z) (p : list byte) : outcome (Z * list byte) :=
  match p with
  | [] => die "unexpected EOF (varint)"
  | b :: p' =>
      let x := Z.lor x (wrap64 (Z.shiftl (Z.land (byte_val b) 127) s)) in
      if Z.land (byte_val b) 128 =? 0 then Ok (x, p')
      else
        let s := s + 7 in
        if 63 <? s then die "varint too long" else varu_loop x s p'
  end.

Definition varu : reader Z := varu_loop 0 0.

End BinReader.

(** ** [std::vector] accesses

    An index is an unsigned integer; inside the bounds the access is the
    list operation, outside it has no defined behaviour. *)

Definition vget {A} (v : list A) (i : Z) : outcome A :=
  match v !! Z.to_nat i with
  | Some x => Ok x
  | None => Fail Undefined
  end.

Definition vset {A} (v : list A) (i : Z) (x : A) : outcome (list A) :=
  if (Z.to_nat i <? length v)%nat then Ok (<[Z.to_nat i := x]> v)
  else Fail Undefined.

(** The elements [v[b], ..., v[b+len-1]], read one by one; with no
    element to read nothing is indexed. *)
Definition vslice {A} (v : list A) (b len : Z) : outcome (list A) :=
  if (Z.to_nat len =? 0)%nat then Ok []
  else if (Z.to_nat b + Z.to_nat len <=? length v)%nat
  then Ok (take (Z.to_nat len) (drop (Z.to_nat b) v))
  else Fail Undefined.

(** The assignments [v[b+t] = xs[t]] for every [t] below the size of [xs]. *)
Definition vwrite {A} (v : list A) (b : Z) (xs : list A) : outcome (list A) :=
  if (Z.to_nat b + length xs <=? length v)%nat
  then Ok (take (Z.to_nat b) v ++ xs ++ drop (Z.to_nat b + length xs) v)
  else Fail Undefined.

(** ** Fast TSV scanner *)

Module TSVScanner.

Definition TAB : Z := 9.
Definition LF : Z := 10.
Definition CR : Z := 13.

(** [if(q<e && *q=='\r'){ ++q; } if(q<e && *q=='\n'){ ++q; }] *)
Definition skip_newline (q : list byte) : list byte :=
  let q1 := match q with
            | c :: q' => if byte_val c =? CR then q' else q
            | [] => q
            end in
  match q1 with
  | c :: q' => if byte_val c =? LF then q' else q1
  | [] => q1
  end.

(** The loop of [parse_u32_until]: [None] is [return false]; otherwise
    the accumulated value, the [any] flag, the position after the loop
    and the last character consumed ([q[-1]] of the caller). *)
Fixpoint parse_loop (delim : Z) (q : list byte) (x : Z) (any : bool) (last : Z)
  : option (Z * bool * list byte * Z) :=
  match q with
  | [] => Some (x, any, [], last)
  | b :: q' =>
      let c := byte_val b in
      if (48 <=? c) && (c <=? 57) then
        let x := x * 10 + (c - 48) in
        if 4294967295 <? x then None else parse_loop delim q' x true c
      else if c =? delim then Some (x, any, q', c)
      else if (delim =? LF) && ((c =? LF) || (c =? CR)) then Some (x, any, q', c)
      else None
  end.

Definition parse_u32_until (delim : Z) (q : list byte) : option (Z * list byte * Z) :=
  match parse_loop delim q 0 false 0 with
  | Some (x, true, q', last) => Some (x, q', last)
  | _ => None
  end.

(** One round of the [while(q<e)] loop per unit of fuel; every round
    consumes at least one character, so [S (length q)] rounds are never
    used up (see [for_each_triplet_fuel]).  The result lists the calls
    [f(a,b,w)] in order. *)
Fixpoint for_each_triplet_loop (fuel : nat) (q : list byte) : outcome (list (Z * Z * Z)) :=
  match fuel with
  | O => Ok []
  | S fuel' =>
      match q with
      | [] => Ok []
      | c :: _ =>
          if (byte_val c =? LF) || (byte_val c =? CR)
          then for_each_triplet_loop fuel' (skip_newline q)
          else
            match parse_u32_until TAB q with
            | None => die "parse error: expected first uint32 before TAB"
            | Some (a, q1, _) =>
                match parse_u32_until TAB q1 with
                | None => die "parse error: expected second uint32 before TAB"
                | Some (b, q2, _) =>
                    match parse_u32_until LF q2 with
                    | None => die "parse error: expected weight 0..255 then newline"
                    | Some (w, q3, last) =>
                        if 255 <? w
                        then die "parse error: expected weight 0..255 then newline"
                        else
                          let q4 := match q3 with
                                    | c' :: q' =>
                                        if (last =? CR) && (byte_val c' =? LF) then q' else q3
                                    | [] => q3
                                    end in
                          let* rest := for_each_triplet_loop fuel' q4 in
                          Ok ((a, b, wrap8 w) :: rest)
                    end
                end
            end
      end
  end.

Definition for_each_triplet (data : list byte) : outcome (list (Z * Z * Z)) :=
  for_each_triplet_loop (S (length data)) data.

End TSVScanner.

(** ** Text writer *)

Module TextWriter.

(** [std::to_chars] in base ten: the decimal digits of [x], most
    significant first, no leading zero; [fuel] is the largest number of
    digits of the argument type (see [putu_fuel], [putu8_fuel]). *)
Fixpoint to_chars (fuel : nat) (x : Z) (acc : list byte) : list byte :=
  match fuel with
  | O => acc
  | S fuel' =>
      let acc' := u8 (48 + x mod 10) :: acc in
      if x <? 10 then acc' else to_chars fuel' (x / 10) acc'
  end.

Definition put (c : Z) : list byte := [u8 c].
Definition putu (x : Z) : list byte := to_chars 10 x [].
Definition putu8 (x : Z) : list byte := to_chars 3 x [].
Definition newline : list byte := put 10.

(** [putu(a); put('\t'); putu(b); put('\t'); putu8(w); newline();] *)
Definition line (a b w : Z) : list byte :=
  putu a ++ put 9 ++ putu b ++ put 9 ++ putu8 w ++ newline.

End TextWriter.


(** ** Serializer *)

Module Serializer.

(** [bw.write("GRPH",4); bw.put(2); bw.put(1);] *)
Definition header : list byte :=
  BinWriter.write [x47; x52; x50; x48] ++ BinWriter.put 2 ++ BinWriter.put 1.

(** [std::sort] on [uint32_t] with the default order: the ascending
    arrangement of the elements, which is unique. *)
Definition sort_ids (l : list Z) : list Z := merge_sort Z.le l.

(** [std::unique]: of every run of equal neighbours one element stays. *)
Fixpoint unique (l : list Z) : list Z :=
  match l with
  | [] => []
  | x :: l' =>
      match l' with
      | y :: _ => if x =? y then unique l' else x :: unique l'
      | [] => [x]
      end
  end.

(** [std::lower_bound]: the offset of the first element not below [x]. *)
Fixpoint lower_bound (v : list Z) (x : Z) : nat :=
  match v with
  | [] => O
  | y :: v' => if y <? x then S (lower_bound v' x) else O
  end.

Definition idx_of (uniq : list Z) (orig : Z) : outcome Z :=
  let it := lower_bound uniq orig in
  match uniq !! it with
  | Some y =>
      if y =? orig then Ok (wrap32 (Z.of_nat it))
      else die "id not found in uniq (internal)"
  | None => die "id not found in uniq (internal)"
  end.

(** A scan of the triplets with a callback that may [die]. *)
Fixpoint for_each {S T} (f : S -> T -> outcome S) (s : S) (l : list T) : outcome S :=
  match l with
  | [] => Ok s
  | t :: l' => let* s' := f s t in for_each f s' l'
  end.

(** Pass 1: [all_ids.push_back(a); all_ids.push_back(b);] *)
Definition collect_ids (ts : list (Z * Z * Z)) : list Z :=
  flat_map (fun t => [t.1.1; t.1.2]) ts.

(** Pass 2, the callback: state [(deg_plus, M_noLoops, loops_count)]. *)
Definition count_edge (uniq : list Z) (st : list Z * Z * Z) (t : Z * Z * Z)
  : outcome (list Z * Z * Z) :=
  let '(deg_plus, M_noLoops, loops_count) := st in
  let '(a, b, _) := t in
  let* ia := idx_of uniq a in
  let* ib := idx_of uniq b in
  if ia =? ib then Ok (deg_plus, M_noLoops, wrap64 (loops_count + 1))
  else
    let u := Z.min ia ib in
    let* d := vget deg_plus u in
    let* deg_plus' := vset deg_plus u (wrap32 (d + 1)) in
    Ok (deg_plus', wrap64 (M_noLoops + 1), loops_count).

(** [for (uint32_t i=0;i<N;++i) off[i+1] = off[i] + deg_plus[i];] *)
Fixpoint prefix_sums (n : nat) (i : Z) (deg_plus off : list Z) : outcome (list Z) :=
  match n with
  | O => Ok off
  | S n' =>
      let* o := vget off i in
      let* d := vget deg_plus i in
      let* off' := vset off (i + 1) (wrap64 (o + d)) in
      prefix_sums n' (i + 1) deg_plus off'
  end.

(** Pass 3, the callback: state [(cur, upper_nei, upper_w, loops)]. *)
Definition fill_edge (uniq : list Z)
    (st : list Z * list Z * list Z * list (Z * Z)) (t : Z * Z * Z)
  : outcome (list Z * list Z * list Z * list (Z * Z)) :=
  let '(cur, upper_nei, upper_w, loops) := st in
  let '(a, b, w) := t in
  let* ia := idx_of uniq a in
  let* ib := idx_of uniq b in
  if ia =? ib then Ok (cur, upper_nei, upper_w, loops ++ [(ia, w)])
  else
    let u := Z.min ia ib in
    let v := Z.max ia ib in
    let* pos := vget cur u in
    let* cur' := vset cur u (wrap64 (pos + 1)) in
    let* upper_nei' := vset upper_nei pos v in
    let* upper_w' := vset upper_w pos w in
    Ok (cur', upper_nei', upper_w', loops).

(** The per-vertex sort; [sort] stands for
    [std::sort(.., [](auto &x, auto &y){ return x.first < y.first; })]
    on a vector of pairs, whose arrangement of equal keys the standard
    leaves open ([std_sort_contract] below); it rearranges [tmp] in place,
    so what is written back has the [len] elements that were read. *)
Fixpoint sort_neighbors (sort : list (Z * Z) -> list (Z * Z))
    (n : nat) (i : Z) (off : list Z) (nw : list Z * list Z)
  : outcome (list Z * list Z) :=
  match n with
  | O => Ok nw
  | S n' =>
      let* b := vget off i in
      let* e := vget off (i + 1) in
      let len := wrap64 (e - b) in
      if len <=? 1 then sort_neighbors sort n' (i + 1) off nw
      else
        let* ns := vslice nw.1 b len in
        let* ws := vslice nw.2 b len in
        let tmp := sort (zip ns ws) in
        let* upper_nei' := vwrite nw.1 b (map fst tmp) in
        let* upper_w' := vwrite nw.2 b (map snd tmp) in
        sort_neighbors sort n' (i + 1) off (upper_nei', upper_w')
  end.

(** What the three passes and the two sorts leave in memory. *)
Record tables : Type := Tables {
  uniq : list Z;
  off : list Z;
  upper_nei : list Z;
  upper_w : list Z;
  loops : list (Z * Z);
  M_noLoops : Z
}.

Definition N_of (g : tables) : Z := wrap32 (Z.of_nat (length (uniq g))).

Definition build (sort : list (Z * Z) -> list (Z * Z)) (ts : list (Z * Z * Z))
  : outcome tables :=
  let uniq := unique (sort_ids (collect_ids ts)) in
  let N := wrap32 (Z.of_nat (length uniq)) in
  let* (deg_plus, M_noLoops, loops_count) :=
    for_each (count_edge uniq) (replicate (Z.to_nat N) 0, 0, 0) ts in
  let* off := prefix_sums (Z.to_nat N) 0 deg_plus (replicate (Z.to_nat (wrap32 (N + 1))) 0) in
  let* total := vget off N in
  let upper_nei := replicate (Z.to_nat total) 0 in
  let upper_w := replicate (Z.to_nat total) 0 in
  let* (_, upper_nei, upper_w, loops) :=
    for_each (fill_edge uniq) (off, upper_nei, upper_w, []) ts in
  let* (upper_nei, upper_w) :=
    sort_neighbors sort (Z.to_nat N) 0 off (upper_nei, upper_w) in
  Ok (Tables uniq off upper_nei upper_w (sort loops) M_noLoops).

(** [for (uint32_t i=1;i<N;++i){ uint32_t d = uniq[i] - uniq[i-1]; bw.varu(d); }] *)
Fixpoint emit_deltas (n : nat) (i : Z) (uniq : list Z) : outcome (list byte) :=
  match n with
  | O => Ok []
  | S n' =>
      let* x := vget uniq i in
      let* y := vget uniq (i - 1) in
      let* rest := emit_deltas n' (i + 1) uniq in
      Ok (BinWriter.varu (wrap32 (x - y)) ++ rest)
  end.

Definition emit_mapping (N : Z) (uniq : list Z) : outcome (list byte) :=
  if 0 <? N then
    let* first := vget uniq 0 in
    let* rest := emit_deltas (Z.to_nat (N - 1)) 1 uniq in
    Ok (BinWriter.u32le first ++ rest)
  else Ok [].

(** [gap = j - prev; bw.varu(gap); bw.put(w); prev = j;] for every
    entry; the loops section runs the same body from [prevLoop = 0]. *)
Fixpoint emit_entries (prev : Z) (es : list (Z * Z)) : list byte :=
  match es with
  | [] => []
  | (j, w) :: es' =>
      BinWriter.varu (wrap32 (j - prev)) ++ BinWriter.put w ++ emit_entries j es'
  end.

Fixpoint emit_adjacency (n : nat) (i : Z) (off upper_nei upper_w : list Z)
  : outcome (list byte) :=
  match n with
  | O => Ok []
  | S n' =>
      let* b := vget off i in
      let* e := vget off (i + 1) in
      let deg := wrap64 (e - b) in
      let* ns := vslice upper_nei b (e - b) in
      let* ws := vslice upper_w b (e - b) in
      let* rest := emit_adjacency n' (i + 1) off upper_nei upper_w in
      Ok (BinWriter.varu deg ++ emit_entries i (zip ns ws) ++ rest)
  end.

Definition emit (g : tables) : outcome (list byte) :=
  let N := N_of g in
  let M_total := wrap64 (M_noLoops g + Z.of_nat (length (loops g))) in
  let* mapping := emit_mapping N (uniq g) in
  let* adjacency := emit_adjacency (Z.to_nat N) 0 (off g) (upper_nei g) (upper_w g) in
  Ok (header ++ BinWriter.varu N ++ BinWriter.varu M_total ++ mapping ++ adjacency
      ++ BinWriter.varu (Z.of_nat (length (loops g))) ++ emit_entries 0 (loops g)).

(** [run] on the bytes of the input file, giving the bytes written.  As
    for the deserializer, the host is taken to be little-endian, the input
    file to be mapped and every write to be complete; the [die]s of
    [is_little_endian], [MMap::map_file] and [BinWriter] are outside the
    model. *)
Definition run (sort : list (Z * Z) -> list (Z * Z)) (data : list byte)
  : outcome (list byte) :=
  let* ts := TSVScanner.for_each_triplet data in
  match ts with
  | [] => Ok (header ++ BinWriter.varu 0 ++ BinWriter.varu 0)
  | _ :: _ => let* g := build sort ts in emit g
  end.

End Serializer.


(** ** Deserializer *)

Module Deserializer.

(** v1 mapping: [for (uint32_t i=0;i<N;++i) orig_of[i] = br.u32le();] *)
Fixpoint read_mapping_v1 (n : nat) (p : list byte) : outcome (list Z * list byte) :=
  match n with
  | O => Ok ([], p)
  | S n' =>
      let* (x, p1) := BinReader.u32le p in
      let* (rest, p2) := read_mapping_v1 n' p1 in
      Ok (x :: rest, p2)
  end.

(** v2 mapping, the loop from [i=1]:
    [d = br.varu(); orig_of[i] = orig_of[i-1] + (uint32_t)d;] *)
Fixpoint read_deltas (n : nat) (prev : Z) (p : list byte) : outcome (list Z * list byte) :=
  match n with
  | O => Ok ([], p)
  | S n' =>
      let* (d, p1) := BinReader.varu p in
      let x := wrap32 (prev + wrap32 d) in
      let* (rest, p2) := read_deltas n' x p1 in
      Ok (x :: rest, p2)
  end.

Definition read_mapping (version N : Z) (p : list byte) : outcome (list Z * list byte) :=
  if version =? 1 then read_mapping_v1 (Z.to_nat N) p
  else if 0 <? N then
    let* (first, p1) := BinReader.u32le p in
    let* (rest, p2) := read_deltas (Z.to_nat (N - 1)) first p1 in
    Ok (first :: rest, p2)
  else Ok ([], p).

(** The inner adjacency loop, [deg] rounds; the text written is returned
    with the reader position. *)
Fixpoint read_neighbors (deg : nat) (orig_of : list Z) (i prev : Z) (p : list byte)
  : outcome (list byte * list byte) :=
  match deg with
  | O => Ok ([], p)
  | S deg' =>
      let* (gap, p1) := BinReader.varu p in
      let j := wrap32 (prev + wrap32 gap) in
      let* (w, p2) := BinReader.get p1 in
      let* oi := vget orig_of i in
      let* oj := vget orig_of j in
      let* (rest, p3) := read_neighbors deg' orig_of i j p2 in
      Ok (TextWriter.line oi oj w ++ rest, p3)
  end.

(** [for (uint32_t i=0;i<N;++i){ deg = br.varu(); prev = i; ... }] *)
Fixpoint read_adjacency (n : nat) (orig_of : list Z) (i : Z) (p : list byte)
  : outcome (list byte * list byte) :=
  match n with
  | O => Ok ([], p)
  | S n' =>
      let* (deg, p1) := BinReader.varu p in
      let* (text, p2) := read_neighbors (Z.to_nat deg) orig_of i i p1 in
      let* (rest, p3) := read_adjacency n' orig_of (i + 1) p2 in
      Ok (text ++ rest, p3)
  end.

(** The loops section, [L] rounds from [acc = 0]. *)
Fixpoint read_loops (L : nat) (orig_of : list Z) (acc : Z) (p : list byte)
  : outcome (list byte * list byte) :=
  match L with
  | O => Ok ([], p)
  | S L' =>
      let* (d, p1) := BinReader.varu p in
      let v := wrap32 (acc + wrap32 d) in
      let* (w, p2) := BinReader.get p1 in
      let* ov := vget orig_of v in
      let* (rest, p3) := read_loops L' orig_of v p2 in
      Ok (TextWriter.line ov ov w ++ rest, p3)
  end.

(** [br.get()!='G' || br.get()!='R' || br.get()!='P' || br.get()!='H'],
    evaluated left to right and stopping at the first mismatch. *)
Fixpoint read_magic (magic : list Z) (p : list byte) : outcome (list byte) :=
  match magic with
  | [] => Ok p
  | c :: magic' =>
      let* (b, p1) := BinReader.get p in
      if b =? c then read_magic magic' p1
      else die "bad magic, expected 'GRPH'"
  end.

(** The header fields after the endianness byte: [N] and [M_total]. *)
Definition read_counts (version : Z) (p : list byte) : outcome (Z * Z * list byte) :=
  if version =? 1 then
    let* (N, p1) := BinReader.u32le p in
    let* (M_total, p2) := BinReader.u64le p1 in
    Ok (N, M_total, p2)
  else
    let* (n, p1) := BinReader.varu p in
    let* (M_total, p2) := BinReader.varu p1 in
    Ok (wrap32 n, M_total, p2).

(** Everything after [M_total] has been read: mapping, adjacency, loops. *)
Definition read_body (version N : Z) (p : list byte) : outcome (list byte) :=
  let* (orig_of, p1) := read_mapping version N p in
  let* (adjacency, p2) := read_adjacency (Z.to_nat N) orig_of 0 p1 in
  let* (L, p3) := BinReader.varu p2 in
  let* (loops, _) := read_loops (Z.to_nat L) orig_of 0 p3 in
  Ok (adjacency ++ loops).

(** [run] on the bytes of the input file, giving the text written.  The
    surroundings are taken to work: the host is little-endian, the input
    file has been mapped and every write of the text is complete.  The
    [die]s of [is_little_endian], of [MMap::map_file] and of [TextWriter]
    ("host is not little-endian", "cannot open input", "write text failed"
    and the like) are outside the model. *)
Definition run (data : list byte) : outcome (list byte) :=
  if (length data <? 4 + 1 + 1 + 4 + 8)%nat then die "binary too small"
  else if negb (BinReader.has 4 data) then die "no magic"
  else
    let* p := read_magic [71; 82; 80; 72] data in
    let* (version, p) := BinReader.get p in
    if negb (version =? 1) && negb (version =? 2) then die "unsupported version"
    else
      let* (endian, p) := BinReader.get p in
      if negb (endian =? 1)
      then die "unsupported endianness (only little-endian=1)"
      else
        let* (N, _, p) := read_counts version p in
        read_body version N p.

End Deserializer.

(** ** The contract of [std::sort] with the comparison on [first] *)

Definition by_first (x y : Z * Z) : Prop := x.1 <= y.1.

Definition std_sort_contract (sort : list (Z * Z) -> list (Z * Z)) : Prop :=
  forall l, Permutation (sort l) l /\ Sorted by_first (sort l).

(** A sort that meets the contract: insertion from the right, which keeps
    equal keys in their order. *)
Fixpoint insert_by_first (x : Z * Z) (l : list (Z * Z)) : list (Z * Z) :=
  match l with
  | [] => [x]
  | y :: l' => if x.1 <=? y.1 then x :: l else y :: insert_by_first x l'
  end.

Definition insertion_sort (l : list (Z * Z)) : list (Z * Z) :=
  foldr insert_by_first [] l.

(** ** Statement vocabulary *)

(** Number of significant bits of [x]. *)
Definition bitlen (x : Z) : Z := if x =? 0 then 0 else Z.log2 x + 1.

(** The continuation bit of a byte, as the reader tests it ([b&0x80]). *)
Definition continuation (b : byte) : bool := negb (Z.land (byte_val b) 128 =? 0).

(** ** Sample files *)

(** The text [10<TAB>20<TAB>5<LF>]. *)
Definition tsv_single_edge : list byte := [x31; x30; x09; x32; x30; x09; x35; x0a].

(** The text [7<TAB>7<TAB>255<LF>]. *)
Definition tsv_self_loop : list byte := [x37; x09; x37; x09; x32; x35; x35; x0a].

(** [GRPH], version 2, little-endian, [N = 0], [M = 0]. *)
Definition bin_empty : list byte := [x47; x52; x50; x48; x02; x01; x00; x00].

(** The same with the loops section [L = 0] behind it. *)
Definition bin_empty_with_loops : list byte := bin_empty ++ [x00].

(** What the serializer writes for [tsv_single_edge]. *)
Definition bin_single_edge : list byte :=
  [x47; x52; x50; x48; x02; x01;    (* GRPH, version 2, little-endian *)
   x02; x01;                        (* N = 2, M = 1 *)
   x0a; x00; x00; x00; x0a;         (* first id 10, delta 10 *)
   x01; x01; x05;                   (* vertex 0: deg 1, gap 1, weight 5 *)
   x00;                             (* vertex 1: deg 0 *)
   x00].                            (* L = 0 *)

(** What the serializer writes for [tsv_self_loop]: sixteen bytes. *)
Definition bin_self_loop : list byte :=
  [x47; x52; x50; x48; x02; x01;    (* GRPH, version 2, little-endian *)
   x01; x01;                        (* N = 1, M = 1 *)
   x07; x00; x00; x00;              (* first id 7 *)
   x00;                             (* vertex 0: deg 0 *)
   x01; x00; xff].                  (* L = 1: delta 0, weight 255 *)

(** Four lines: [1<TAB>2<TAB>10<LF>], [2<TAB>1<TAB>20<LF>],
    [5<TAB>3<TAB>9<CR><LF>], an empty line, and [3<TAB>3<TAB>0] without a
    line end. *)
Definition tsv_mixed : list byte :=
  [x31; x09; x32; x09; x31; x30; x0a;
   x32; x09; x31; x09; x32; x30; x0a;
   x35; x09; x33; x09; x39; x0d; x0a;
   x0a;
   x33; x09; x33; x09; x30].

(** What the serializer writes for [tsv_mixed]. *)
Definition bin_mixed : list byte :=
  [x47; x52; x50; x48; x02; x01;    (* GRPH, version 2, little-endian *)
   x04; x04;                        (* N = 4, M = 4 *)
   x01; x00; x00; x00;              (* first id 1 *)
   x01; x01; x02;                   (* deltas: ids 2, 3, 5 *)
   x02; x01; x0a; x00; x14;         (* vertex 0: deg 2, (gap 1, 10), (gap 0, 20) *)
   x00;                             (* vertex 1: deg 0 *)
   x01; x01; x09;                   (* vertex 2: deg 1, (gap 1, 9) *)
   x00;                             (* vertex 3: deg 0 *)
   x01; x02; x00].                  (* L = 1: (delta 2, 0) *)

(** ** File layouts, for statements about hand-made binaries

    The six header bytes of a file of the given version. *)
Definition file_header (version : Z) : list byte :=
  [x47; x52; x50; x48] ++ [u8 version] ++ [x01].

(** Version 1, after the format description at the head of main.cpp (the
    source has no writer for it): [uint32 N][uint64 M], then the mapping
    as [N] raw [uint32], then sections B and C. *)
Definition binary_v1 (orig : list Z) (M : Z) (sections : list byte) : list byte :=
  file_header 1
  ++ BinWriter.u32le (Z.of_nat (length orig)) ++ BinWriter.u64le M
  ++ flat_map BinWriter.u32le orig
  ++ sections.

(** Version 2 as [Serializer.emit] lays it out, with the mapping bytes
    [mapping] that [Serializer.emit_mapping] gives for [orig]. *)
Definition binary_v2 (orig : list Z) (M : Z) (mapping sections : list byte) : list byte :=
  Serializer.header
  ++ BinWriter.varu (Z.of_nat (length orig)) ++ BinWriter.varu M
  ++ mapping
  ++ sections.

(** Sections B and C of the graph with the one vertex and one self-loop of
    weight 255: deg 0, then L = 1, delta 0, weight 255. *)
Definition sections_self_loop : list byte := [x00; x01; x00; xff].

(** ** Section entries, for statements about what the reader makes of them *)

(** An adjacency or loops entry [(gap, w)] as the format lays it out. *)
Definition entry_bytes (e : Z * Z) : list byte :=
  BinWriter.varu e.1 ++ BinWriter.put e.2.

(** The edge 10 -- 20 of weight 5 with the gap of its entry raised by
    [2^32]: [prev + gap] is 4294967297. *)
Definition bin_gap_overflow : list byte :=
  file_header 2 ++ BinWriter.varu 2 ++ BinWriter.varu 1
  ++ BinWriter.u32le 10 ++ BinWriter.varu 10
  ++ (BinWriter.varu 1 ++ entry_bytes (4294967297, 5))
  ++ BinWriter.varu 0
  ++ BinWriter.varu 0.

(** The self-loop at 7 of weight 255 with the delta of its entry raised
    by [2^32]: [acc + delta] is 4294967296, while [N] is 1. *)
Definition bin_loop_overflow : list byte :=
  file_header 2 ++ BinWriter.varu 1 ++ BinWriter.varu 1
  ++ BinWriter.u32le 7
  ++ BinWriter.varu 0
  ++ (BinWriter.varu 1 ++ entry_bytes (4294967296, 255)).

(** Two vertices and one entry for vertex 0 whose gap of 5 leads to the
    index 5, outside the mapping. *)
Definition bin_gap_outside : list byte :=
  file_header 2 ++ BinWriter.varu 2 ++ BinWriter.varu 1
  ++ BinWriter.u32le 10 ++ BinWriter.varu 10
  ++ (BinWriter.varu 1 ++ entry_bytes (5, 5))
  ++ BinWriter.varu 0
  ++ BinWriter.varu 0.

(** Two vertices without edges and one entry in the loops section whose
    delta of 2 leads to the vertex 2, outside the mapping. *)
Definition bin_loop_outside : list byte :=
  file_header 2 ++ BinWriter.varu 2 ++ BinWriter.varu 1
  ++ BinWriter.u32le 10 ++ BinWriter.varu 10
  ++ BinWriter.varu 0
  ++ BinWriter.varu 0
  ++ (BinWriter.varu 1 ++ entry_bytes (2, 255)).

(** ** What the tables of the serializer hold

    The compact index of an id, as [idx_of] returns it. *)
Definition cidx (uniq : list Z) (a : Z) : Z :=
  wrap32 (Z.of_nat (Serializer.lower_bound uniq a)).

Definition lo (uniq : list Z) (t : Z * Z * Z) : Z :=
  Z.min (cidx uniq t.1.1) (cidx uniq t.1.2).

Definition hi (uniq : list Z) (t : Z * Z * Z) : Z :=
  Z.max (cidx uniq t.1.1) (cidx uniq t.1.2).

Definition is_loop (uniq : list Z) (t : Z * Z * Z) : bool :=
  cidx uniq t.1.1 =? cidx uniq t.1.2.

(** A triplet that goes to the upper adjacency of vertex [u]. *)
Definition is_upper (uniq : list Z) (u : Z) (t : Z * Z * Z) : bool :=
  negb (is_loop uniq t) && (lo uniq t =? u).

(** A triplet that goes to the upper adjacency of a vertex before [k]. *)
Definition is_below (uniq : list Z) (k : Z) (t : Z * Z * Z) : bool :=
  negb (is_loop uniq t) && (lo uniq t <? k).

(** The entries [(j, w)] of vertex [u] and of the loops section, in the
    order of the input. *)
Definition upper_of (uniq : list Z) (u : Z) (ts : list (Z * Z * Z)) : list (Z * Z) :=
  map (fun t => (hi uniq t, t.2)) (List.filter (is_upper uniq u) ts).

Definition loops_of (uniq : list Z) (ts : list (Z * Z * Z)) : list (Z * Z) :=
  map (fun t => (cidx uniq t.1.1, t.2)) (List.filter (is_loop uniq) ts).

Definition count_upper (uniq : list Z) (u : Z) (ts : list (Z * Z * Z)) : Z :=
  Z.of_nat (length (List.filter (is_upper uniq u) ts)).

Definition count_below (uniq : list Z) (k : Z) (ts : list (Z * Z * Z)) : Z :=
  Z.of_nat (length (List.filter (is_below uniq k) ts)).

(** The range [l[b], ..., l[b+n-1]] of a vector. *)
Definition slice {A} (l : list A) (b n : nat) : list A := take n (drop b l).

(** ** The canonical shape of the tables that are written out

    The mapping strictly ascending; for every vertex [i] the neighbours
    [j] of its range non-decreasing from the base [i], so that no gap
    [j - prev] is negative; the loop vertices non-decreasing from the
    base 0. *)
Definition canonical (g : Serializer.tables) : Prop :=
  Sorted Z.lt (Serializer.uniq g)
  /\ (forall i : Z, 0 <= i < Serializer.N_of g ->
        exists (b e : Z) (js : list Z),
          vget (Serializer.off g) i = Ok b
          /\ vget (Serializer.off g) (i + 1) = Ok e
          /\ vslice (Serializer.upper_nei g) b (e - b) = Ok js
          /\ Sorted Z.le (i :: js))
  /\ Sorted Z.le (0 :: map fst (Serializer.loops g)).

(** The entries that the tables [upper_nei], [upper_w] hold in the range
    of vertex [u]. *)
Definition range_entries (uniq : list Z) (ts : list (Z * Z * Z)) (nei wts : list Z)
    (u : Z) : list (Z * Z) :=
  let b := Z.to_nat (count_below uniq u ts) in
  let n := Z.to_nat (count_upper uniq u ts) in
  zip (slice nei b n) (slice wts b n).

(** The entries [(j, w)] of a range with every [j] replaced by its
    difference to the one before, the first by its difference to [prev]. *)
Fixpoint gap_entries (prev : Z) (es : list (Z * Z)) : list (Z * Z) :=
  match es with
  | [] => []
  | (j, w) :: es' => (j - prev, w) :: gap_entries j es'
  end.

(** ** Edge lists as texts and as multisets *)

(** An edge with its endpoints in order. *)
Definition canon (t : Z * Z * Z) : Z * Z * Z :=
  (Z.min t.1.1 t.1.2, Z.max t.1.1 t.1.2, t.2).

(** The text with one line per triplet. *)
Definition text_of (ts : list (Z * Z * Z)) : list byte :=
  flat_map (fun t => TextWriter.line t.1.1 t.1.2 t.2) ts.

(** The original id of a compact index. *)
Definition orig_at (orig : list Z) (i : Z) : Z := nth (Z.to_nat i) orig 0.

(** The triplets of the entries [(j, w)] of vertex [i], and of the entries
    [(v, w)] of the loops section. *)
Definition entry_triplets (orig : list Z) (i : Z) (es : list (Z * Z)) : list (Z * Z * Z) :=
  map (fun e => (orig_at orig i, orig_at orig e.1, e.2)) es.

Definition loop_triplets (orig : list Z) (es : list (Z * Z)) : list (Z * Z * Z) :=
  map (fun e => (orig_at orig e.1, orig_at orig e.1, e.2)) es.

(** The triplets that the tables built from [ts] stand for: the ranges of
    the vertices in ascending order, then the loops. *)
Definition decoded_triplets (ts : list (Z * Z * Z)) (g : Serializer.tables)
  : list (Z * Z * Z) :=
  flat_map (fun u : nat =>
              entry_triplets (Serializer.uniq g) (Z.of_nat u)
                (range_entries (Serializer.uniq g) ts
                   (Serializer.upper_nei g) (Serializer.upper_w g) (Z.of_nat u)))
           (seq 0 (length (Serializer.uniq g)))
  ++ loop_triplets (Serializer.uniq g) (Serializer.loops g).

(** Triplets as the scanner yields them: two [uint32_t] and a [uint8_t]. *)
Definition triplet_in_range (t : Z * Z * Z) : Prop :=
  0 <= t.1.1 < 2^32 /\ 0 <= t.1.2 < 2^32 /\ 0 <= t.2 < 256.

(** An entry that the reader can take: a compact index inside the mapping
    and a weight byte. *)
Definition entry_ok (orig : list Z) (e : Z * Z) : Prop :=
  0 <= e.1 < 2^32 /\ (Z.to_nat e.1 < length orig)%nat /\ 0 <= e.2 < 256.

(** An id that [idx_of] finds in the mapping. *)
Definition resolved (uniq : list Z) (a : Z) : Prop :=
  uniq !! Serializer.lower_bound uniq a = Some a.

(** ** The buffer of the two writers

    [BinWriter] and [TextWriter] hold the same code: a vector [buf] that
    [put] appends to and [flush] writes to the file, from [put] as soon as
    the buffer holds [1u<<20] bytes and from the destructor.  The state is
    the content of the file so far and the buffer.  A [write] that the
    system cuts short ends the run with [die]; the model takes every
    [write] to be complete. *)

Module Buffer.

Record state : Type := State {
  file : list byte;
  buf : list byte
}.

(** The constructor: the file is created or truncated, the buffer empty. *)
Definition open : state := State [] [].

(** [if (!buf.empty()) { write(fd, buf.data(), buf.size()); buf.clear(); }] *)
Definition flush (w : state) : state :=
  match buf w with
  | [] => w
  | _ :: _ => State (file w ++ buf w) []
  end.

(** [buf.push_back(b); if (buf.size()>= (1u<<20)) flush();] *)
Definition put (b : byte) (w : state) : state :=
  let w' := State (file w) (buf w ++ [b]) in
  if 2^20 <=? Z.of_nat (length (buf w')) then flush w' else w'.

(** [for(size_t i=0;i<n;++i) put(s[i]);], the body of [write] and [puts]. *)
Definition puts (s : list byte) (w : state) : state :=
  fold_left (fun w b => put b w) s w.

(** The destructor: [flush(); close(fd);]. *)
Definition close (w : state) : list byte := file (flush w).

End Buffer.

(** What holds of a writer between two calls: the file is a whole number of
    blocks and the buffer is not full. *)
Definition Buffer_blocks (w : Buffer.state) : Prop :=
  Z.of_nat (length (Buffer.file w)) mod 2 ^ 20 = 0
  /\ Z.of_nat (length (Buffer.buf w)) < 2 ^ 20.

(** ** The command line

    [main] without the program name: [args] is [argv[1]], ...,
    [argv[argc-1]].  Whether a path exists is a question to the file system
    and comes in as [file_exists]. *)

Module CLI.

Open Scope string_scope.

Inductive dispatch : Type :=
| Usage                               (* the usage line, [return 1] *)
| UnknownArg (a : string)             (* "Unknown/invalid arg: a", [return 1] *)
| Died (msg : string)                 (* [die(msg)] *)
| RunSerializer (in_path out_path : string)
| RunDeserializer (in_path out_path : string).

Record flags : Type := Flags {
  mode_s : bool;
  mode_d : bool;
  in_path : string;
  out_path : string
}.

(** The [for] loop over the arguments: [inr a] is the [return 1] at the
    argument [a]. *)
Fixpoint parse_args (args : list string) (f : flags) : flags + string :=
  match args with
  | [] => inl f
  | a :: rest =>
      if String.eqb a "-s" then parse_args rest (Flags true (mode_d f) (in_path f) (out_path f))
      else if String.eqb a "-d" then parse_args rest (Flags (mode_s f) true (in_path f) (out_path f))
      else if String.eqb a "-i" then
        match rest with
        | v :: rest' => parse_args rest' (Flags (mode_s f) (mode_d f) v (out_path f))
        | [] => inr a
        end
      else if String.eqb a "-o" then
        match rest with
        | v :: rest' => parse_args rest' (Flags (mode_s f) (mode_d f) (in_path f) v)
        | [] => inr a
        end
      else inr a
  end.

Definition main (file_exists : string -> bool) (args : list string) : dispatch :=
  if (S (length args) <? 6)%nat then Usage
  else
    match parse_args args (Flags false false "" "") with
    | inr a => UnknownArg a
    | inl f =>
        if Bool.eqb (mode_s f) (mode_d f) then Died "choose exactly one mode: -s or -d"
        else if String.eqb (in_path f) "" || String.eqb (out_path f) ""
        then Died "-i and -o are required"
        else if mode_s f then
          if file_exists (in_path f) then RunSerializer (in_path f) (out_path f)
          else Died ("input TSV not found: " ++ in_path f)
        else
          if file_exists (in_path f) then RunDeserializer (in_path f) (out_path f)
          else Died ("input BIN not found: " ++ in_path f)
    end.

End CLI.

(** What the loop over the arguments can have changed in the flags. *)
Definition CLI_from (f f' : CLI.flags) (args : list string) : Prop :=
  (CLI.mode_s f' = true -> CLI.mode_s f = true \/ In "-s"%string args)
  /\ (CLI.mode_d f' = true -> CLI.mode_d f = true \/ In "-d"%string args)
  /\ (CLI.in_path f' = CLI.in_path f
      \/ (In "-i"%string args /\ In (CLI.in_path f') args))
  /\ (CLI.out_path f' = CLI.out_path f
      \/ (In "-o"%string args /\ In (CLI.out_path f') args)).

(** ** Decimal numerals and line ends of the input text *)

Definition digit (b : byte) : bool := (48 <=? byte_val b) && (byte_val b <=? 57).

(** The value of a string of digits, most significant first. *)
Definition decimal (ds : list byte) : Z :=
  fold_left (fun x b => x * 10 + (byte_val b - 48)) ds 0.

Definition numeral (ds : list byte) : Prop :=
  ds <> [] /\ Forall (fun b => digit b = true) ds.

Definition newline_char (b : byte) : bool :=
  (byte_val b =? TSVScanner.LF) || (byte_val b =? TSVScanner.CR).

(** The ends of a line that the scanner takes: LF, CR LF, a lone CR, or
    the end of the file. *)
Definition line_end (term rest : list byte) : Prop :=
  term = [u8 TSVScanner.LF] \/ term = [u8 TSVScanner.CR; u8 TSVScanner.LF]
  \/ term = [u8 TSVScanner.CR] \/ (term = [] /\ rest = []).

(** The characters of a text that the scanner takes. *)
Definition scanner_char (b : byte) : bool :=
  digit b || (byte_val b =? TSVScanner.TAB) || newline_char b.

(** The order of the lines that the deserializer writes: by the first id,
    then by the second. *)
Definition edge_le (t1 t2 : Z * Z * Z) : Prop :=
  t1.1.1 < t2.1.1 \/ (t1.1.1 = t2.1.1 /\ t1.1.2 <= t2.1.2).

(** ** The layout of a version-2 file

    The sections of the format description at the head of main.cpp
    (version 2), for a mapping [orig], the entries [(j, w)] of every vertex
    and the entries [(v, w)] of the loops section; what is laid out for an
    entry is its difference to the one before ([gap_entries]). *)

(** [delta_i = orig[i]-orig[i-1]], from the element after [prev] on. *)
Fixpoint deltas (prev : Z) (l : list Z) : list Z :=
  match l with
  | [] => []
  | x :: l' => (x - prev) :: deltas x l'
  end.

Definition mapping_deltas (orig : list Z) : list Z :=
  match orig with
  | [] => []
  | first :: rest => deltas first rest
  end.

(** Section A: [if N>0: [uint32 first_original_id]], then the deltas as
    VarUInt. *)
Definition mapping_layout (orig : list Z) : list byte :=
  match orig with
  | [] => []
  | first :: _ => BinWriter.u32le first ++ flat_map BinWriter.varu (mapping_deltas orig)
  end.

(** Section B from vertex [i] on: [deg_plus(i)] as VarUInt, then for each
    neighbour the gap as VarUInt and the weight. *)
Fixpoint adjacency_layout (i : Z) (adj : list (list (Z * Z))) : list byte :=
  match adj with
  | [] => []
  | es :: adj' =>
      BinWriter.varu (Z.of_nat (length es))
      ++ flat_map entry_bytes (gap_entries i es)
      ++ adjacency_layout (i + 1) adj'
  end.

(** Section C: [L] as VarUInt, then for each loop the vertex delta as
    VarUInt and the weight. *)
Definition loops_layout (loops : list (Z * Z)) : list byte :=
  BinWriter.varu (Z.of_nat (length loops)) ++ flat_map entry_bytes (gap_entries 0 loops).

(** The file behind its six header bytes: [N], [M], sections A, B, C. *)
Definition body_layout (orig : list Z) (M : Z) (adj : list (list (Z * Z)))
    (loops : list (Z * Z)) : list byte :=
  BinWriter.varu (Z.of_nat (length orig)) ++ BinWriter.varu M
  ++ mapping_layout orig ++ adjacency_layout 0 adj ++ loops_layout loops.

(** ** The indices that the reader computes

    The inner adjacency loop of [Deserializer::run] with the printing left
    out: of every entry the index [j = prev + (uint32_t)gap] and the weight
    are kept, and [orig_of] is not indexed.  The loop over the loops
    section computes [v = acc + (uint32_t)d] in the same way, from
    [acc = 0]. *)
Fixpoint read_indices (deg : nat) (prev : Z) (p : list byte)
  : outcome (list (Z * Z) * list byte) :=
  match deg with
  | O => Ok ([], p)
  | S deg' =>
      let* (gap, p1) := BinReader.varu p in
      let j := wrap32 (prev + wrap32 gap) in
      let* (w, p2) := BinReader.get p1 in
      let* (rest, p3) := read_indices deg' j p2 in
      Ok ((j, w) :: rest, p3)
  end.

(** [for (uint32_t i=0;i<N;++i){ deg = br.varu(); prev = i; ... }] *)
Fixpoint read_index_lists (n : nat) (i : Z) (p : list byte)
  : outcome (list (list (Z * Z)) * list byte) :=
  match n with
  | O => Ok ([], p)
  | S n' =>
      let* (deg, p1) := BinReader.varu p in
      let* (es, p2) := read_indices (Z.to_nat deg) i p1 in
      let* (rest, p3) := read_index_lists n' (i + 1) p2 in
      Ok (es :: rest, p3)
  end.

(** What the reader takes from a file behind its six header bytes: the
    mapping, the entries of every vertex, the entries of the loops
    section, and the bytes that are left. *)
Definition decode_indices (version : Z) (p : list byte)
  : outcome (list Z * list (list (Z * Z)) * list (Z * Z) * list byte) :=
  let* (N, _, p0) := Deserializer.read_counts version p in
  let* (orig_of, p1) := Deserializer.read_mapping version N p0 in
  let* (adj, p2) := read_index_lists (Z.to_nat N) 0 p1 in
  let* (L, p3) := BinReader.varu p2 in
  let* (loops, p4) := read_indices (Z.to_nat L) 0 p3 in
  Ok (orig_of, adj, loops, p4).

(** * Properties *)

(** ** Bytes and bits *)

Lemma byte_val_range (b : byte) : 0 <= byte_val b < 256.
Proof.
  unfold byte_val. pose proof (Byte.to_N_bounded b). lia.
Qed.

Lemma byte_val_u8 (z : Z) : byte_val (u8 z) = wrap8 z.
Proof.
  unfold u8, byte_val, wrap8.
  assert (Hr : 0 <= z mod 2^8 < 256) by (apply Z.mod_pos_bound; lia).
  generalize dependent (z mod 2^8). intros r Hr.
  destruct (Byte.of_N (Z.to_N r)) as [b|] eqn:E.
  - apply Byte.to_of_N in E. rewrite E. rewrite Z2N.id; lia.
  - apply Byte.of_N_None_iff in E. lia.
Qed.

Lemma u8_byte_val (b : byte) : u8 (byte_val b) = b.
Proof.
  unfold u8, byte_val, wrap8. pose proof (Byte.to_N_bounded b) as Hb.
  rewrite Z.mod_small by (change (2^8) with 256; lia).
  rewrite N2Z.id, Byte.of_to_N. reflexivity.
Qed.

Lemma wrap8_small z : 0 <= z < 256 -> wrap8 z = z.
Proof. intros. unfold wrap8. apply Z.mod_small. change (2^8) with 256. lia. Qed.

Lemma wrap32_small z : 0 <= z < 2^32 -> wrap32 z = z.
Proof. intros. unfold wrap32. apply Z.mod_small. lia. Qed.

Lemma wrap64_small z : 0 <= z < 2^64 -> wrap64 z = z.
Proof. intros. unfold wrap64. apply Z.mod_small. lia. Qed.

Lemma wrap32_range z : 0 <= wrap32 z < 2^32.
Proof. unfold wrap32. apply Z.mod_pos_bound. lia. Qed.

Lemma wrap64_range z : 0 <= wrap64 z < 2^64.
Proof. unfold wrap64. apply Z.mod_pos_bound. lia. Qed.

Lemma wrap8_land z : wrap8 z = Z.land z 255.
Proof. unfold wrap8. change 255 with (Z.ones 8). now rewrite Z.land_ones by lia. Qed.

(** The low seven bits and the rest put a number together again. *)
Lemma split_low7 (y : Z) :
  Z.lor (Z.land y 127) (Z.shiftl (Z.shiftr y 7) 7) = y.
Proof.
  apply Z.bits_inj'. intros n Hn.
  rewrite Z.lor_spec. change 127 with (Z.ones 7).
  rewrite Z.land_spec.
  destruct (Z.ltb_spec n 7).
  - rewrite Z.ones_spec_low by lia. rewrite Z.shiftl_spec_low by lia.
    now rewrite andb_true_r, orb_false_r.
  - rewrite Z.ones_spec_high by lia. rewrite Z.shiftl_spec by lia.
    rewrite Z.shiftr_spec by lia. rewrite andb_false_r. simpl.
    f_equal. lia.
Qed.

(** The byte the writer emits before it shifts: payload and flag. *)
Lemma cont_byte_payload (y : Z) :
  Z.land (wrap8 (Z.lor (wrap8 y) 128)) 127 = Z.land y 127.
Proof.
  rewrite !wrap8_land. apply Z.bits_inj'. intros n Hn.
  change 127 with (Z.ones 7). change 255 with (Z.ones 8). change 128 with (2^7).
  rewrite !Z.land_spec, Z.lor_spec, Z.land_spec, Z.pow2_bits_eqb by lia.
  destruct (Z.ltb_spec n 7).
  - rewrite (Z.ones_spec_low 7), (Z.ones_spec_low 8) by lia.
    destruct (Z.eqb_spec 7 n); [lia|]. now rewrite !andb_true_r, orb_false_r.
  - rewrite (Z.ones_spec_high 7) by lia. now rewrite !andb_false_r.
Qed.

Lemma cont_byte_flag (y : Z) :
  Z.land (wrap8 (Z.lor (wrap8 y) 128)) 128 = 128.
Proof.
  rewrite !wrap8_land. apply Z.bits_inj'. intros n Hn.
  change 255 with (Z.ones 8). change 128 with (2^7).
  rewrite !Z.land_spec, Z.lor_spec, Z.land_spec, !Z.pow2_bits_eqb by lia.
  destruct (Z.eqb_spec 7 n) as [<-|].
  - rewrite Z.ones_spec_low by lia. now rewrite orb_true_r.
  - now rewrite andb_false_r.
Qed.

Lemma small_byte_payload (y : Z) : 0 <= y < 128 -> Z.land y 127 = y.
Proof.
  intros. change 127 with (Z.ones 7). rewrite Z.land_ones by lia.
  apply Z.mod_small. lia.
Qed.

Lemma small_byte_flag (y : Z) : 0 <= y < 128 -> Z.land y 128 = 0.
Proof.
  intros Hy. apply Z.bits_inj'. intros n Hn.
  change 128 with (2^7). rewrite Z.land_spec, Z.pow2_bits_eqb, Z.bits_0 by lia.
  destruct (Z.eqb_spec 7 n) as [<-|]; [|now rewrite andb_false_r].
  rewrite andb_true_r. apply Z.bits_above_log2; [lia|].
  destruct (Z.eq_dec y 0) as [->|]; [simpl; lia|].
  apply Z.log2_lt_pow2; lia.
Qed.

(** ** The varint codec *)

(** Reading what [varu_loop] wrote, from any accumulator and shift. *)
Lemma varu_loop_read (fuel : nat) :
  forall (y acc s : Z) (rest : list byte),
    0 <= y < 2^(7 * Z.of_nat fuel) -> (0 < fuel)%nat ->
    0 <= s < 64 -> y < 2^(64 - s) ->
    BinReader.varu_loop acc s (BinWriter.varu_loop fuel y ++ rest)
    = Ok (Z.lor acc (Z.shiftl y s), rest).
Proof.
  induction fuel as [|fuel IH]; intros y acc s rest Hy Hf Hs Hys; [lia|].
  assert (Hsh : 0 <= Z.shiftl y s < 2^64).
  { rewrite Z.shiftl_mul_pow2 by lia. split; [apply Z.mul_nonneg_nonneg; lia|].
    replace (2^64) with (2^(64 - s) * 2^s) by (rewrite <- Z.pow_add_r by lia; f_equal; lia).
    apply Z.mul_lt_mono_pos_r; lia. }
  cbn [BinWriter.varu_loop].
  destruct (Z.leb_spec 128 y) as [Hbig|Hsmall].
  - unfold BinWriter.put. cbn [app BinReader.varu_loop].
    rewrite byte_val_u8, cont_byte_payload, cont_byte_flag.
    change (128 =? 0) with false. cbv iota.
    assert (Hs57 : s < 57).
    { destruct (Z_lt_dec s 57); [assumption|].
      assert (2^(64 - s) <= 2^7) by (apply Z.pow_le_mono_r; lia). lia. }
    destruct (Z.ltb_spec 63 (s + 7)); [lia|].
    assert (Hy7 : 0 <= Z.shiftr y 7 < 2^(7 * Z.of_nat fuel)).
    { rewrite Z.shiftr_div_pow2 by lia. split; [apply Z.div_pos; lia|].
      apply Z.div_lt_upper_bound; [lia|].
      rewrite <- Z.pow_add_r by lia.
      replace (7 + 7 * Z.of_nat fuel) with (7 * Z.of_nat (S fuel)) by lia. lia. }
    assert (Hfuel : (0 < fuel)%nat).
    { destruct fuel; [|lia]. change (2^(7 * Z.of_nat 1)) with 128 in Hy. lia. }
    rewrite IH; try lia.
    + f_equal. f_equal.
      rewrite wrap64_small.
      * rewrite <- Z.lor_assoc. f_equal.
        replace (s + 7) with (7 + s) by lia.
        rewrite <- (Z.shiftl_shiftl _ 7 s) by lia.
        rewrite <- Z.shiftl_lor. now rewrite split_low7.
      * change 127 with (Z.ones 7). rewrite Z.land_ones by lia.
        rewrite Z.shiftl_mul_pow2 by lia.
        pose proof (Z.mod_pos_bound y (2^7) ltac:(lia)).
        split; [apply Z.mul_nonneg_nonneg; lia|].
        apply Z.lt_le_trans with (2^7 * 2^s).
        -- apply Z.mul_lt_mono_pos_r; lia.
        -- rewrite <- Z.pow_add_r by lia. apply Z.pow_le_mono_r; lia.
    + rewrite Z.shiftr_div_pow2 by lia. apply Z.div_lt_upper_bound; [lia|].
      rewrite <- Z.pow_add_r by lia. replace (7 + (64 - (s + 7))) with (64 - s) by lia. lia.
  - unfold BinWriter.put. cbn [app BinReader.varu_loop].
    rewrite byte_val_u8, !(wrap8_small y) by lia.
    rewrite small_byte_payload, small_byte_flag by lia.
    change (0 =? 0) with true. cbv iota.
    now rewrite wrap64_small by lia.
Qed.

(** The number of bytes [varu_loop] writes. *)
Lemma varu_loop_length (fuel : nat) :
  forall y : Z,
    0 <= y < 2^(7 * Z.of_nat fuel) -> (0 < fuel)%nat ->
    Z.of_nat (length (BinWriter.varu_loop fuel y))
    = if y =? 0 then 1 else (bitlen y + 6) / 7.
Proof.
  induction fuel as [|fuel IH]; intros y Hy Hf; [lia|].
  cbn [BinWriter.varu_loop].
  destruct (Z.leb_spec 128 y) as [Hbig|Hsmall].
  - unfold BinWriter.put. cbn [app length].
    assert (Hy7 : 0 <= Z.shiftr y 7 < 2^(7 * Z.of_nat fuel)).
    { rewrite Z.shiftr_div_pow2 by lia. split; [apply Z.div_pos; lia|].
      apply Z.div_lt_upper_bound; [lia|].
      rewrite <- Z.pow_add_r by lia.
      replace (7 + 7 * Z.of_nat fuel) with (7 * Z.of_nat (S fuel)) by lia. lia. }
    assert (Hfuel : (0 < fuel)%nat).
    { destruct fuel; [|lia]. change (2^(7 * Z.of_nat 1)) with 128 in Hy. lia. }
    rewrite Nat2Z.inj_succ, IH by lia.
    assert (Hpos : 0 < Z.shiftr y 7).
    { rewrite Z.shiftr_div_pow2 by lia. apply Z.div_str_pos. lia. }
    destruct (Z.eqb_spec (Z.shiftr y 7) 0); [lia|].
    destruct (Z.eqb_spec y 0); [lia|].
    unfold bitlen.
    destruct (Z.eqb_spec (Z.shiftr y 7) 0); [lia|].
    destruct (Z.eqb_spec y 0); [lia|].
    rewrite Z.log2_shiftr by lia.
    assert (7 <= Z.log2 y) by (apply Z.log2_le_pow2; lia).
    rewrite Z.max_r by lia.
    replace (Z.log2 y + 1 + 6) with ((Z.log2 y - 7 + 1 + 6) + 1 * 7) by lia.
    rewrite Z.div_add by lia. lia.
  - unfold BinWriter.put. cbn [length].
    destruct (Z.eqb_spec y 0); [reflexivity|].
    unfold bitlen. destruct (Z.eqb_spec y 0); [lia|].
    assert (0 <= Z.log2 y) by apply Z.log2_nonneg.
    assert (Z.log2 y < 7) by (apply Z.log2_lt_pow2; lia).
    change (Z.of_nat 1) with 1. apply Z.div_unique with (Z.log2 y); lia.
Qed.

(** Reading a written varint, whatever follows it in the stream. *)
Lemma varu_read_written (x : Z) (rest : list byte) :
  0 <= x < 2^64 ->
  BinReader.varu (BinWriter.varu x ++ rest) = Ok (x, rest).
Proof.
  intros Hx. unfold BinReader.varu, BinWriter.varu.
  rewrite wrap64_small by assumption.
  rewrite varu_loop_read; try lia.
  now rewrite Z.shiftl_0_r, Z.lor_0_l.
Qed.

Lemma varu_length (x : Z) :
  0 <= x < 2^64 ->
  Z.of_nat (length (BinWriter.varu x)) = (if x =? 0 then 1 else (bitlen x + 6) / 7).
Proof.
  intros Hx. unfold BinWriter.varu. rewrite wrap64_small by assumption.
  apply varu_loop_length; [|lia].
  change (2^(7 * Z.of_nat 10)) with (2^70). lia.
Qed.

(** C4: for every [x] in [0, 2^64), decoding the varint encoding of [x]
    (whatever follows it in the stream) returns [x] and leaves the reader
    right behind the encoding, and the encoding has ceil(bitlen(x)/7)
    bytes, one byte for [x = 0]. *)
Theorem varu_roundtrip (x : Z) (rest : list byte) :
  0 <= x < 2^64 ->
  BinReader.varu (BinWriter.varu x ++ rest) = Ok (x, rest)
  /\ Z.of_nat (length (BinWriter.varu x))
     = (if x =? 0 then 1 else (bitlen x + 6) / 7).
Proof.
  intros Hx. split; [now apply varu_read_written|now apply varu_length].
Qed.

Lemma varu_roundtrip_witness :
  BinReader.varu (BinWriter.varu 16384 ++ [x2a]) = Ok (16384, [x2a])
  /\ Z.of_nat (length (BinWriter.varu 16384))
     = (if 16384 =? 0 then 1 else (bitlen 16384 + 6) / 7).
Proof. apply (varu_roundtrip 16384 [x2a]). lia. Defined.

(** A stream of continuation bytes, read from shift [s]. *)
Lemma varu_loop_continuations (pre : list byte) :
  forall (x s : Z) (rest : list byte),
    Forall (fun b => continuation b = true) pre -> 0 <= s <= 63 ->
    (s + 7 * Z.of_nat (length pre) <= 63 ->
     BinReader.varu_loop x s pre = die "unexpected EOF (varint)")
    /\ (63 < s + 7 * Z.of_nat (length pre) ->
        BinReader.varu_loop x s (pre ++ rest) = die "varint too long").
Proof.
  induction pre as [|b pre IH]; intros x s rest Hall Hs.
  - split; [reflexivity|]. cbn [length]. lia.
  - inversion Hall as [|? ? Hb Hall']; subst.
    unfold continuation in Hb. apply negb_true_iff in Hb.
    cbn [app BinReader.varu_loop length]. rewrite Hb.
    rewrite Nat2Z.inj_succ.
    destruct (Z.ltb_spec 63 (s + 7)) as [Hlong|Hshort].
    + split; [lia|reflexivity].
    + destruct (IH (Z.lor x (wrap64 (Z.shiftl (Z.land (byte_val b) 127) s))) (s + 7) rest Hall')
        as [Heof Hlong]; [lia|].
      split; intros; [apply Heof|apply Hlong]; lia.
Qed.

(** C7: when the stream ends after fewer than ten bytes that all carry the
    continuation bit (the empty stream included), decoding dies with
    "unexpected EOF (varint)"; when ten bytes in a row carry it, the shift
    would pass 63 and decoding dies with "varint too long", whatever
    follows.  In neither case is a value returned. *)
Theorem varu_rejects (pre rest : list byte) :
  Forall (fun b => continuation b = true) pre ->
  ((length pre < 10)%nat ->
   BinReader.varu pre = Fail (Die "unexpected EOF (varint)"))
  /\ (length pre = 10%nat ->
      BinReader.varu (pre ++ rest) = Fail (Die "varint too long")).
Proof.
  intros Hall. unfold BinReader.varu.
  destruct (varu_loop_continuations pre 0 0 rest Hall ltac:(lia)) as [Heof Hlong].
  split; intros Hlen; [apply Heof|apply Hlong]; lia.
Qed.

Lemma varu_rejects_witness :
  BinReader.varu [x80; xff; x81] = Fail (Die "unexpected EOF (varint)")
  /\ BinReader.varu (replicate 10 xff ++ [x00]) = Fail (Die "varint too long").
Proof.
  split.
  - apply (varu_rejects [x80; xff; x81] []); [repeat constructor | simpl; lia].
  - apply (varu_rejects (replicate 10 xff) [x00]); [repeat constructor | reflexivity].
Defined.

(** ** Fuel is never used up *)

Lemma writer_varu_loop_fuel (fuel : nat) :
  forall (fuel' : nat) (y : Z),
    0 <= y < 2^(7 * Z.of_nat fuel) -> (0 < fuel <= fuel')%nat ->
    BinWriter.varu_loop fuel' y = BinWriter.varu_loop fuel y.
Proof.
  induction fuel as [|fuel IH]; intros fuel' y Hy Hf; [lia|].
  destruct fuel' as [|fuel']; [lia|].
  cbn [BinWriter.varu_loop].
  destruct (Z.leb_spec 128 y) as [Hbig|]; [|reflexivity].
  f_equal. apply IH.
  - rewrite Z.shiftr_div_pow2 by lia. split; [apply Z.div_pos; lia|].
    apply Z.div_lt_upper_bound; [lia|].
    rewrite <- Z.pow_add_r by lia.
    replace (7 + 7 * Z.of_nat fuel) with (7 * Z.of_nat (S fuel)) by lia. lia.
  - destruct fuel; [|lia]. change (2^(7 * Z.of_nat 1)) with 128 in Hy. lia.
Qed.

(** More than ten rounds change nothing for a 64-bit argument. *)
Lemma varu_loop_fuel (fuel : nat) (x : Z) :
  (10 <= fuel)%nat -> BinWriter.varu_loop fuel (wrap64 x) = BinWriter.varu x.
Proof.
  intros Hf. unfold BinWriter.varu. apply writer_varu_loop_fuel; [|lia].
  pose proof (wrap64_range x). change (2^(7 * Z.of_nat 10)) with (2^70). lia.
Qed.

Lemma to_chars_fuel (fuel : nat) :
  forall (fuel' : nat) (x : Z) (acc : list byte),
    0 <= x < 10^(Z.of_nat fuel) -> (0 < fuel <= fuel')%nat ->
    TextWriter.to_chars fuel' x acc = TextWriter.to_chars fuel x acc.
Proof.
  induction fuel as [|fuel IH]; intros fuel' x acc Hx Hf; [lia|].
  destruct fuel' as [|fuel']; [lia|].
  cbn [TextWriter.to_chars].
  destruct (Z.ltb_spec x 10) as [|Hbig]; [reflexivity|].
  apply IH.
  - split; [apply Z.div_pos; lia|].
    apply Z.div_lt_upper_bound; [lia|].
    replace (10 * 10 ^ Z.of_nat fuel) with (10 ^ Z.of_nat (S fuel)); [lia|].
    rewrite Nat2Z.inj_succ, Z.pow_succ_r by lia. reflexivity.
  - destruct fuel; [|lia]. change (10 ^ Z.of_nat 1) with 10 in Hx. lia.
Qed.

(** Ten digits are enough for a [uint32_t], three for a [uint8_t]. *)
Lemma putu_fuel (fuel : nat) (x : Z) :
  0 <= x < 2^32 -> (10 <= fuel)%nat ->
  TextWriter.to_chars fuel x [] = TextWriter.putu x.
Proof.
  intros Hx Hf. unfold TextWriter.putu. apply to_chars_fuel; [|lia].
  change (10 ^ Z.of_nat 10) with 10000000000. lia.
Qed.

Lemma putu8_fuel (fuel : nat) (x : Z) :
  0 <= x < 256 -> (3 <= fuel)%nat ->
  TextWriter.to_chars fuel x [] = TextWriter.putu8 x.
Proof.
  intros Hx Hf. unfold TextWriter.putu8. apply to_chars_fuel; [|lia].
  change (10 ^ Z.of_nat 3) with 1000. lia.
Qed.

Lemma parse_loop_shorter (delim : Z) (q : list byte) :
  forall (x : Z) (any : bool) (last x' : Z) (any' : bool) (q' : list byte) (last' : Z),
    TSVScanner.parse_loop delim q x any last = Some (x', any', q', last') ->
    (length q' <= length q)%nat
    /\ (any = false -> any' = true -> (length q' < length q)%nat).
Proof.
  induction q as [|b q IH]; intros x any last x' any' q' last' H.
  - cbn in H. injection H as <- <- <- <-. split; [reflexivity|congruence].
  - cbn [TSVScanner.parse_loop] in H. cbn [length].
    destruct ((48 <=? byte_val b) && (byte_val b <=? 57)).
    + destruct (4294967295 <? x * 10 + (byte_val b - 48)); [discriminate|].
      apply IH in H as [Hle _]. split; intros; lia.
    + destruct (byte_val b =? delim).
      { injection H as <- <- <- <-. split; intros; lia. }
      destruct ((delim =? TSVScanner.LF)
                && ((byte_val b =? TSVScanner.LF) || (byte_val b =? TSVScanner.CR)));
        [|discriminate].
      injection H as <- <- <- <-. split; intros; lia.
Qed.

Lemma parse_u32_until_shorter (delim : Z) (q q' : list byte) (x last : Z) :
  TSVScanner.parse_u32_until delim q = Some (x, q', last) ->
  (length q' < length q)%nat.
Proof.
  unfold TSVScanner.parse_u32_until. intros H.
  destruct (TSVScanner.parse_loop delim q 0 false 0) as [[[[x0 any0] q0] last0]|] eqn:E;
    [|discriminate].
  destruct any0; [|discriminate]. injection H as <- <- <-.
  now apply (parse_loop_shorter _ _ _ _ _ _ _ _ _ E).
Qed.

Lemma skip_newline_shorter (c : byte) (q : list byte) :
  (byte_val c =? TSVScanner.LF) || (byte_val c =? TSVScanner.CR) = true ->
  (length (TSVScanner.skip_newline (c :: q)) < length (c :: q))%nat.
Proof.
  intros Hc. unfold TSVScanner.skip_newline. cbn [length].
  destruct (byte_val c =? TSVScanner.CR) eqn:Ecr.
  - destruct q as [|c' q]; cbn [length]; [lia|].
    destruct (byte_val c' =? TSVScanner.LF); cbn [length]; lia.
  - rewrite orb_false_r in Hc. rewrite Hc. lia.
Qed.

(** The scanner loop with any fuel above the size of the range gives what
    [for_each_triplet] gives. *)
Lemma for_each_triplet_loop_fuel (fuel : nat) :
  forall (fuel' : nat) (q : list byte),
    (length q < fuel)%nat -> (length q < fuel')%nat ->
    TSVScanner.for_each_triplet_loop fuel q = TSVScanner.for_each_triplet_loop fuel' q.
Proof.
  induction fuel as [|fuel IH]; intros fuel' q Hf Hf'; [lia|].
  destruct fuel' as [|fuel']; [lia|].
  cbn [TSVScanner.for_each_triplet_loop].
  destruct q as [|c q]; [reflexivity|].
  destruct ((byte_val c =? TSVScanner.LF) || (byte_val c =? TSVScanner.CR)) eqn:Hnl.
  - pose proof (skip_newline_shorter c q Hnl). apply IH; lia.
  - destruct (TSVScanner.parse_u32_until TSVScanner.TAB (c :: q)) as [[[a q1] l1]|] eqn:E1;
      [|reflexivity].
    destruct (TSVScanner.parse_u32_until TSVScanner.TAB q1) as [[[b q2] l2]|] eqn:E2;
      [|reflexivity].
    destruct (TSVScanner.parse_u32_until TSVScanner.LF q2) as [[[w q3] l3]|] eqn:E3;
      [|reflexivity].
    destruct (255 <? w); [reflexivity|].
    apply parse_u32_until_shorter in E1, E2, E3.
    rewrite (IH fuel'); [reflexivity| |].
    + destruct q3 as [|c' q3']; [lia|].
      destruct ((l3 =? TSVScanner.CR) && (byte_val c' =? TSVScanner.LF)); cbn [length] in *; lia.
    + destruct q3 as [|c' q3']; [lia|].
      destruct ((l3 =? TSVScanner.CR) && (byte_val c' =? TSVScanner.LF)); cbn [length] in *; lia.
Qed.

Lemma for_each_triplet_fuel (fuel : nat) (data : list byte) :
  (length data < fuel)%nat ->
  TSVScanner.for_each_triplet_loop fuel data = TSVScanner.for_each_triplet data.
Proof.
  intros Hf. unfold TSVScanner.for_each_triplet. apply for_each_triplet_loop_fuel; lia.
Qed.

(** ** The size check of the deserializer *)

(** C10: every input shorter than 18 bytes is rejected with
    "binary too small" before a single header byte is looked at, whatever
    it holds. *)
Theorem run_binary_too_small (data : list byte) :
  (length data < 18)%nat ->
  Deserializer.run data = Fail (Die "binary too small").
Proof.
  intros Hlen. unfold Deserializer.run.
  change (4 + 1 + 1 + 4 + 8)%nat with 18%nat.
  destruct (Nat.ltb_spec (length data) 18); [reflexivity|lia].
Qed.

(** The nine-byte version-2 file of the empty graph is among them. *)
Lemma run_binary_too_small_witness :
  Deserializer.run bin_empty_with_loops = Fail (Die "binary too small").
Proof. apply (run_binary_too_small bin_empty_with_loops). simpl. lia. Defined.

(** ** A sort under the contract on short vectors *)

Lemma std_sort_nil sort : std_sort_contract sort -> sort [] = [].
Proof. intros H. destruct (H []) as [Hp _]. now apply Permutation_nil_r in Hp. Qed.

Lemma std_sort_singleton sort x : std_sort_contract sort -> sort [x] = [x].
Proof.
  intros H. destruct (H [x]) as [Hp _].
  apply Permutation_sym, Permutation_length_1_inv in Hp. exact Hp.
Qed.

(** ** The scenarios of the test plan *)

(** C3, on the code: a zero-byte input is serialized to the eight bytes
    [47 52 50 48 02 01 00 00], and the deserializer refuses these eight
    bytes with "binary too small" instead of writing an empty text. *)
Theorem empty_input_not_read_back (sort : list (Z * Z) -> list (Z * Z)) :
  Serializer.run sort [] = Ok bin_empty
  /\ Deserializer.run bin_empty = Fail (Die "binary too small").
Proof. split; reflexivity. Qed.

(** C8: the single line [10<TAB>20<TAB>5<LF>] is serialized to the header
    followed by varu(2), varu(1), u32le(10), varu(10), then deg 1, gap 1,
    weight 5 for vertex 0, deg 0 for vertex 1 and L = 0; these are the
    eighteen bytes of [bin_single_edge], and they are read back as the
    same line. *)
Theorem single_edge_scenario (sort : list (Z * Z) -> list (Z * Z)) :
  std_sort_contract sort ->
  Serializer.run sort tsv_single_edge = Ok bin_single_edge
  /\ bin_single_edge
     = Serializer.header
       ++ BinWriter.varu 2 ++ BinWriter.varu 1
       ++ BinWriter.u32le 10 ++ BinWriter.varu 10
       ++ (BinWriter.varu 1 ++ BinWriter.varu 1 ++ BinWriter.put 5)
       ++ BinWriter.varu 0
       ++ BinWriter.varu 0
  /\ Deserializer.run bin_single_edge = Ok tsv_single_edge.
Proof.
  intros Hsort. split; [|split; reflexivity].
  unfold Serializer.run.
  change (TSVScanner.for_each_triplet tsv_single_edge) with (Ok [(10, 20, 5)]).
  cbn [bind].
  assert (Hbuild : Serializer.build sort [(10, 20, 5)]
                   = Ok (Serializer.Tables [10; 20] [0; 1; 1] [1] [5] (sort []) 1))
    by reflexivity.
  rewrite Hbuild, (std_sort_nil sort Hsort). reflexivity.
Qed.

Lemma insertion_sort_contract : std_sort_contract insertion_sort.
Proof.
  assert (Hins_perm : forall x l, Permutation (insert_by_first x l) (x :: l)).
  { intros x l. induction l as [|y l IH]; cbn [insert_by_first]; [reflexivity|].
    destruct (x.1 <=? y.1); [reflexivity|].
    rewrite IH. apply perm_swap. }
  assert (Hins_hd : forall x l a, HdRel by_first a l -> by_first a x ->
                                  HdRel by_first a (insert_by_first x l)).
  { intros x l a Hl Hx. destruct l as [|y l]; cbn [insert_by_first].
    - now constructor.
    - destruct (x.1 <=? y.1); constructor; [assumption|now inversion Hl]. }
  assert (Hins_sorted : forall x l, Sorted by_first l -> Sorted by_first (insert_by_first x l)).
  { intros x l. induction 1 as [|y l Hs IH Hhd]; cbn [insert_by_first].
    - repeat constructor.
    - destruct (Z.leb_spec x.1 y.1).
      + constructor; [now constructor|now constructor].
      + constructor; [assumption|]. apply Hins_hd; [assumption|]. unfold by_first. lia. }
  intros l. unfold insertion_sort. induction l as [|x l [IHp IHs]]; cbn [foldr].
  - split; [reflexivity|constructor].
  - split; [rewrite Hins_perm; now constructor|now apply Hins_sorted].
Qed.

Lemma single_edge_scenario_witness :
  Serializer.run insertion_sort tsv_single_edge = Ok bin_single_edge
  /\ bin_single_edge
     = Serializer.header
       ++ BinWriter.varu 2 ++ BinWriter.varu 1
       ++ BinWriter.u32le 10 ++ BinWriter.varu 10
       ++ (BinWriter.varu 1 ++ BinWriter.varu 1 ++ BinWriter.put 5)
       ++ BinWriter.varu 0
       ++ BinWriter.varu 0
  /\ Deserializer.run bin_single_edge = Ok tsv_single_edge.
Proof. apply (single_edge_scenario insertion_sort). exact insertion_sort_contract. Defined.

(** C1, on the code: the valid one-line input [7<TAB>7<TAB>255<LF>] is
    serialized to the sixteen bytes of [bin_self_loop], which the
    deserializer refuses with "binary too small"; no text comes back, so
    the edge (7, 7, 255) of the input has no counterpart. *)
Theorem self_loop_not_read_back (sort : list (Z * Z) -> list (Z * Z)) :
  std_sort_contract sort ->
  TSVScanner.for_each_triplet tsv_self_loop = Ok [(7, 7, 255)]
  /\ Serializer.run sort tsv_self_loop = Ok bin_self_loop
  /\ Deserializer.run bin_self_loop = Fail (Die "binary too small").
Proof.
  intros Hsort. split; [reflexivity|]. split; [|reflexivity].
  unfold Serializer.run.
  change (TSVScanner.for_each_triplet tsv_self_loop) with (Ok [(7, 7, 255)]).
  cbn [bind].
  assert (Hbuild : Serializer.build sort [(7, 7, 255)]
                   = Ok (Serializer.Tables [7] [0; 0] [] [] (sort [(0, 255)]) 0))
    by reflexivity.
  rewrite Hbuild, (std_sort_singleton sort _ Hsort). reflexivity.
Qed.

Lemma self_loop_not_read_back_witness :
  TSVScanner.for_each_triplet tsv_self_loop = Ok [(7, 7, 255)]
  /\ Serializer.run insertion_sort tsv_self_loop = Ok bin_self_loop
  /\ Deserializer.run bin_self_loop = Fail (Die "binary too small").
Proof. apply (self_loop_not_read_back insertion_sort). exact insertion_sort_contract. Defined.

(** ** Fixed-width fields *)

Lemma testbit_low_byte (x n : Z) :
  0 <= n -> Z.testbit (Z.land x 255) n = Z.testbit x n && (n <? 8).
Proof.
  intros Hn. change 255 with (Z.ones 8). rewrite Z.land_spec.
  destruct (Z.ltb_spec n 8).
  - now rewrite Z.ones_spec_low by lia.
  - now rewrite Z.ones_spec_high by lia.
Qed.

Lemma testbit_byte_at (x k n : Z) :
  0 <= k -> 0 <= n ->
  Z.testbit (Z.shiftl (Z.land (Z.shiftr x k) 255) k) n
  = Z.testbit x n && (k <=? n) && (n <? k + 8).
Proof.
  intros Hk Hn. rewrite Z.shiftl_spec by lia.
  destruct (Z.leb_spec k n).
  - rewrite testbit_low_byte, Z.shiftr_spec by lia.
    replace (n - k + k) with n by lia.
    rewrite andb_true_r. f_equal.
    destruct (Z.ltb_spec (n - k) 8), (Z.ltb_spec n (k + 8)); try reflexivity; lia.
  - rewrite Z.testbit_neg_r by lia. now rewrite andb_false_r.
Qed.

Lemma byte_val_put_land (y : Z) : byte_val (u8 (Z.land y 255)) = Z.land y 255.
Proof.
  rewrite byte_val_u8, wrap8_land. rewrite <- Z.land_assoc. reflexivity.
Qed.

Lemma u32le_roundtrip (x : Z) (rest : list byte) :
  0 <= x < 2^32 ->
  BinReader.u32le (BinWriter.u32le x ++ rest) = Ok (x, rest).
Proof.
  intros Hx. unfold BinWriter.u32le, BinWriter.put. cbn [app BinReader.u32le].
  rewrite !byte_val_put_land. f_equal. f_equal.
  apply Z.bits_inj'. intros n Hn.
  rewrite !Z.lor_spec.
  rewrite <- (Z.shiftl_0_r (Z.land x 255)) at 1.
  rewrite <- (Z.shiftr_0_r x) at 1.
  rewrite !testbit_byte_at by lia.
  destruct (Z.ltb_spec n 32) as [Hlt|Hge].
  - destruct (Z.testbit x n); [|reflexivity]. cbn [andb].
    destruct (Z.leb_spec 0 n), (Z.ltb_spec n (0 + 8)), (Z.leb_spec 8 n),
      (Z.ltb_spec n (8 + 8)), (Z.leb_spec 16 n), (Z.ltb_spec n (16 + 8)),
      (Z.leb_spec 24 n), (Z.ltb_spec n (24 + 8)); try reflexivity; lia.
  - rewrite (Z.bits_above_log2 x n); [reflexivity|lia|].
    destruct (Z.eq_dec x 0) as [->|]; [simpl; lia|].
    apply Z.lt_le_trans with 32; [|assumption]. apply Z.log2_lt_pow2; lia.
Qed.

Lemma u64le_skips (m8 rest : list byte) :
  length m8 = 8%nat ->
  exists M, BinReader.u64le (m8 ++ rest) = Ok (M, rest).
Proof.
  intros Hlen. unfold BinReader.u64le, BinReader.has.
  rewrite length_app, Hlen. cbn [Nat.leb Nat.add].
  rewrite take_app_length' by (now symmetry).
  rewrite drop_app_length' by (now symmetry). eauto.
Qed.

Lemma length_u64le (M : Z) : length (BinWriter.u64le M) = 8%nat.
Proof. reflexivity. Qed.

Lemma length_u32le (x : Z) : length (BinWriter.u32le x) = 4%nat.
Proof. reflexivity. Qed.

(** ** The header *)

(** Past a good header of at least 18 bytes in all, the run is the reading
    of the counts and of the body. *)
Lemma run_after_header (version : Z) (p : list byte) :
  version = 1 \/ version = 2 ->
  (12 <= length p)%nat ->
  Deserializer.run (file_header version ++ p)
  = (let* (N, _, p') := Deserializer.read_counts version p in
     Deserializer.read_body version N p').
Proof.
  intros Hv Hlen. unfold Deserializer.run.
  assert (Hl : length (file_header version ++ p) = (6 + length p)%nat).
  { now rewrite length_app. }
  rewrite Hl. unfold BinReader.has. rewrite Hl.
  destruct (Nat.ltb_spec (6 + length p) (4 + 1 + 1 + 4 + 8)); [simpl in *; lia|].
  destruct (Nat.leb_spec 4 (6 + length p)); [|lia].
  destruct Hv as [-> | ->]; reflexivity.
Qed.

Lemma read_counts_v1 (n4 : list byte) :
  length n4 = 4%nat ->
  exists N, forall m8 rest : list byte,
    length m8 = 8%nat ->
    exists M, Deserializer.read_counts 1 (n4 ++ m8 ++ rest) = Ok (N, M, rest).
Proof.
  intros H4.
  destruct n4 as [|a [|b [|c [|d [|? ?]]]]]; try discriminate.
  eexists. intros m8 rest H8.
  destruct (u64le_skips m8 rest H8) as [M HM].
  exists M.
  unfold Deserializer.read_counts. cbn [Z.eqb Pos.eqb app BinReader.u32le bind].
  rewrite HM. reflexivity.
Qed.

Lemma read_counts_v2 (n M : Z) (rest : list byte) :
  0 <= n < 2^64 -> 0 <= M < 2^64 ->
  Deserializer.read_counts 2 (BinWriter.varu n ++ BinWriter.varu M ++ rest)
  = Ok (wrap32 n, M, rest).
Proof.
  intros Hn HM. unfold Deserializer.read_counts. cbn [Z.eqb Pos.eqb].
  rewrite (varu_read_written n _ Hn). cbn [bind].
  rewrite (varu_read_written M _ HM). reflexivity.
Qed.

(** ** [M_total] is read and dropped *)

(** In a version-1 file the eight bytes of [M_total] can be replaced by
    any other eight. *)
Lemma M_total_ignored_v1 (n4 m8 m8' rest : list byte) :
  length n4 = 4%nat -> length m8 = 8%nat -> length m8' = 8%nat ->
  Deserializer.run (file_header 1 ++ n4 ++ m8 ++ rest)
  = Deserializer.run (file_header 1 ++ n4 ++ m8' ++ rest).
Proof.
  intros H4 H8 H8'.
  rewrite !run_after_header; try (left; reflexivity);
    try (rewrite !length_app; lia).
  destruct (read_counts_v1 n4 H4) as (N & HN).
  destruct (HN m8 rest H8) as (M & ->).
  destruct (HN m8' rest H8') as (M' & ->).
  reflexivity.
Qed.

(** In a version-2 file the varint of [M_total] can be replaced by the
    varint of any other value, as long as both files pass the size check. *)
Lemma M_total_ignored_v2 (n M M' : Z) (rest : list byte) :
  0 <= n < 2^64 -> 0 <= M < 2^64 -> 0 <= M' < 2^64 ->
  (12 <= length (BinWriter.varu n ++ BinWriter.varu M ++ rest))%nat ->
  (12 <= length (BinWriter.varu n ++ BinWriter.varu M' ++ rest))%nat ->
  Deserializer.run (file_header 2 ++ BinWriter.varu n ++ BinWriter.varu M ++ rest)
  = Deserializer.run (file_header 2 ++ BinWriter.varu n ++ BinWriter.varu M' ++ rest).
Proof.
  intros Hn HM HM' Hl Hl'.
  rewrite !run_after_header by (auto; right; reflexivity).
  now rewrite !read_counts_v2 by assumption.
Qed.

(** C9, on the code: two version-2 files that differ in nothing but the
    value of [M_total] (1 in the first, 16384 in the second) are not read
    alike: the first has sixteen bytes and is refused with
    "binary too small", the second has eighteen and is read as
    [7<TAB>7<TAB>255<LF>]. *)
Theorem M_total_changes_outcome :
  let before := file_header 2 ++ BinWriter.varu 1 in
  let after := BinWriter.u32le 7 ++ sections_self_loop in
  Deserializer.run (before ++ BinWriter.varu 1 ++ after)
  = Fail (Die "binary too small")
  /\ Deserializer.run (before ++ BinWriter.varu 16384 ++ after)
     = Ok tsv_self_loop.
Proof. split; reflexivity. Qed.

(** ** The mapping in both versions *)

Lemma vget_Ok {A} (v : list A) (i : Z) (x : A) :
  vget v i = Ok x <-> v !! Z.to_nat i = Some x.
Proof.
  unfold vget. destruct (v !! Z.to_nat i); split; intros H; congruence.
Qed.

Lemma vget_middle {A} (pre : list A) (y : A) (post : list A) :
  vget (pre ++ y :: post) (Z.of_nat (length pre)) = Ok y.
Proof.
  apply vget_Ok. rewrite Nat2Z.id. now apply list_lookup_middle.
Qed.

Lemma wrap32_delta (x y : Z) :
  0 <= x < 2^32 -> wrap32 (y + wrap32 (wrap32 (x - y))) = x.
Proof.
  intros Hx. unfold wrap32. rewrite Z.mod_mod by lia.
  rewrite Zplus_mod_idemp_r. replace (y + (x - y)) with x by lia.
  apply Z.mod_small. lia.
Qed.

Lemma read_mapping_v1_flat (orig : list Z) (rest : list byte) :
  Forall (fun x => 0 <= x < 2^32) orig ->
  Deserializer.read_mapping_v1 (length orig) (flat_map BinWriter.u32le orig ++ rest)
  = Ok (orig, rest).
Proof.
  induction 1 as [|x orig Hx _ IH]; [reflexivity|].
  cbn [length flat_map Deserializer.read_mapping_v1].
  rewrite <- app_assoc, u32le_roundtrip by assumption. cbn [bind].
  now rewrite IH.
Qed.

Lemma read_deltas_emitted (rest : list byte) (xs : list Z) :
  forall (pre : list Z) (y : Z) (ds : list byte),
    Forall (fun x => 0 <= x < 2^32) xs ->
    Serializer.emit_deltas (length xs) (Z.of_nat (length pre) + 1) (pre ++ y :: xs) = Ok ds ->
    Deserializer.read_deltas (length xs) y (ds ++ rest) = Ok (xs, rest).
Proof.
  induction xs as [|x xs IH]; intros pre y ds Hall Hemit.
  - cbn in Hemit. injection Hemit as <-. reflexivity.
  - inversion Hall as [|? ? Hx Hall']; subst.
    cbn [length Serializer.emit_deltas] in Hemit.
    replace (Z.of_nat (length pre) + 1) with (Z.of_nat (length (pre ++ [y]))) in Hemit
      by (rewrite length_app; simpl; lia).
    replace (pre ++ y :: x :: xs) with ((pre ++ [y]) ++ x :: xs) in Hemit
      by (now rewrite <- app_assoc).
    rewrite vget_middle in Hemit. cbn [bind] in Hemit.
    replace (Z.of_nat (length (pre ++ [y])) - 1) with (Z.of_nat (length pre)) in Hemit
      by (rewrite length_app; simpl; lia).
    rewrite <- app_assoc in Hemit. cbn [app] in Hemit.
    rewrite vget_middle in Hemit. cbn [bind] in Hemit.
    replace (pre ++ y :: x :: xs) with ((pre ++ [y]) ++ x :: xs) in Hemit
      by (now rewrite <- app_assoc).
    replace (Z.of_nat (length pre) + 1 + 1) with (Z.of_nat (length (pre ++ [y])) + 1) in Hemit
      by (rewrite length_app; simpl; lia).
    destruct (Serializer.emit_deltas (length xs) _ _) as [ds'|] eqn:Hds'; [|discriminate].
    cbn [bind] in Hemit. injection Hemit as <-.
    cbn [length Deserializer.read_deltas].
    rewrite <- app_assoc.
    rewrite (varu_read_written (wrap32 (x - y)) _
                      ltac:(pose proof (wrap32_range (x - y)); lia)).
    cbn [bind]. rewrite wrap32_delta by assumption.
    now rewrite (IH (pre ++ [y]) x ds' Hall' Hds').
Qed.

Lemma read_mapping_v2_emitted (orig : list Z) (mapping rest : list byte) :
  Forall (fun x => 0 <= x < 2^32) orig ->
  Serializer.emit_mapping (Z.of_nat (length orig)) orig = Ok mapping ->
  Deserializer.read_mapping 2 (Z.of_nat (length orig)) (mapping ++ rest) = Ok (orig, rest).
Proof.
  intros Hall Hemit. unfold Serializer.emit_mapping in Hemit.
  unfold Deserializer.read_mapping. cbn [Z.eqb Pos.eqb].
  destruct orig as [|y xs].
  - cbn in Hemit. injection Hemit as <-. reflexivity.
  - inversion Hall as [|? ? Hy Hall']; subst.
    destruct (Z.ltb_spec 0 (Z.of_nat (length (y :: xs)))); [|simpl in *; lia].
    change (vget (y :: xs) 0) with (Ok y) in Hemit. cbn [bind] in Hemit.
    replace (Z.to_nat (Z.of_nat (length (y :: xs)) - 1)) with (length xs) in *
      by (simpl; lia).
    destruct (Serializer.emit_deltas (length xs) 1 (y :: xs)) as [ds|] eqn:Hds; [|discriminate].
    cbn [bind] in Hemit.
    assert (Hm : mapping = BinWriter.u32le y ++ ds) by (now injection Hemit).
    rewrite Hm, <- app_assoc, u32le_roundtrip by assumption. cbn [bind].
    now rewrite (read_deltas_emitted rest xs [] y ds Hall' Hds).
Qed.

(** ** Reading across versions *)

(** Whenever the version-2 file passes the size check, the version-1 file
    with the same counts, mapping and sections is read with the same
    outcome, whatever the sections hold. *)
Lemma cross_version_read (orig : list Z) (M : Z) (mapping sections : list byte) :
  Forall (fun x => 0 <= x < 2^32) orig ->
  Z.of_nat (length orig) < 2^32 ->
  0 <= M < 2^64 ->
  Serializer.emit_mapping (Z.of_nat (length orig)) orig = Ok mapping ->
  (18 <= length (binary_v2 orig M mapping sections))%nat ->
  Deserializer.run (binary_v1 orig M sections)
  = Deserializer.run (binary_v2 orig M mapping sections).
Proof.
  intros Hall HN HM Hemit Hlen.
  unfold binary_v1, binary_v2 in *.
  change Serializer.header with (file_header 2) in *.
  rewrite length_app in Hlen. change (length (file_header 2)) with 6%nat in Hlen.
  rewrite !run_after_header; try (auto; fail); try lia.
  - rewrite read_counts_v2 by lia.
    rewrite wrap32_small by lia. cbn [bind].
    unfold Deserializer.read_counts. cbn [Z.eqb Pos.eqb].
    rewrite u32le_roundtrip by lia. cbn [bind].
    destruct (u64le_skips (BinWriter.u64le M) (flat_map BinWriter.u32le orig ++ sections)
                (length_u64le M)) as [M' ->].
    cbn [bind]. unfold Deserializer.read_body.
    rewrite (read_mapping_v2_emitted orig mapping sections Hall Hemit).
    unfold Deserializer.read_mapping. cbn [Z.eqb Pos.eqb].
    rewrite Nat2Z.id, read_mapping_v1_flat by assumption.
    reflexivity.
  - rewrite !length_app, length_u32le, length_u64le. lia.
Qed.

(** The writer's files are version-2 files. *)
Lemma run_emits_version_2 sort (data out : list byte) :
  Serializer.run sort data = Ok out ->
  exists rest, out = file_header 2 ++ rest.
Proof.
  unfold Serializer.run. intros Hrun.
  destruct (TSVScanner.for_each_triplet data) as [ts|]; [|discriminate].
  cbn [bind] in Hrun. destruct ts as [|t ts].
  - injection Hrun as <-. eexists. reflexivity.
  - destruct (Serializer.build sort (t :: ts)) as [g|]; [|discriminate].
    cbn [bind] in Hrun. unfold Serializer.emit in Hrun.
    destruct (Serializer.emit_mapping _ _); [|discriminate].
    cbn [bind] in Hrun.
    destruct (Serializer.emit_adjacency _ _ _ _ _); [|discriminate].
    cbn [bind] in Hrun. injection Hrun as <-. eexists. reflexivity.
Qed.

(** C5, on the code: for the graph with the single self-loop (7, 7, 255)
    the hand-made version-1 file is read as [7<TAB>7<TAB>255<LF>], while
    the version-2 file of the same graph, which is the file the serializer
    writes, is refused with "binary too small". *)
Theorem cross_version_self_loop :
  Deserializer.run (binary_v1 [7] 1 sections_self_loop) = Ok tsv_self_loop
  /\ Serializer.emit_mapping 1 [7] = Ok (BinWriter.u32le 7)
  /\ binary_v2 [7] 1 (BinWriter.u32le 7) sections_self_loop = bin_self_loop
  /\ Serializer.run insertion_sort tsv_self_loop = Ok bin_self_loop
  /\ Deserializer.run bin_self_loop = Fail (Die "binary too small").
Proof. repeat split; reflexivity. Qed.

(** ** Indices in the deserializer *)

Lemma get_put (w : Z) (rest : list byte) :
  0 <= w < 256 -> BinReader.get (BinWriter.put w ++ rest) = Ok (w, rest).
Proof.
  intros Hw. unfold BinWriter.put. cbn [app BinReader.get].
  now rewrite byte_val_u8, wrap8_small.
Qed.

Lemma wrap32_raised (gap : Z) : wrap32 (gap + 2^32) = wrap32 gap.
Proof.
  unfold wrap32. rewrite <- (Z.mul_1_l (2^32)) at 1. apply Z_mod_plus_full.
Qed.

(** The first round of the adjacency loop on an entry [(gap, w)]: the
    entry is read and [orig_of] is indexed at [i] and at [j]. *)
Lemma read_neighbors_entry (orig_of : list Z) (deg : nat) (i prev gap w : Z)
    (rest : list byte) :
  0 <= gap < 2^64 -> 0 <= w < 256 ->
  Deserializer.read_neighbors (S deg) orig_of i prev (entry_bytes (gap, w) ++ rest)
  = (let j := wrap32 (prev + wrap32 gap) in
     let* oi := vget orig_of i in
     let* oj := vget orig_of j in
     let* (more, p3) := Deserializer.read_neighbors deg orig_of i j rest in
     Ok (TextWriter.line oi oj w ++ more, p3)).
Proof.
  intros Hgap Hw. cbn [Deserializer.read_neighbors]. unfold entry_bytes. cbn [fst snd].
  rewrite <- app_assoc, (varu_read_written gap _ Hgap). cbn [bind].
  rewrite get_put by assumption. reflexivity.
Qed.

Lemma read_loops_entry (orig_of : list Z) (L : nat) (acc delta w : Z) (rest : list byte) :
  0 <= delta < 2^64 -> 0 <= w < 256 ->
  Deserializer.read_loops (S L) orig_of acc (entry_bytes (delta, w) ++ rest)
  = (let v := wrap32 (acc + wrap32 delta) in
     let* ov := vget orig_of v in
     let* (more, p3) := Deserializer.read_loops L orig_of v rest in
     Ok (TextWriter.line ov ov w ++ more, p3)).
Proof.
  intros Hd Hw. cbn [Deserializer.read_loops]. unfold entry_bytes. cbn [fst snd].
  rewrite <- app_assoc, (varu_read_written delta _ Hd). cbn [bind].
  rewrite get_put by assumption. reflexivity.
Qed.

Lemma vget_outside {A} (v : list A) (i : Z) :
  (length v <= Z.to_nat i)%nat -> vget v i = Fail Undefined.
Proof.
  intros Hi. unfold vget. destruct (v !! Z.to_nat i) as [x|] eqn:E; [|reflexivity].
  apply lookup_lt_Some in E. lia.
Qed.

(** C2, on the code: the deserializer compares no index with [N] and
    detects no overflow.  An adjacency entry whose index
    [j = prev + gap], taken modulo [2^32] as the code computes it, is not
    below the size of [orig_of] makes the run read [orig_of] outside its
    bounds, and so does a loops entry whose vertex [v = acc + delta] is
    not below it: the run has no defined behaviour there, where the
    specification asks for the failures CorruptAdjacency and CorruptLoops.
    A gap or a delta raised by [2^32] is read exactly as the one that is
    not raised, so an overflow of [prev + gap] or [acc + delta] beyond
    [u32::MAX] is not detected either.  The four files are instances: an
    index outside the mapping in either section, and an overflow in either
    section that ends in a line written. *)
Theorem corrupt_index_not_diagnosed :
  (forall (orig_of : list Z) (deg : nat) (i prev gap w : Z) (rest : list byte),
      0 <= gap < 2^64 -> 0 <= w < 256 ->
      (length orig_of <= Z.to_nat (wrap32 (prev + wrap32 gap)))%nat ->
      Deserializer.read_neighbors (S deg) orig_of i prev (entry_bytes (gap, w) ++ rest)
      = Fail Undefined)
  /\ (forall (orig_of : list Z) (L : nat) (acc delta w : Z) (rest : list byte),
         0 <= delta < 2^64 -> 0 <= w < 256 ->
         (length orig_of <= Z.to_nat (wrap32 (acc + wrap32 delta)))%nat ->
         Deserializer.read_loops (S L) orig_of acc (entry_bytes (delta, w) ++ rest)
         = Fail Undefined)
  /\ (forall (orig_of : list Z) (deg : nat) (i prev gap w : Z) (rest : list byte),
         0 <= gap -> gap + 2^32 < 2^64 -> 0 <= w < 256 ->
         Deserializer.read_neighbors (S deg) orig_of i prev
           (entry_bytes (gap + 2^32, w) ++ rest)
         = Deserializer.read_neighbors (S deg) orig_of i prev (entry_bytes (gap, w) ++ rest))
  /\ (forall (orig_of : list Z) (L : nat) (acc delta w : Z) (rest : list byte),
         0 <= delta -> delta + 2^32 < 2^64 -> 0 <= w < 256 ->
         Deserializer.read_loops (S L) orig_of acc (entry_bytes (delta + 2^32, w) ++ rest)
         = Deserializer.read_loops (S L) orig_of acc (entry_bytes (delta, w) ++ rest))
  /\ Deserializer.run bin_gap_outside = Fail Undefined
  /\ Deserializer.run bin_loop_outside = Fail Undefined
  /\ Deserializer.run bin_gap_overflow = Ok tsv_single_edge
  /\ Deserializer.run bin_loop_overflow = Ok tsv_self_loop.
Proof.
  split; [|split; [|split; [|split]]].
  - intros orig_of deg i prev gap w rest Hgap Hw Hout.
    rewrite read_neighbors_entry by assumption. cbv zeta.
    rewrite (vget_outside orig_of (wrap32 (prev + wrap32 gap)) Hout).
    unfold vget at 1. now destruct (orig_of !! Z.to_nat i).
  - intros orig_of L acc delta w rest Hd Hw Hout.
    rewrite read_loops_entry by assumption. cbv zeta.
    now rewrite (vget_outside orig_of (wrap32 (acc + wrap32 delta)) Hout).
  - intros orig_of deg i prev gap w rest Hgap Hgap' Hw.
    rewrite !read_neighbors_entry by lia. now rewrite wrap32_raised.
  - intros orig_of L acc delta w rest Hd Hd' Hw.
    rewrite !read_loops_entry by lia. now rewrite wrap32_raised.
  - repeat split; reflexivity.
Qed.

Lemma corrupt_index_not_diagnosed_witness :
  Deserializer.read_neighbors 1 [10; 20] 0 0 (entry_bytes (5, 5) ++ [x00; x00])
  = Fail Undefined
  /\ Deserializer.read_loops 1 [10; 20] 0 (entry_bytes (2, 255) ++ []) = Fail Undefined
  /\ Deserializer.read_neighbors 1 [10; 20] 0 0 (entry_bytes (1 + 2^32, 5) ++ [x00; x00])
     = Deserializer.read_neighbors 1 [10; 20] 0 0 (entry_bytes (1, 5) ++ [x00; x00])
  /\ Deserializer.read_loops 1 [7] 0 (entry_bytes (0 + 2^32, 255) ++ [])
     = Deserializer.read_loops 1 [7] 0 (entry_bytes (0, 255) ++ []).
Proof.
  destruct corrupt_index_not_diagnosed as (Hadj & Hloops & Hgap & Hdelta & _).
  split; [|split; [|split]].
  - apply (Hadj [10; 20] 0%nat 0 0 5 5 [x00; x00]); [lia|lia|vm_compute; lia].
  - apply (Hloops [10; 20] 0%nat 0 2 255 []); [lia|lia|vm_compute; lia].
  - apply (Hgap [10; 20] 0%nat 0 0 1 5 [x00; x00]); lia.
  - apply (Hdelta [7] 0%nat 0 0 255 []); lia.
Defined.

(** ** The three passes of the serializer *)

Lemma bind_Ok {A B} (m : outcome A) (k : A -> outcome B) (b : B) :
  bind m k = Ok b -> exists a, m = Ok a /\ k a = Ok b.
Proof. destruct m as [a|f]; cbn [bind]; [eauto|discriminate]. Qed.

Lemma cidx_range uniq a : 0 <= cidx uniq a < 2^32.
Proof. apply wrap32_range. Qed.

Lemma lo_nonneg uniq t : 0 <= lo uniq t.
Proof.
  unfold lo. pose proof (cidx_range uniq t.1.1). pose proof (cidx_range uniq t.1.2). lia.
Qed.

Lemma idx_of_cidx uniq a ia :
  Serializer.idx_of uniq a = Ok ia -> ia = cidx uniq a.
Proof.
  unfold Serializer.idx_of, cidx. intros H.
  destruct (uniq !! Serializer.lower_bound uniq a) as [y|]; [|discriminate].
  destruct (y =? a); [|discriminate]. now injection H.
Qed.

Lemma vset_Ok {A} (v v' : list A) (i : Z) (x : A) :
  vset v i x = Ok v' -> (Z.to_nat i < length v)%nat /\ v' = <[Z.to_nat i := x]> v.
Proof.
  unfold vset. destruct (Nat.ltb_spec (Z.to_nat i) (length v)) as [Hlt|]; [|discriminate].
  intros Heq. now injection Heq.
Qed.

Lemma wrap32_add_l x y : wrap32 (wrap32 x + y) = wrap32 (x + y).
Proof. unfold wrap32. apply Zplus_mod_idemp_l. Qed.

Lemma wrap64_add_l x y : wrap64 (wrap64 x + y) = wrap64 (x + y).
Proof. unfold wrap64. apply Zplus_mod_idemp_l. Qed.

(** One call of the callback of pass 2. *)
Lemma count_edge_Ok uniq deg m l t st :
  Serializer.count_edge uniq (deg, m, l) t = Ok st ->
  if is_loop uniq t then st = (deg, m, wrap64 (l + 1))
  else exists d,
      deg !! Z.to_nat (lo uniq t) = Some d
      /\ st = (<[Z.to_nat (lo uniq t) := wrap32 (d + 1)]> deg, wrap64 (m + 1), l).
Proof.
  destruct t as [[a b] w]. unfold Serializer.count_edge, is_loop, lo. cbn [fst snd].
  intros H.
  apply bind_Ok in H as (ia & Hia & H1). apply idx_of_cidx in Hia as ->.
  apply bind_Ok in H1 as (ib & Hib & H2). apply idx_of_cidx in Hib as ->.
  destruct (cidx uniq a =? cidx uniq b); [now injection H2|].
  apply bind_Ok in H2 as (d & Hd & H3). apply vget_Ok in Hd.
  apply bind_Ok in H3 as (deg' & Hset & H4). apply vset_Ok in Hset as [_ ->].
  exists d. split; [assumption|now injection H4].
Qed.

Lemma count_upper_cons uniq u t ts :
  count_upper uniq u (t :: ts)
  = (if is_upper uniq u t then 1 else 0) + count_upper uniq u ts.
Proof.
  unfold count_upper. cbn [List.filter]. destruct (is_upper uniq u t); cbn [length]; lia.
Qed.

Lemma count_below_cons uniq k t ts :
  count_below uniq k (t :: ts)
  = (if is_below uniq k t then 1 else 0) + count_below uniq k ts.
Proof.
  unfold count_below. cbn [List.filter]. destruct (is_below uniq k t); cbn [length]; lia.
Qed.

(** Pass 2 leaves in [deg_plus[u]] the number of triplets of vertex [u],
    modulo [2^32]. *)
Lemma count_pass uniq ts :
  forall deg m l deg' m' l',
    Serializer.for_each (Serializer.count_edge uniq) (deg, m, l) ts = Ok (deg', m', l') ->
    length deg' = length deg
    /\ forall (u : nat) (x : Z),
        deg !! u = Some x -> 0 <= x < 2^32 ->
        deg' !! u = Some (wrap32 (x + count_upper uniq (Z.of_nat u) ts)).
Proof.
  induction ts as [|t ts IH]; intros deg m l deg' m' l' H.
  - cbn in H. injection H as <- <- <-. split; [reflexivity|].
    intros u x Hx Hr. unfold count_upper. cbn [List.filter length Z.of_nat].
    now rewrite Z.add_0_r, wrap32_small.
  - cbn [Serializer.for_each] in H.
    apply bind_Ok in H as ([[deg1 m1] l1] & Hstep & H1).
    apply count_edge_Ok in Hstep. apply IH in H1 as [Hlen Hdeg].
    pose proof (lo_nonneg uniq t) as Hlo.
    destruct (is_loop uniq t) eqn:Hloop.
    + injection Hstep as -> -> ->. split; [assumption|].
      intros u x Hx Hr. rewrite (Hdeg u x Hx Hr), count_upper_cons.
      unfold is_upper. now rewrite Hloop.
    + destruct Hstep as (d & Hd & Hst). injection Hst as -> -> ->.
      rewrite length_insert in Hlen. split; [assumption|].
      intros u x Hx Hr. rewrite count_upper_cons. unfold is_upper. rewrite Hloop. cbn [negb andb].
      destruct (Nat.eq_dec (Z.to_nat (lo uniq t)) u) as [<-|Hne].
      * rewrite Z2Nat.id, Z.eqb_refl by assumption.
        assert (x = d) by congruence. subst x.
        rewrite (Hdeg (Z.to_nat (lo uniq t)) (wrap32 (d + 1))).
        -- f_equal. rewrite Z2Nat.id by assumption. rewrite wrap32_add_l. f_equal. lia.
        -- apply list_lookup_insert_eq. now apply lookup_lt_Some in Hd.
        -- apply wrap32_range.
      * destruct (Z.eqb_spec (lo uniq t) (Z.of_nat u)) as [Heq|_]; [lia|].
        rewrite (Hdeg u x); [reflexivity| |assumption]. now rewrite list_lookup_insert_ne.
Qed.
Lemma count_upper_range uniq u ts :
  0 <= count_upper uniq u ts <= Z.of_nat (length ts).
Proof.
  unfold count_upper. pose proof (filter_length_le (is_upper uniq u) ts). lia.
Qed.

Lemma count_below_range uniq k ts :
  0 <= count_below uniq k ts <= Z.of_nat (length ts).
Proof.
  unfold count_below. pose proof (filter_length_le (is_below uniq k) ts). lia.
Qed.

Lemma count_below_succ uniq k ts :
  count_below uniq (k + 1) ts = count_below uniq k ts + count_upper uniq k ts.
Proof.
  induction ts as [|t ts IH]; [reflexivity|].
  rewrite !count_below_cons, count_upper_cons, IH.
  unfold is_below, is_upper. destruct (is_loop uniq t); cbn [negb andb]; [lia|].
  destruct (Z.ltb_spec (lo uniq t) (k + 1)), (Z.ltb_spec (lo uniq t) k),
    (Z.eqb_spec (lo uniq t) k); lia.
Qed.

Lemma count_below_0 uniq ts : count_below uniq 0 ts = 0.
Proof.
  induction ts as [|t ts IH]; [reflexivity|].
  rewrite count_below_cons, IH. unfold is_below.
  pose proof (lo_nonneg uniq t).
  destruct (Z.ltb_spec (lo uniq t) 0); [lia|]. now rewrite andb_false_r.
Qed.

Lemma count_below_mono uniq k k' ts :
  k <= k' -> count_below uniq k ts <= count_below uniq k' ts.
Proof.
  intros Hk. induction ts as [|t ts IH]; [reflexivity|].
  rewrite !count_below_cons. unfold is_below.
  destruct (is_loop uniq t); cbn [negb andb]; [lia|].
  destruct (Z.ltb_spec (lo uniq t) k), (Z.ltb_spec (lo uniq t) k'); lia.
Qed.

Lemma count_upper_app uniq u ts1 ts2 :
  count_upper uniq u (ts1 ++ ts2) = count_upper uniq u ts1 + count_upper uniq u ts2.
Proof. unfold count_upper. rewrite List.filter_app, length_app. lia. Qed.

(** The prefix sums: [off[j]] is the number of triplets of the vertices
    before [j]. *)
Lemma prefix_sums_Ok uniq ts deg :
  (forall (u : nat) (d : Z), deg !! u = Some d -> d = count_upper uniq (Z.of_nat u) ts) ->
  Z.of_nat (length ts) < 2^64 ->
  forall (n k : nat) (off0 off : list Z),
    Serializer.prefix_sums n (Z.of_nat k) deg off0 = Ok off ->
    (forall j : nat, (j <= k)%nat -> off0 !! j = Some (count_below uniq (Z.of_nat j) ts)) ->
    length off = length off0
    /\ (forall j : nat, (j <= k + n)%nat -> off !! j = Some (count_below uniq (Z.of_nat j) ts)).
Proof.
  intros Hdeg Hbound. induction n as [|n IH]; intros k off0 off H Hinv.
  - cbn in H. injection H as <-. split; [reflexivity|].
    intros j Hj. apply Hinv. lia.
  - cbn [Serializer.prefix_sums] in H.
    apply bind_Ok in H as (o & Ho & H1). apply vget_Ok in Ho. rewrite Nat2Z.id in Ho.
    apply bind_Ok in H1 as (d & Hd & H2). apply vget_Ok in Hd. rewrite Nat2Z.id in Hd.
    apply bind_Ok in H2 as (off1 & Hset & H3). apply vset_Ok in Hset as [Hlt ->].
    replace (Z.to_nat (Z.of_nat k + 1)) with (S k) in * by lia.
    replace (Z.of_nat k + 1) with (Z.of_nat (S k)) in H3 by lia.
    apply IH in H3 as [Hlen Hoff].
    + rewrite length_insert in Hlen. split; [assumption|].
      intros j Hj. apply Hoff. lia.
    + intros j Hj. destruct (Nat.eq_dec j (S k)) as [->|Hne].
      * rewrite list_lookup_insert_eq by assumption. f_equal.
        rewrite (Hinv k) in Ho by lia. injection Ho as <-.
        apply Hdeg in Hd as ->.
        replace (Z.of_nat (S k)) with (Z.of_nat k + 1) by lia.
        rewrite count_below_succ. apply wrap64_small.
        pose proof (count_below_range uniq (Z.of_nat k + 1) ts).
        rewrite count_below_succ in *. lia.
      * rewrite list_lookup_insert_ne by lia. apply Hinv. lia.
Qed.
(** One call of the callback of pass 3. *)
Lemma fill_edge_Ok uniq cur nei wts loops t st :
  Serializer.fill_edge uniq (cur, nei, wts, loops) t = Ok st ->
  if is_loop uniq t then st = (cur, nei, wts, loops ++ [(cidx uniq t.1.1, t.2)])
  else exists pos,
      cur !! Z.to_nat (lo uniq t) = Some pos
      /\ (Z.to_nat pos < length nei)%nat /\ (Z.to_nat pos < length wts)%nat
      /\ st = (<[Z.to_nat (lo uniq t) := wrap64 (pos + 1)]> cur,
               <[Z.to_nat pos := hi uniq t]> nei,
               <[Z.to_nat pos := t.2]> wts, loops).
Proof.
  destruct t as [[a b] w]. unfold Serializer.fill_edge, is_loop, lo, hi. cbn [fst snd].
  intros H.
  apply bind_Ok in H as (ia & Hia & H1). apply idx_of_cidx in Hia as ->.
  apply bind_Ok in H1 as (ib & Hib & H2). apply idx_of_cidx in Hib as ->.
  destruct (cidx uniq a =? cidx uniq b); [now injection H2|].
  apply bind_Ok in H2 as (pos & Hpos & H3). apply vget_Ok in Hpos.
  apply bind_Ok in H3 as (cur' & Hcur & H4). apply vset_Ok in Hcur as [_ ->].
  apply bind_Ok in H4 as (nei' & Hnei & H5). apply vset_Ok in Hnei as [Hn ->].
  apply bind_Ok in H5 as (wts' & Hwts & H6). apply vset_Ok in Hwts as [Hw ->].
  exists pos. repeat split; try assumption. now injection H6.
Qed.

Lemma upper_of_snoc uniq u ts t :
  upper_of uniq u (ts ++ [t])
  = upper_of uniq u ts ++ (if is_upper uniq u t then [(hi uniq t, t.2)] else []).
Proof.
  unfold upper_of. rewrite List.filter_app, map_app. cbn [List.filter].
  now destruct (is_upper uniq u t).
Qed.

Lemma loops_of_snoc uniq ts t :
  loops_of uniq (ts ++ [t])
  = loops_of uniq ts ++ (if is_loop uniq t then [(cidx uniq t.1.1, t.2)] else []).
Proof.
  unfold loops_of. rewrite List.filter_app, map_app. cbn [List.filter].
  now destruct (is_loop uniq t).
Qed.

Lemma count_upper_snoc uniq u ts t :
  count_upper uniq u (ts ++ [t])
  = count_upper uniq u ts + (if is_upper uniq u t then 1 else 0).
Proof.
  rewrite count_upper_app, count_upper_cons.
  change (count_upper uniq u []) with 0. lia.
Qed.

Lemma length_upper_of uniq u ts :
  Z.of_nat (length (upper_of uniq u ts)) = count_upper uniq u ts.
Proof. unfold upper_of, count_upper. now rewrite length_map. Qed.

(** Where the entries of the vertices lie: the range of [u] ends where the
    range of [u + 1] starts. *)
Lemma ranges_apart uniq ts u u' k k' :
  u < u' ->
  k < count_upper uniq u ts -> 0 <= k' ->
  count_below uniq u ts + k < count_below uniq u' ts + k'.
Proof.
  intros Hu Hk Hk'.
  pose proof (count_below_mono uniq (u + 1) u' ts ltac:(lia)) as Hm.
  rewrite count_below_succ in Hm. lia.
Qed.

(** Pass 3 puts the entries of every vertex into its range, in the order
    of the input, and the loops into [loops]. *)
Lemma fill_pass uniq ts off :
  (forall (j : nat) (o : Z), off !! j = Some o -> o = count_below uniq (Z.of_nat j) ts) ->
  Z.of_nat (length ts) < 2^64 ->
  forall ts2 ts1 cur nei wts loops cur' nei' wts' loops',
    ts = ts1 ++ ts2 ->
    Serializer.for_each (Serializer.fill_edge uniq) (cur, nei, wts, loops) ts2
    = Ok (cur', nei', wts', loops') ->
    length cur = length off ->
    (forall (u : nat) (o : Z), off !! u = Some o ->
       cur !! u = Some (o + count_upper uniq (Z.of_nat u) ts1)) ->
    (forall (u k : nat) (o : Z) (e : Z * Z),
       off !! u = Some o -> upper_of uniq (Z.of_nat u) ts1 !! k = Some e ->
       nei !! Z.to_nat (o + Z.of_nat k) = Some e.1
       /\ wts !! Z.to_nat (o + Z.of_nat k) = Some e.2) ->
    loops = loops_of uniq ts1 ->
    length nei' = length nei /\ length wts' = length wts
    /\ (forall (u k : nat) (o : Z) (e : Z * Z),
          off !! u = Some o -> upper_of uniq (Z.of_nat u) ts !! k = Some e ->
          nei' !! Z.to_nat (o + Z.of_nat k) = Some e.1
          /\ wts' !! Z.to_nat (o + Z.of_nat k) = Some e.2)
    /\ loops' = loops_of uniq ts.
Proof.
  intros Hoff Hbound.
  induction ts2 as [|t ts2 IH];
    intros ts1 cur nei wts loops cur' nei' wts' loops' Hts H Hlen Hcur Hcont Hloops.
  - cbn in H. injection H as <- <- <- <-. rewrite app_nil_r in Hts. subst ts1.
    repeat split; try reflexivity; try assumption; now apply (Hcont u k o e).
  - cbn [Serializer.for_each] in H.
    apply bind_Ok in H as ([[[cur1 nei1] wts1] loops1] & Hstep & H1).
    apply fill_edge_Ok in Hstep.
    assert (Hts' : ts = (ts1 ++ [t]) ++ ts2) by (now rewrite <- app_assoc).
    pose proof (lo_nonneg uniq t) as Hlo.
    destruct (is_loop uniq t) eqn:Hloop.
    + injection Hstep as -> -> -> ->.
      apply (IH (ts1 ++ [t])) in H1; try assumption.
      * intros u o Ho. rewrite count_upper_snoc, (Hcur u o Ho). f_equal.
        unfold is_upper. rewrite Hloop. cbn [negb andb]. lia.
      * intros u k o e Ho He. rewrite upper_of_snoc in He.
        unfold is_upper in He. rewrite Hloop in He. cbn [negb andb] in He.
        rewrite app_nil_r in He. now apply (Hcont u k o e).
      * rewrite loops_of_snoc, Hloop, Hloops. reflexivity.
    + destruct Hstep as (pos & Hpos & Hn & Hw & Hst). injection Hst as -> -> -> ->.
      set (u0 := Z.to_nat (lo uniq t)) in *.
      assert (Hu0 : Z.of_nat u0 = lo uniq t) by (unfold u0; lia).
      assert (Hup0 : is_upper uniq (Z.of_nat u0) t = true).
      { unfold is_upper. now rewrite Hloop, Hu0, Z.eqb_refl. }
      destruct (off !! u0) as [o0|] eqn:Ho0.
      2:{ apply lookup_ge_None in Ho0. apply lookup_lt_Some in Hpos. lia. }
      pose proof (Hoff _ _ Ho0) as Ho0v.
      pose proof (Hcur _ _ Ho0) as Hpos'. rewrite Hpos in Hpos'. injection Hpos' as Hposv.
      assert (Hcnt : count_upper uniq (Z.of_nat u0) ts1 + 1 <= count_upper uniq (Z.of_nat u0) ts).
      { rewrite Hts, count_upper_app, count_upper_cons, Hup0.
        pose proof (count_upper_range uniq (Z.of_nat u0) ts2). lia. }
      pose proof (count_upper_range uniq (Z.of_nat u0) ts1) as Hc1.
      pose proof (count_below_range uniq (Z.of_nat u0 + 1) ts) as Hb1.
      rewrite count_below_succ in Hb1.
      pose proof (count_below_range uniq (Z.of_nat u0) ts) as Hb0.
      apply (IH (ts1 ++ [t])) in H1; try assumption.
      * rewrite !length_insert in H1. exact H1.
      * now rewrite length_insert.
      * intros u o Ho. rewrite count_upper_snoc.
        destruct (Nat.eq_dec u0 u) as [<-|Hne].
        -- rewrite Hup0. rewrite list_lookup_insert_eq by (now apply lookup_lt_Some in Hpos).
           assert (o = o0) by congruence. subst o.
           f_equal. rewrite wrap64_small by lia. lia.
        -- rewrite list_lookup_insert_ne by assumption. rewrite (Hcur u o Ho). f_equal.
           unfold is_upper. rewrite Hloop. cbn [negb andb].
           destruct (Z.eqb_spec (lo uniq t) (Z.of_nat u)); lia.
      * intros u k o e Ho He. rewrite upper_of_snoc in He.
        pose proof (Hoff _ _ Ho) as Hov.
        pose proof (count_below_range uniq (Z.of_nat u) ts) as Hbu.
        apply lookup_app_Some in He as [He|[Hk He]].
        -- (* an entry written before: its place is not [pos] *)
           apply lookup_lt_Some in He as Hklt.
           pose proof (length_upper_of uniq (Z.of_nat u) ts1) as Hl1.
           assert (Hsub : count_upper uniq (Z.of_nat u) ts1 <= count_upper uniq (Z.of_nat u) ts).
           { rewrite Hts, count_upper_app.
             pose proof (count_upper_range uniq (Z.of_nat u) (t :: ts2)). lia. }
           assert (Hne : Z.to_nat pos <> Z.to_nat (o + Z.of_nat k)).
           { destruct (Nat.lt_total u u0) as [Hlt|[->|Hgt]].
             - pose proof (ranges_apart uniq ts (Z.of_nat u) (Z.of_nat u0) (Z.of_nat k)
                             (count_upper uniq (Z.of_nat u0) ts1)). lia.
             - assert (o = o0) by congruence. lia.
             - pose proof (ranges_apart uniq ts (Z.of_nat u0) (Z.of_nat u)
                             (count_upper uniq (Z.of_nat u0) ts1) (Z.of_nat k)). lia. }
           rewrite !list_lookup_insert_ne by assumption.
           now apply (Hcont u k o e).
        -- (* the entry written now *)
           destruct (is_upper uniq (Z.of_nat u) t) eqn:Hup; [|now destruct (k - _)%nat].
           assert (u = u0).
           { unfold is_upper in Hup. rewrite Hloop in Hup. cbn [negb andb] in Hup.
             apply Z.eqb_eq in Hup. lia. }
           subst u. assert (o = o0) by congruence. subst o.
           pose proof (length_upper_of uniq (Z.of_nat u0) ts1) as Hl1.
           destruct (k - length (upper_of uniq (Z.of_nat u0) ts1))%nat as [|?] eqn:Hk0;
             [|now destruct n].
           cbn in He. injection He as <-. cbn [fst snd].
           match goal with
           | |- context [Z.to_nat (?a + Z.of_nat k)] =>
               replace (Z.to_nat (a + Z.of_nat k)) with (Z.to_nat pos) by lia
           end.
           now rewrite !list_lookup_insert_eq by assumption.
      * rewrite loops_of_snoc, Hloop, app_nil_r. assumption.
Qed.
(** ** Ranges of a vector *)

Lemma lookup_slice {A} (l : list A) (b n k : nat) :
  slice l b n !! k = if decide (k < n)%nat then l !! (b + k)%nat else None.
Proof. unfold slice. rewrite lookup_take. case_decide; [apply lookup_drop|reflexivity]. Qed.

Lemma length_slice {A} (l : list A) (b n : nat) :
  (b + n <= length l)%nat -> length (slice l b n) = n.
Proof. intros H. unfold slice. rewrite length_take, length_drop. lia. Qed.

Lemma slice_ext {A} (l l' : list A) (b n : nat) :
  (forall k, (k < n)%nat -> l' !! (b + k)%nat = l !! (b + k)%nat) ->
  slice l' b n = slice l b n.
Proof.
  intros H. apply list_eq. intros k. rewrite !lookup_slice.
  case_decide; [now apply H|reflexivity].
Qed.

Lemma vslice_Ok {A} (v xs : list A) (b len : Z) :
  vslice v b len = Ok xs -> xs = slice v (Z.to_nat b) (Z.to_nat len).
Proof.
  unfold vslice, slice.
  destruct (Nat.eqb_spec (Z.to_nat len) 0) as [->|_].
  - intros Heq. now injection Heq as <-.
  - destruct (Z.to_nat b + Z.to_nat len <=? length v)%nat; [|discriminate].
    intros Heq. now injection Heq.
Qed.

Lemma vslice_inside {A} (v : list A) (b len : Z) :
  (Z.to_nat b + Z.to_nat len <= length v)%nat ->
  vslice v b len = Ok (slice v (Z.to_nat b) (Z.to_nat len)).
Proof.
  intros Hfit. unfold vslice, slice.
  destruct (Nat.eqb_spec (Z.to_nat len) 0) as [->|_]; [reflexivity|].
  destruct (Nat.leb_spec (Z.to_nat b + Z.to_nat len) (length v)); [reflexivity|lia].
Qed.

Lemma vwrite_Ok {A} (v v' xs : list A) (b : Z) :
  vwrite v b xs = Ok v' ->
  (Z.to_nat b + length xs <= length v)%nat
  /\ v' = take (Z.to_nat b) v ++ xs ++ drop (Z.to_nat b + length xs) v.
Proof.
  unfold vwrite.
  destruct (Nat.leb_spec (Z.to_nat b + length xs) (length v)) as [Hle|]; [|discriminate].
  intros Heq. now injection Heq.
Qed.

Lemma length_splice {A} (l xs : list A) (b : nat) :
  (b + length xs <= length l)%nat ->
  length (take b l ++ xs ++ drop (b + length xs) l) = length l.
Proof. intros Hfit. rewrite !length_app, length_take, length_drop. lia. Qed.

Lemma lookup_splice_before {A} (l xs : list A) (b p : nat) :
  (b + length xs <= length l)%nat -> (p < b)%nat ->
  (take b l ++ xs ++ drop (b + length xs) l) !! p = l !! p.
Proof.
  intros Hfit Hp. rewrite lookup_app_l by (rewrite length_take; lia).
  now apply lookup_take_lt.
Qed.

Lemma lookup_splice_inside {A} (l xs : list A) (b k : nat) :
  (b + length xs <= length l)%nat -> (k < length xs)%nat ->
  (take b l ++ xs ++ drop (b + length xs) l) !! (b + k)%nat = xs !! k.
Proof.
  intros Hfit Hk. rewrite lookup_app_r by (rewrite length_take; lia).
  rewrite length_take. replace (b + k - b `min` length l)%nat with k by lia.
  now apply lookup_app_l.
Qed.

Lemma lookup_splice_after {A} (l xs : list A) (b p : nat) :
  (b + length xs <= length l)%nat -> (b + length xs <= p)%nat ->
  (take b l ++ xs ++ drop (b + length xs) l) !! p = l !! p.
Proof.
  intros Hfit Hp. rewrite lookup_app_r by (rewrite length_take; lia).
  rewrite length_take. rewrite lookup_app_r by lia.
  rewrite lookup_drop. f_equal. lia.
Qed.

Lemma slice_splice_inside {A} (l xs : list A) (b : nat) :
  (b + length xs <= length l)%nat ->
  slice (take b l ++ xs ++ drop (b + length xs) l) b (length xs) = xs.
Proof.
  intros Hfit. apply list_eq. intros k. rewrite lookup_slice. case_decide.
  - now apply lookup_splice_inside.
  - symmetry. apply lookup_ge_None. lia.
Qed.

Lemma slice_splice_before {A} (l xs : list A) (b x n : nat) :
  (b + length xs <= length l)%nat -> (x + n <= b)%nat ->
  slice (take b l ++ xs ++ drop (b + length xs) l) x n = slice l x n.
Proof.
  intros Hfit H. apply slice_ext. intros k Hk. apply lookup_splice_before; lia.
Qed.

Lemma slice_splice_after {A} (l xs : list A) (b x n : nat) :
  (b + length xs <= length l)%nat -> (b + length xs <= x)%nat ->
  slice (take b l ++ xs ++ drop (b + length xs) l) x n = slice l x n.
Proof.
  intros Hfit H. apply slice_ext. intros k Hk. apply lookup_splice_after; lia.
Qed.

Lemma zip_map_fst_snd {A B} (l : list (A * B)) : zip (map fst l) (map snd l) = l.
Proof. induction l as [|[a b] l IH]; cbn; [reflexivity|now rewrite IH]. Qed.

Lemma map_fst_zip {A B} (l : list A) (k : list B) :
  length l = length k -> map fst (zip l k) = l.
Proof.
  revert k. induction l as [|a l IH]; intros [|b k] H; try discriminate; [reflexivity|].
  cbn. f_equal. apply IH. now injection H.
Qed.

Lemma length_zip_same {A B} (l : list A) (k : list B) :
  length l = length k -> length (zip l k) = length l.
Proof.
  revert k. induction l as [|a l IH]; intros [|b k] H; try discriminate; [reflexivity|].
  cbn. f_equal. apply IH. now injection H.
Qed.
(** ** The per-vertex sort *)

Lemma range_entries_same uniq ts nei wts nei' wts' u :
  slice nei' (Z.to_nat (count_below uniq u ts)) (Z.to_nat (count_upper uniq u ts))
  = slice nei (Z.to_nat (count_below uniq u ts)) (Z.to_nat (count_upper uniq u ts)) ->
  slice wts' (Z.to_nat (count_below uniq u ts)) (Z.to_nat (count_upper uniq u ts))
  = slice wts (Z.to_nat (count_below uniq u ts)) (Z.to_nat (count_upper uniq u ts)) ->
  range_entries uniq ts nei' wts' u = range_entries uniq ts nei wts u.
Proof. intros H1 H2. unfold range_entries. cbv zeta. now rewrite H1, H2. Qed.

Lemma Sorted_short {A} (R : A -> A -> Prop) (l : list A) :
  (length l <= 1)%nat -> Sorted R l.
Proof.
  destruct l as [|x [|y l]]; cbn; intros H; [constructor|repeat constructor|lia].
Qed.

Lemma sort_pass sort uniq ts off :
  std_sort_contract sort ->
  (forall (j : nat) (o : Z), off !! j = Some o -> o = count_below uniq (Z.of_nat j) ts) ->
  Z.of_nat (length ts) < 2^64 ->
  forall (n k : nat) (nei wts nei' wts' : list Z) (L : nat),
    Serializer.sort_neighbors sort n (Z.of_nat k) off (nei, wts) = Ok (nei', wts') ->
    length nei = L -> length wts = L ->
    count_below uniq (Z.of_nat (k + n)) ts <= Z.of_nat L ->
    (forall u : nat, (u < k + n)%nat ->
       Permutation (range_entries uniq ts nei wts (Z.of_nat u)) (upper_of uniq (Z.of_nat u) ts)) ->
    (forall u : nat, (u < k)%nat ->
       Sorted by_first (range_entries uniq ts nei wts (Z.of_nat u))) ->
    length nei' = L /\ length wts' = L
    /\ forall u : nat, (u < k + n)%nat ->
         Permutation (range_entries uniq ts nei' wts' (Z.of_nat u)) (upper_of uniq (Z.of_nat u) ts)
         /\ Sorted by_first (range_entries uniq ts nei' wts' (Z.of_nat u)).
Proof.
  intros Hsort Hoff Hbound.
  induction n as [|n IH]; intros k nei wts nei' wts' L H Hln Hlw Htot Hperm Hsorted.
  - cbn in H. injection H as <- <-. repeat split; try assumption.
    + apply Hperm. lia.
    + apply Hsorted. lia.
  - cbn [Serializer.sort_neighbors fst snd] in H.
    apply bind_Ok in H as (b & Hb & H1). apply vget_Ok in Hb. rewrite Nat2Z.id in Hb.
    apply bind_Ok in H1 as (e & He & H2). apply vget_Ok in He.
    replace (Z.to_nat (Z.of_nat k + 1)) with (S k) in He by lia.
    replace (Z.of_nat k + 1) with (Z.of_nat (S k)) in H2 by lia.
    apply Hoff in Hb, He.
    replace (Z.of_nat (S k)) with (Z.of_nat k + 1) in He by lia.
    rewrite count_below_succ in He.
    pose proof (count_upper_range uniq (Z.of_nat k) ts) as Hck.
    pose proof (count_below_range uniq (Z.of_nat k) ts) as Hbk.
    assert (Hlen : wrap64 (e - b) = count_upper uniq (Z.of_nat k) ts).
    { subst e b. rewrite wrap64_small by lia. lia. }
    rewrite Hlen in H2.
    assert (Hfit : count_below uniq (Z.of_nat k) ts + count_upper uniq (Z.of_nat k) ts
                   <= Z.of_nat L).
    { rewrite <- count_below_succ. etransitivity; [|exact Htot].
      apply count_below_mono. lia. }
    assert (Hrest : forall nei1 wts1,
               length nei1 = L -> length wts1 = L ->
               (forall u : nat, (u < k + S n)%nat -> u <> k ->
                  range_entries uniq ts nei1 wts1 (Z.of_nat u)
                  = range_entries uniq ts nei wts (Z.of_nat u)) ->
               Permutation (range_entries uniq ts nei1 wts1 (Z.of_nat k))
                           (upper_of uniq (Z.of_nat k) ts) ->
               Sorted by_first (range_entries uniq ts nei1 wts1 (Z.of_nat k)) ->
               Serializer.sort_neighbors sort n (Z.of_nat (S k)) off (nei1, wts1)
               = Ok (nei', wts') ->
               length nei' = L /\ length wts' = L
               /\ forall u : nat, (u < k + S n)%nat ->
                    Permutation (range_entries uniq ts nei' wts' (Z.of_nat u))
                                (upper_of uniq (Z.of_nat u) ts)
                    /\ Sorted by_first (range_entries uniq ts nei' wts' (Z.of_nat u))).
    { intros nei1 wts1 Hln1 Hlw1 Hsame Hpk Hsk Hrun.
      apply (IH (S k) nei1 wts1 nei' wts' L) in Hrun; try assumption.
      - destruct Hrun as (? & ? & Hall). repeat split; try assumption; apply Hall; lia.
      - replace (S k + n)%nat with (k + S n)%nat by lia. assumption.
      - intros u Hu. destruct (Nat.eq_dec u k) as [->|Hne]; [assumption|].
        rewrite Hsame by lia. apply Hperm. lia.
      - intros u Hu. destruct (Nat.eq_dec u k) as [->|Hne]; [assumption|].
        rewrite Hsame by lia. apply Hsorted. lia. }
    destruct (Z.leb_spec (count_upper uniq (Z.of_nat k) ts) 1) as [Hshort|Hlong].
    + apply (Hrest nei wts); try assumption; try reflexivity.
      * apply Hperm. lia.
      * apply Sorted_short.
        rewrite (Permutation_length (Hperm k ltac:(lia))).
        pose proof (length_upper_of uniq (Z.of_nat k) ts). lia.
    + apply bind_Ok in H2 as (ns & Hns & H3). apply vslice_Ok in Hns.
      apply bind_Ok in H3 as (ws & Hws & H4). apply vslice_Ok in Hws.
      assert (Hzip : zip ns ws = range_entries uniq ts nei wts (Z.of_nat k)).
      { subst ns ws b. reflexivity. }
      rewrite Hzip in H4.
      destruct (Hsort (range_entries uniq ts nei wts (Z.of_nat k))) as [Hp Hs].
      set (tmp := sort (range_entries uniq ts nei wts (Z.of_nat k))) in *.
      assert (Hltmp : length tmp = Z.to_nat (count_upper uniq (Z.of_nat k) ts)).
      { rewrite (Permutation_length Hp), (Permutation_length (Hperm k ltac:(lia))).
        pose proof (length_upper_of uniq (Z.of_nat k) ts). lia. }
      apply bind_Ok in H4 as (nei1 & Hn1 & H5). apply vwrite_Ok in Hn1 as [Hfn ->].
      apply bind_Ok in H5 as (wts1 & Hw1 & H6). apply vwrite_Ok in Hw1 as [Hfw ->].
      rewrite length_map in Hfn, Hfw.
      assert (Hk : range_entries uniq ts
                     (take (Z.to_nat b) nei ++ map fst tmp
                      ++ drop (Z.to_nat b + length (map fst tmp)) nei)
                     (take (Z.to_nat b) wts ++ map snd tmp
                      ++ drop (Z.to_nat b + length (map snd tmp)) wts) (Z.of_nat k)
                   = tmp).
      { unfold range_entries. cbv zeta. rewrite <- Hb, <- Hltmp.
        transitivity (zip (map fst tmp) (map snd tmp)); [|apply zip_map_fst_snd].
        f_equal.
        - replace (length tmp) with (length (map fst tmp)) by apply length_map.
          apply slice_splice_inside. rewrite length_map. lia.
        - replace (length tmp) with (length (map snd tmp)) by apply length_map.
          apply slice_splice_inside. rewrite length_map. lia. }
      apply (Hrest _ _) in H6; try assumption.
      * rewrite length_splice; [assumption|rewrite length_map; lia].
      * rewrite length_splice; [assumption|rewrite length_map; lia].
      * intros u Hu Hne.
        pose proof (count_upper_range uniq (Z.of_nat u) ts) as Hcu.
        pose proof (count_below_range uniq (Z.of_nat u) ts) as Hbu.
        apply range_entries_same.
        -- destruct (Nat.lt_total u k) as [Hlt|[->|Hgt]]; [|lia|].
           ++ apply slice_splice_before; [rewrite length_map; lia|].
              pose proof (count_below_mono uniq (Z.of_nat u + 1) (Z.of_nat k) ts ltac:(lia)) as Hm.
              rewrite count_below_succ in Hm. lia.
           ++ apply slice_splice_after; [rewrite length_map; lia|].
              rewrite length_map.
              pose proof (count_below_mono uniq (Z.of_nat k + 1) (Z.of_nat u) ts ltac:(lia)) as Hm.
              rewrite count_below_succ in Hm. lia.
        -- destruct (Nat.lt_total u k) as [Hlt|[->|Hgt]]; [|lia|].
           ++ apply slice_splice_before; [rewrite length_map; lia|].
              pose proof (count_below_mono uniq (Z.of_nat u + 1) (Z.of_nat k) ts ltac:(lia)) as Hm.
              rewrite count_below_succ in Hm. lia.
           ++ apply slice_splice_after; [rewrite length_map; lia|].
              rewrite length_map.
              pose proof (count_below_mono uniq (Z.of_nat k + 1) (Z.of_nat u) ts ltac:(lia)) as Hm.
              rewrite count_below_succ in Hm. lia.
      * rewrite Hk. etransitivity; [exact Hp|]. apply Hperm. lia.
      * rewrite Hk. exact Hs.
Qed.
(** ** The tables that [build] returns *)

Lemma prefix_sums_length deg :
  forall (n : nat) (i : Z) (off0 off : list Z),
    Serializer.prefix_sums n i deg off0 = Ok off -> length off = length off0.
Proof.
  induction n as [|n IH]; intros i off0 off H.
  - cbn in H. now injection H as <-.
  - cbn [Serializer.prefix_sums] in H.
    apply bind_Ok in H as (o & _ & H1).
    apply bind_Ok in H1 as (d & _ & H2).
    apply bind_Ok in H2 as (off1 & Hset & H3). apply vset_Ok in Hset as [_ ->].
    apply IH in H3. now rewrite length_insert in H3.
Qed.

Lemma wrap32_le (x : Z) : 0 <= x -> wrap32 x <= x.
Proof. intros Hx. unfold wrap32. apply Z.mod_le; lia. Qed.

Lemma range_entries_filled uniq ts nei wts u :
  (forall (k : nat) (e : Z * Z),
      upper_of uniq u ts !! k = Some e ->
      nei !! Z.to_nat (count_below uniq u ts + Z.of_nat k) = Some e.1
      /\ wts !! Z.to_nat (count_below uniq u ts + Z.of_nat k) = Some e.2) ->
  range_entries uniq ts nei wts u = upper_of uniq u ts.
Proof.
  intros Hcont. unfold range_entries. cbv zeta.
  pose proof (count_below_range uniq u ts) as Hb.
  pose proof (length_upper_of uniq u ts) as Hl.
  transitivity (zip (map fst (upper_of uniq u ts)) (map snd (upper_of uniq u ts)));
    [|apply zip_map_fst_snd].
  f_equal; apply list_eq; intros k; rewrite lookup_slice; case_decide as Hk.
  - destruct (upper_of uniq u ts !! k) as [e|] eqn:He.
    + destruct (Hcont k e He) as [Hn _].
      replace (Z.to_nat (count_below uniq u ts) + k)%nat
        with (Z.to_nat (count_below uniq u ts + Z.of_nat k)) by lia.
      rewrite Hn. symmetry. change (map fst) with (fmap (M:=list) (@fst Z Z)).
      now rewrite list_lookup_fmap, He.
    + apply lookup_ge_None in He. lia.
  - symmetry. apply lookup_ge_None. rewrite length_map. lia.
  - destruct (upper_of uniq u ts !! k) as [e|] eqn:He.
    + destruct (Hcont k e He) as [_ Hw].
      replace (Z.to_nat (count_below uniq u ts) + k)%nat
        with (Z.to_nat (count_below uniq u ts + Z.of_nat k)) by lia.
      rewrite Hw. symmetry. change (map snd) with (fmap (M:=list) (@snd Z Z)).
      now rewrite list_lookup_fmap, He.
    + apply lookup_ge_None in He. lia.
  - symmetry. apply lookup_ge_None. rewrite length_map. lia.
Qed.

Lemma build_Ok sort ts g :
  std_sort_contract sort ->
  Z.of_nat (length ts) < 2^32 ->
  Serializer.build sort ts = Ok g ->
  let uniq := Serializer.unique (Serializer.sort_ids (Serializer.collect_ids ts)) in
  let N := Z.to_nat (Serializer.N_of g) in
  Serializer.uniq g = uniq
  /\ (forall j : nat, (j <= N)%nat ->
        Serializer.off g !! j = Some (count_below uniq (Z.of_nat j) ts))
  /\ length (Serializer.upper_nei g) = Z.to_nat (count_below uniq (Z.of_nat N) ts)
  /\ length (Serializer.upper_w g) = Z.to_nat (count_below uniq (Z.of_nat N) ts)
  /\ (forall u : nat, (u < N)%nat ->
        Permutation (range_entries uniq ts (Serializer.upper_nei g) (Serializer.upper_w g)
                       (Z.of_nat u))
                    (upper_of uniq (Z.of_nat u) ts)
        /\ Sorted by_first (range_entries uniq ts (Serializer.upper_nei g)
                              (Serializer.upper_w g) (Z.of_nat u)))
  /\ Permutation (Serializer.loops g) (loops_of uniq ts)
  /\ Sorted by_first (Serializer.loops g).
Proof.
  intros Hsort Hbound H. unfold Serializer.build in H.
  set (uniq := Serializer.unique (Serializer.sort_ids (Serializer.collect_ids ts))) in *.
  set (NZ := wrap32 (Z.of_nat (length uniq))) in *.
  pose proof (wrap32_range (Z.of_nat (length uniq))) as HNZ. fold NZ in HNZ.
  apply bind_Ok in H as ([[deg M] L] & Hpass2 & H1). cbv beta iota in H1.
  apply bind_Ok in H1 as (off & Hsums & H2).
  apply bind_Ok in H2 as (total & Htotal & H3). apply vget_Ok in Htotal.
  apply bind_Ok in H3 as ([[[cur nei] wts] loops] & Hpass3 & H4). cbv beta iota in H4.
  apply bind_Ok in H4 as ([nei' wts'] & Hsorts & H5). cbv beta iota in H5.
  injection H5 as <-. cbv zeta. unfold Serializer.N_of. cbn [Serializer.uniq
    Serializer.off Serializer.upper_nei Serializer.upper_w Serializer.loops].
  fold uniq. fold NZ.
  (* pass 2 *)
  apply count_pass in Hpass2 as [Hldeg Hdeg]. rewrite length_replicate in Hldeg.
  assert (Hdeg' : forall (u : nat) (d : Z),
             deg !! u = Some d -> d = count_upper uniq (Z.of_nat u) ts).
  { intros u d Hd. apply lookup_lt_Some in Hd as Hu. rewrite Hldeg in Hu.
    rewrite (Hdeg u 0) in Hd; [|now apply lookup_replicate_2|lia].
    injection Hd as <-. pose proof (count_upper_range uniq (Z.of_nat u) ts).
    rewrite Z.add_0_l. apply wrap32_small. lia. }
  (* prefix sums *)
  pose proof (prefix_sums_length _ _ _ _ _ Hsums) as Hloff. rewrite length_replicate in Hloff.
  apply lookup_lt_Some in Htotal as HNlt.
  assert (Hoff : forall j : nat, (j <= Z.to_nat NZ)%nat ->
             off !! j = Some (count_below uniq (Z.of_nat j) ts)).
  { change 0 with (Z.of_nat 0) in Hsums.
    apply (prefix_sums_Ok uniq ts deg Hdeg' ltac:(lia)) in Hsums as [_ Hoff].
    - intros j Hj. apply Hoff. lia.
    - intros j Hj. assert (j = 0%nat) by lia. subst j.
      rewrite count_below_0. apply lookup_replicate_2. lia. }
  assert (Hoff' : forall (j : nat) (o : Z),
             off !! j = Some o -> o = count_below uniq (Z.of_nat j) ts).
  { intros j o Ho. apply lookup_lt_Some in Ho as Hj.
    pose proof (wrap32_le (NZ + 1) ltac:(lia)).
    rewrite Hoff in Ho by lia. congruence. }
  rewrite Hoff in Htotal by lia. injection Htotal as <-.
  rewrite Z2Nat.id in * by lia.
  (* pass 3 *)
  apply (fill_pass uniq ts off Hoff' ltac:(lia) ts [] off) in Hpass3
    as (Hln & Hlw & Hcont & ->); try reflexivity.
  2:{ intros u o Ho. rewrite Ho. f_equal. change (count_upper uniq (Z.of_nat u) []) with 0. lia. }
  2:{ intros u k o e _ He. now destruct k. }
  rewrite length_replicate in Hln, Hlw.
  (* the sorts *)
  change 0 with (Z.of_nat 0) in Hsorts.
  apply (sort_pass sort uniq ts off Hsort Hoff' ltac:(lia)
           (Z.to_nat NZ) 0 nei wts nei' wts' (Z.to_nat (count_below uniq NZ ts)))
    in Hsorts as (Hln' & Hlw' & Hall); try assumption.
  - repeat split; try assumption.
    + apply Hall. lia.
    + apply Hall. lia.
    + apply Hsort.
    + apply Hsort.
  - cbn [Nat.add]. rewrite Z2Nat.id by lia. pose proof (count_below_range uniq NZ ts). lia.
  - intros u Hu. cbn [Nat.add] in Hu.
    rewrite range_entries_filled; [reflexivity|].
    intros k e He. apply (Hcont u k); [|assumption]. apply Hoff. lia.
  - intros u Hu. lia.
Qed.
(** ** The canonical shape *)

Lemma unique_cons2 (x y : Z) (l : list Z) :
  Serializer.unique (x :: y :: l)
  = if x =? y then Serializer.unique (y :: l) else x :: Serializer.unique (y :: l).
Proof. reflexivity. Qed.

Lemma unique_head (x : Z) (l : list Z) : exists l', Serializer.unique (x :: l) = x :: l'.
Proof.
  revert x. induction l as [|y l IH]; intros x; [now exists []|].
  rewrite unique_cons2. destruct (x =? y) eqn:E.
  - apply Z.eqb_eq in E as ->. apply IH.
  - eexists. reflexivity.
Qed.

Lemma unique_sorted (l : list Z) : Sorted Z.le l -> Sorted Z.lt (Serializer.unique l).
Proof.
  induction 1 as [|x l Hs IH Hhd]; [constructor|].
  destruct l as [|y l]; [repeat constructor|].
  rewrite unique_cons2. destruct (Z.eqb_spec x y) as [->|Hne]; [assumption|].
  constructor; [assumption|].
  destruct (unique_head y l) as [l' ->]. constructor.
  inversion Hhd; subst. lia.
Qed.

Lemma uniq_ascending (ids : list Z) :
  Sorted Z.lt (Serializer.unique (Serializer.sort_ids ids)).
Proof.
  apply unique_sorted. unfold Serializer.sort_ids. apply Sorted_merge_sort. apply _.
Qed.

Lemma Sorted_by_first_fst (l : list (Z * Z)) :
  Sorted by_first l -> Sorted Z.le (map fst l).
Proof.
  induction 1 as [|x l Hs IH Hhd]; cbn [map]; constructor; [assumption|].
  destruct Hhd; cbn [map]; constructor. assumption.
Qed.

Lemma Sorted_from_base (base : Z) (js : list Z) :
  Sorted Z.le js -> Forall (fun j => base <= j) js -> Sorted Z.le (base :: js).
Proof.
  intros Hs Hall. constructor; [assumption|].
  destruct Hall; constructor. assumption.
Qed.

Lemma upper_of_above uniq u ts :
  Forall (fun e => u < e.1) (upper_of uniq u ts).
Proof.
  unfold upper_of. apply Forall_forall. intros e He. apply list_elem_of_In in He.
  apply in_map_iff in He as (t & <- & Ht). apply filter_In in Ht as [_ Ht].
  unfold is_upper, is_loop in Ht. apply andb_true_iff in Ht as [Hnl Hlo].
  apply negb_true_iff, Z.eqb_neq in Hnl. apply Z.eqb_eq in Hlo.
  cbn [fst]. unfold hi, lo in *. lia.
Qed.

Lemma loops_of_nonneg uniq ts :
  Forall (fun e => 0 <= e.1) (loops_of uniq ts).
Proof.
  unfold loops_of. apply Forall_forall. intros e He. apply list_elem_of_In in He.
  apply in_map_iff in He as (t & <- & _). cbn [fst]. apply cidx_range.
Qed.

Lemma Forall_fst_map {P : Z -> Prop} (l : list (Z * Z)) :
  Forall (fun e => P e.1) l -> Forall P (map fst l).
Proof. induction 1; cbn [map]; constructor; assumption. Qed.

Lemma build_canonical sort ts g :
  std_sort_contract sort ->
  Z.of_nat (length ts) < 2^32 ->
  Serializer.build sort ts = Ok g ->
  canonical g.
Proof.
  intros Hsort Hbound Hbuild.
  destruct (build_Ok sort ts g Hsort Hbound Hbuild)
    as (Huniq & Hoff & Hln & Hlw & Hall & Hlp & Hls).
  set (uniq := Serializer.unique (Serializer.sort_ids (Serializer.collect_ids ts))) in *.
  split; [|split].
  - rewrite Huniq. apply uniq_ascending.
  - intros i Hi.
    pose proof (count_below_range uniq i ts) as Hb.
    pose proof (count_upper_range uniq i ts) as Hc.
    exists (count_below uniq i ts), (count_below uniq (i + 1) ts),
      (slice (Serializer.upper_nei g) (Z.to_nat (count_below uniq i ts))
         (Z.to_nat (count_upper uniq i ts))).
    split; [|split; [|split]].
    + apply vget_Ok. rewrite Hoff by lia. f_equal. f_equal. lia.
    + apply vget_Ok. rewrite Hoff by lia. f_equal. f_equal. lia.
    + rewrite count_below_succ.
      replace (count_below uniq i ts + count_upper uniq i ts - count_below uniq i ts)
        with (count_upper uniq i ts) by lia.
      apply vslice_inside. rewrite Hln.
      pose proof (count_below_mono uniq (i + 1) (Z.of_nat (Z.to_nat (Serializer.N_of g))) ts
                    ltac:(lia)) as Hm.
      rewrite count_below_succ in Hm. lia.
    + destruct (Hall (Z.to_nat i) ltac:(lia)) as [Hp Hs].
      rewrite Z2Nat.id in Hp, Hs by lia.
      assert (Hfit : (Z.to_nat (count_below uniq i ts) + Z.to_nat (count_upper uniq i ts)
                      <= Z.to_nat (count_below uniq (Z.of_nat (Z.to_nat (Serializer.N_of g))) ts))%nat).
      { pose proof (count_below_mono uniq (i + 1) (Z.of_nat (Z.to_nat (Serializer.N_of g))) ts
                      ltac:(lia)) as Hm.
        rewrite count_below_succ in Hm. lia. }
      assert (Hjs : map fst (range_entries uniq ts (Serializer.upper_nei g)
                               (Serializer.upper_w g) i)
                    = slice (Serializer.upper_nei g) (Z.to_nat (count_below uniq i ts))
                        (Z.to_nat (count_upper uniq i ts))).
      { unfold range_entries. cbv zeta. apply map_fst_zip.
        rewrite !length_slice; [reflexivity|lia|lia]. }
      rewrite <- Hjs. apply Sorted_from_base.
      * now apply Sorted_by_first_fst.
      * apply Forall_fst_map.
        eapply Forall_impl; [|intros e He; apply Z.lt_le_incl; exact He].
        eapply Permutation_Forall; [symmetry; exact Hp|]. apply upper_of_above.
  - apply Sorted_from_base.
    + now apply Sorted_by_first_fst.
    + apply Forall_fst_map. eapply Permutation_Forall; [symmetry; exact Hlp|].
      apply loops_of_nonneg.
Qed.

(** In a range that ascends from its base, what [emit_entries] writes
    are the differences themselves, none of them negative. *)
Lemma emit_entries_gaps (es : list (Z * Z)) :
  forall prev : Z,
    0 <= prev ->
    Sorted Z.le (prev :: map fst es) ->
    Forall (fun e => e.1 < 2^32) es ->
    Serializer.emit_entries prev es = flat_map entry_bytes (gap_entries prev es)
    /\ Forall (fun e => 0 <= e.1) (gap_entries prev es).
Proof.
  induction es as [|[j w] es IH]; intros prev Hprev Hsorted Hall.
  - split; [reflexivity|constructor].
  - cbn [map fst] in Hsorted.
    apply Sorted_inv in Hsorted as [Hs Hhd]. apply HdRel_inv in Hhd.
    inversion Hall as [|? ? Hj Hall']; subst. cbn [fst] in Hj.
    destruct (IH j ltac:(lia) Hs Hall') as [Hemit Hgaps].
    cbn [Serializer.emit_entries gap_entries flat_map]. unfold entry_bytes at 1.
    cbn [fst snd]. rewrite wrap32_small by lia. rewrite Hemit, <- app_assoc.
    split; [reflexivity|]. constructor; [cbn [fst]; lia|assumption].
Qed.

(** ** What the scanner yields *)

Lemma parse_loop_range (delim : Z) (q : list byte) :
  forall (x : Z) (any : bool) (last x' : Z) (any' : bool) (q' : list byte) (last' : Z),
    TSVScanner.parse_loop delim q x any last = Some (x', any', q', last') ->
    0 <= x < 2^32 -> 0 <= x' < 2^32.
Proof.
  induction q as [|b q IH]; intros x any last x' any' q' last' H Hx.
  - cbn in H. now injection H as <- <- <- <-.
  - cbn [TSVScanner.parse_loop] in H. pose proof (byte_val_range b).
    destruct ((48 <=? byte_val b) && (byte_val b <=? 57)) eqn:Hd.
    + apply andb_true_iff in Hd as [Hd1 Hd2]. apply Z.leb_le in Hd1, Hd2.
      destruct (Z.ltb_spec 4294967295 (x * 10 + (byte_val b - 48))); [discriminate|].
      apply IH in H; [assumption|lia].
    + destruct (byte_val b =? delim); [now injection H as <- <- <- <-|].
      destruct ((delim =? TSVScanner.LF)
                && ((byte_val b =? TSVScanner.LF) || (byte_val b =? TSVScanner.CR)));
        [|discriminate].
      now injection H as <- <- <- <-.
Qed.

Lemma parse_u32_until_range (delim : Z) (q q' : list byte) (x last : Z) :
  TSVScanner.parse_u32_until delim q = Some (x, q', last) -> 0 <= x < 2^32.
Proof.
  unfold TSVScanner.parse_u32_until. intros H.
  destruct (TSVScanner.parse_loop delim q 0 false 0) as [[[[x0 any0] q0] last0]|] eqn:E;
    [|discriminate].
  destruct any0; [|discriminate]. injection H as <- <- <-.
  apply (parse_loop_range _ _ _ _ _ _ _ _ _ E). lia.
Qed.

Lemma for_each_triplet_range (data : list byte) (ts : list (Z * Z * Z)) :
  TSVScanner.for_each_triplet data = Ok ts -> Forall triplet_in_range ts.
Proof.
  unfold TSVScanner.for_each_triplet. generalize (S (length data)). intros fuel.
  revert data ts. induction fuel as [|fuel IH]; intros q ts H.
  - cbn in H. injection H as <-. constructor.
  - cbn [TSVScanner.for_each_triplet_loop] in H.
    destruct q as [|c q]; [injection H as <-; constructor|].
    destruct ((byte_val c =? TSVScanner.LF) || (byte_val c =? TSVScanner.CR)).
    { now apply IH in H. }
    destruct (TSVScanner.parse_u32_until TSVScanner.TAB (c :: q)) as [[[a q1] l1]|] eqn:E1;
      [|discriminate].
    destruct (TSVScanner.parse_u32_until TSVScanner.TAB q1) as [[[b q2] l2]|] eqn:E2;
      [|discriminate].
    destruct (TSVScanner.parse_u32_until TSVScanner.LF q2) as [[[w q3] l3]|] eqn:E3;
      [|discriminate].
    destruct (Z.ltb_spec 255 w); [discriminate|].
    apply bind_Ok in H as (rest & Hrest & H1). injection H1 as <-.
    apply parse_u32_until_range in E1, E2, E3.
    constructor; [|now apply IH in Hrest].
    unfold triplet_in_range. cbn [fst snd]. rewrite wrap8_small by lia. lia.
Qed.

(** ** Decimal text, written and scanned *)

Lemma digit_char (d : Z) :
  0 <= d < 10 -> byte_val (u8 (48 + d)) = 48 + d.
Proof. intros Hd. rewrite byte_val_u8. apply wrap8_small. lia. Qed.

Lemma parse_loop_digit (delim : Z) (d : Z) (q : list byte) (x : Z) (any : bool) (last : Z) :
  0 <= d < 10 -> x * 10 + d <= 4294967295 ->
  TSVScanner.parse_loop delim (u8 (48 + d) :: q) x any last
  = TSVScanner.parse_loop delim q (x * 10 + d) true (48 + d).
Proof.
  intros Hd Hx. cbn [TSVScanner.parse_loop]. rewrite digit_char by assumption.
  destruct (Z.leb_spec 48 (48 + d)); [|lia].
  destruct (Z.leb_spec (48 + d) 57); [|lia]. cbn [andb].
  replace (48 + d - 48) with d by lia.
  destruct (Z.ltb_spec 4294967295 (x * 10 + d)); [lia|reflexivity].
Qed.

(** Scanning the digits of [x] from zero gives [x] again. *)
Lemma parse_loop_to_chars (delim : Z) (fuel : nat) :
  forall (x : Z) (acc : list byte) (any : bool) (last : Z),
    (0 < fuel)%nat -> 0 <= x < 10^(Z.of_nat fuel) -> x <= 4294967295 ->
    TSVScanner.parse_loop delim (TextWriter.to_chars fuel x acc) 0 any last
    = TSVScanner.parse_loop delim acc x true (48 + x mod 10).
Proof.
  induction fuel as [|fuel IH]; intros x acc any last Hf Hx Hmax; [lia|].
  - cbn [TextWriter.to_chars].
    pose proof (Z.mod_pos_bound x 10 ltac:(lia)) as Hm.
    pose proof (Z.div_mod x 10 ltac:(lia)) as Hdm.
    destruct (Z.ltb_spec x 10) as [Hsmall|Hbig].
    + rewrite parse_loop_digit by lia. f_equal. rewrite Z.mod_small by lia. lia.
    + rewrite IH.
      * rewrite parse_loop_digit by lia. f_equal. lia.
      * destruct fuel; [|lia]. change (10 ^ Z.of_nat 1) with 10 in Hx. lia.
      * split; [apply Z.div_pos; lia|].
        apply Z.div_lt_upper_bound; [lia|].
        replace (10 * 10 ^ Z.of_nat fuel) with (10 ^ Z.of_nat (S fuel)); [lia|].
        rewrite Nat2Z.inj_succ, Z.pow_succ_r by lia. reflexivity.
      * assert (x `div` 10 <= x) by (apply Z.div_le_upper_bound; lia). lia.
Qed.

Lemma parse_field (delim : Z) (fuel : nat) (x : Z) (rest : list byte) :
  (delim = TSVScanner.TAB \/ delim = TSVScanner.LF) ->
  (0 < fuel)%nat -> 0 <= x < 10^(Z.of_nat fuel) -> x <= 4294967295 ->
  TSVScanner.parse_u32_until delim (TextWriter.to_chars fuel x [] ++ u8 delim :: rest)
  = Some (x, rest, delim).
Proof.
  intros Hdelim Hf Hx Hmax. unfold TSVScanner.parse_u32_until.
  assert (Happ : forall f y acc tail,
             TextWriter.to_chars f y acc ++ tail = TextWriter.to_chars f y (acc ++ tail)).
  { induction f as [|f IHf]; intros y acc tail; cbn [TextWriter.to_chars]; [reflexivity|].
    destruct (y <? 10); [reflexivity|]. now rewrite IHf. }
  rewrite Happ. cbn [app]. rewrite parse_loop_to_chars by assumption.
  cbn [TSVScanner.parse_loop]. rewrite byte_val_u8.
  destruct Hdelim as [-> | ->]; reflexivity.
Qed.

Lemma to_chars_head (fuel : nat) :
  forall (x : Z) (acc : list byte),
    (0 < fuel)%nat -> 0 <= x < 10^(Z.of_nat fuel) ->
    exists (c : byte) (cs : list byte),
      TextWriter.to_chars fuel x acc = c :: cs /\ 48 <= byte_val c <= 57.
Proof.
  induction fuel as [|fuel IH]; intros x acc Hf Hx; [lia|].
  cbn [TextWriter.to_chars].
  pose proof (Z.mod_pos_bound x 10 ltac:(lia)) as Hm.
  destruct (Z.ltb_spec x 10) as [Hsmall|Hbig].
  - eexists _, _. split; [reflexivity|]. rewrite digit_char; lia.
  - apply IH.
    + destruct fuel; [|lia]. change (10 ^ Z.of_nat 1) with 10 in Hx. lia.
    + split; [apply Z.div_pos; lia|].
      apply Z.div_lt_upper_bound; [lia|].
      replace (10 * 10 ^ Z.of_nat fuel) with (10 ^ Z.of_nat (S fuel)); [lia|].
      rewrite Nat2Z.inj_succ, Z.pow_succ_r by lia. reflexivity.
Qed.
Lemma line_scanned (fuel : nat) (a b w : Z) (rest : list byte) :
  triplet_in_range (a, b, w) ->
  TSVScanner.for_each_triplet_loop (S fuel) (TextWriter.line a b w ++ rest)
  = (let* r := TSVScanner.for_each_triplet_loop fuel rest in Ok ((a, b, w) :: r)).
Proof.
  intros (Ha & Hb & Hw). cbn [fst snd] in *.
  unfold TextWriter.line, TextWriter.putu, TextWriter.putu8, TextWriter.newline, TextWriter.put.
  rewrite <- !app_assoc. cbn [app].
  change (u8 9) with (u8 TSVScanner.TAB). change (u8 10) with (u8 TSVScanner.LF).
  destruct (to_chars_head 10 a [] ltac:(lia)) as (c & cs & Hhead & Hc).
  { change (10 ^ Z.of_nat 10) with 10000000000. lia. }
  set (q := TextWriter.to_chars 10 a [] ++ _).
  assert (Hq : q = c :: (cs ++ u8 TSVScanner.TAB
                          :: TextWriter.to_chars 10 b []
                          ++ u8 TSVScanner.TAB
                          :: TextWriter.to_chars 3 w [] ++ u8 TSVScanner.LF :: rest)).
  { unfold q. now rewrite Hhead. }
  cbn [TSVScanner.for_each_triplet_loop]. rewrite Hq at 1.
  replace ((byte_val c =? TSVScanner.LF) || (byte_val c =? TSVScanner.CR)) with false.
  2:{ unfold TSVScanner.LF, TSVScanner.CR.
      destruct (Z.eqb_spec (byte_val c) 10), (Z.eqb_spec (byte_val c) 13); try reflexivity; lia. }
  unfold q.
  rewrite parse_field; [|now left|lia| |lia].
  2:{ change (10 ^ Z.of_nat 10) with 10000000000. lia. }
  rewrite parse_field; [|now left|lia| |lia].
  2:{ change (10 ^ Z.of_nat 10) with 10000000000. lia. }
  rewrite parse_field; [|now right|lia| |lia].
  2:{ change (10 ^ Z.of_nat 3) with 1000. lia. }
  destruct (Z.ltb_spec 255 w); [lia|].
  replace (match rest with
           | [] => rest
           | c' :: q' =>
               if (TSVScanner.LF =? TSVScanner.CR) && (byte_val c' =? TSVScanner.LF)
               then q' else rest
           end) with rest by (now destruct rest).
  now rewrite wrap8_small by lia.
Qed.

Lemma length_line_pos (a b w : Z) : (0 < length (TextWriter.line a b w))%nat.
Proof.
  unfold TextWriter.line, TextWriter.newline, TextWriter.put.
  rewrite !length_app. cbn [length]. lia.
Qed.

(** A text written line by line is scanned back as the same triplets. *)
Lemma scan_text_of (ts : list (Z * Z * Z)) :
  Forall triplet_in_range ts ->
  TSVScanner.for_each_triplet (text_of ts) = Ok ts.
Proof.
  induction 1 as [|[[a b] w] ts Ht _ IH]; [reflexivity|].
  unfold TSVScanner.for_each_triplet. cbn [text_of flat_map fst snd].
  fold (text_of ts).
  rewrite line_scanned by assumption.
  rewrite for_each_triplet_fuel.
  - now rewrite IH.
  - rewrite length_app. pose proof (length_line_pos a b w). lia.
Qed.
(** ** Reading what [emit] wrote *)

Lemma vget_orig_at (orig : list Z) (i : Z) :
  (Z.to_nat i < length orig)%nat -> vget orig i = Ok (orig_at orig i).
Proof.
  intros Hi. apply vget_Ok. unfold orig_at.
  destruct (orig !! Z.to_nat i) as [x|] eqn:E.
  - f_equal. symmetry. now apply nth_lookup_Some.
  - apply lookup_ge_None in E. lia.
Qed.

Lemma text_of_app (l1 l2 : list (Z * Z * Z)) : text_of (l1 ++ l2) = text_of l1 ++ text_of l2.
Proof. unfold text_of. apply flat_map_app. Qed.

Lemma read_neighbors_emitted (orig : list Z) (i : Z) (rest : list byte) (es : list (Z * Z)) :
  forall prev : Z,
    Forall (entry_ok orig) es ->
    (Z.to_nat i < length orig)%nat ->
    Deserializer.read_neighbors (length es) orig i prev (Serializer.emit_entries prev es ++ rest)
    = Ok (text_of (entry_triplets orig i es), rest).
Proof.
  induction es as [|[j w] es IH]; intros prev Hall Hi; [reflexivity|].
  inversion Hall as [|? ? (Hj & Hjn & Hw) Hall']; subst. cbn [fst snd] in *.
  cbn [length Serializer.emit_entries Deserializer.read_neighbors].
  rewrite <- !app_assoc.
  rewrite (varu_read_written (wrap32 (j - prev)) _
                    ltac:(pose proof (wrap32_range (j - prev)); lia)).
  cbn [bind]. rewrite wrap32_delta by assumption.
  rewrite get_put by assumption. cbn [bind].
  rewrite (vget_orig_at orig i Hi), (vget_orig_at orig j Hjn). cbn [bind].
  rewrite (IH j Hall' Hi). reflexivity.
Qed.

Lemma read_loops_emitted (orig : list Z) (rest : list byte) (es : list (Z * Z)) :
  forall acc : Z,
    Forall (entry_ok orig) es ->
    Deserializer.read_loops (length es) orig acc (Serializer.emit_entries acc es ++ rest)
    = Ok (text_of (loop_triplets orig es), rest).
Proof.
  induction es as [|[v w] es IH]; intros acc Hall; [reflexivity|].
  inversion Hall as [|? ? (Hv & Hvn & Hw) Hall']; subst. cbn [fst snd] in *.
  cbn [length Serializer.emit_entries Deserializer.read_loops].
  rewrite <- !app_assoc.
  rewrite (varu_read_written (wrap32 (v - acc)) _
                    ltac:(pose proof (wrap32_range (v - acc)); lia)).
  cbn [bind]. rewrite wrap32_delta by assumption.
  rewrite get_put by assumption. cbn [bind].
  rewrite (vget_orig_at orig v Hvn). cbn [bind].
  rewrite (IH v Hall'). reflexivity.
Qed.

Lemma read_adjacency_emitted (orig off nei wts : list Z) (es_of : nat -> list (Z * Z))
    (rest : list byte) :
  forall (n i : nat) (bytes : list byte),
    Serializer.emit_adjacency n (Z.of_nat i) off nei wts = Ok bytes ->
    (forall u : nat, (i <= u < i + n)%nat ->
       exists b e : Z,
         off !! u = Some b /\ off !! S u = Some e /\ 0 <= b <= e /\ e < 2^64
         /\ zip (slice nei (Z.to_nat b) (Z.to_nat (e - b)))
                (slice wts (Z.to_nat b) (Z.to_nat (e - b))) = es_of u
         /\ length (es_of u) = Z.to_nat (e - b)
         /\ Forall (entry_ok orig) (es_of u)
         /\ (u < length orig)%nat) ->
    Deserializer.read_adjacency n orig (Z.of_nat i) (bytes ++ rest)
    = Ok (text_of (flat_map (fun u => entry_triplets orig (Z.of_nat u) (es_of u)) (seq i n)),
          rest).
Proof.
  induction n as [|n IH]; intros i bytes Hemit Hrange.
  - cbn in Hemit. injection Hemit as <-. reflexivity.
  - cbn [Serializer.emit_adjacency] in Hemit.
    destruct (Hrange i ltac:(lia)) as (b & e & Hb & He & Hbe & He64 & Hzip & Hlen & Hok & Hi).
    apply bind_Ok in Hemit as (b' & Hb' & H1). apply vget_Ok in Hb'. rewrite Nat2Z.id in Hb'.
    apply bind_Ok in H1 as (e' & He' & H2). apply vget_Ok in He'.
    replace (Z.to_nat (Z.of_nat i + 1)) with (S i) in He' by lia.
    assert (b' = b) by congruence. assert (e' = e) by congruence. subst b' e'.
    apply bind_Ok in H2 as (ns & Hns & H3). apply vslice_Ok in Hns as ->.
    apply bind_Ok in H3 as (ws & Hws & H4). apply vslice_Ok in Hws as ->.
    rewrite Hzip in H4.
    apply bind_Ok in H4 as (more & Hmore & H5). injection H5 as <-.
    replace (Z.of_nat i + 1) with (Z.of_nat (S i)) in Hmore by lia.
    cbn [Deserializer.read_adjacency]. rewrite <- !app_assoc.
    rewrite (varu_read_written (wrap64 (e - b)) _ (wrap64_range _)). cbn [bind].
    rewrite wrap64_small by lia. rewrite <- Hlen.
    rewrite read_neighbors_emitted; [|assumption|lia]. cbn [bind].
    replace (Z.of_nat i + 1) with (Z.of_nat (S i)) by lia.
    rewrite (IH (S i) more Hmore).
    + cbn [bind seq flat_map]. now rewrite text_of_app.
    + intros u Hu. apply Hrange. lia.
Qed.
(** ** The mapping and the compact indices *)

Lemma idx_of_found uniq a ia :
  Serializer.idx_of uniq a = Ok ia ->
  uniq !! Serializer.lower_bound uniq a = Some a.
Proof.
  unfold Serializer.idx_of. intros H.
  destruct (uniq !! Serializer.lower_bound uniq a) as [y|]; [|discriminate].
  destruct (Z.eqb_spec y a) as [Heq|]; [now rewrite Heq|discriminate].
Qed.

Lemma count_pass_resolved uniq ts :
  forall st st',
    Serializer.for_each (Serializer.count_edge uniq) st ts = Ok st' ->
    Forall (fun t => resolved uniq t.1.1 /\ resolved uniq t.1.2) ts.
Proof.
  induction ts as [|[[a b] w] ts IH]; intros st st' H; [constructor|].
  cbn [Serializer.for_each] in H.
  apply bind_Ok in H as (st1 & Hstep & H1).
  constructor; [|now apply IH in H1].
  destruct st as [[deg m] l]. unfold Serializer.count_edge in Hstep.
  apply bind_Ok in Hstep as (ia & Hia & H2).
  apply bind_Ok in H2 as (ib & Hib & _).
  split; [now apply idx_of_found in Hia|now apply idx_of_found in Hib].
Qed.

Lemma cidx_resolved uniq a :
  Z.of_nat (length uniq) < 2^32 -> resolved uniq a ->
  0 <= cidx uniq a /\ (Z.to_nat (cidx uniq a) < length uniq)%nat
  /\ orig_at uniq (cidx uniq a) = a.
Proof.
  intros Hlen Ha. unfold resolved in Ha. apply lookup_lt_Some in Ha as Hlt.
  unfold cidx, orig_at. rewrite wrap32_small by lia. rewrite Nat2Z.id.
  repeat split; [lia|assumption|]. now apply nth_lookup_Some.
Qed.

Lemma length_unique_le (l : list Z) : (length (Serializer.unique l) <= length l)%nat.
Proof.
  induction l as [|x l IH]; [reflexivity|].
  destruct l as [|y l]; [reflexivity|].
  rewrite unique_cons2. destruct (x =? y); cbn [length] in *; lia.
Qed.

Lemma unique_subset (P : Z -> Prop) (l : list Z) :
  Forall P l -> Forall P (Serializer.unique l).
Proof.
  induction 1 as [|x l Hx Hl IH]; [constructor|].
  destruct l as [|y l]; [repeat constructor; assumption|].
  rewrite unique_cons2. destruct (x =? y); [assumption|now constructor].
Qed.

Lemma length_collect_ids (ts : list (Z * Z * Z)) :
  length (Serializer.collect_ids ts) = (2 * length ts)%nat.
Proof.
  unfold Serializer.collect_ids. induction ts as [|t ts IH]; cbn [flat_map length app]; lia.
Qed.

Lemma collect_ids_range (ts : list (Z * Z * Z)) :
  Forall triplet_in_range ts ->
  Forall (fun x => 0 <= x < 2^32) (Serializer.collect_ids ts).
Proof.
  unfold Serializer.collect_ids.
  induction 1 as [|t ts (Ha & Hb & _) _ IH]; cbn [flat_map app]; [constructor|].
  constructor; [exact Ha|]. constructor; [exact Hb|exact IH].
Qed.

Lemma uniq_length (ts : list (Z * Z * Z)) :
  (length (Serializer.unique (Serializer.sort_ids (Serializer.collect_ids ts)))
   <= 2 * length ts)%nat.
Proof.
  etransitivity; [apply length_unique_le|].
  unfold Serializer.sort_ids.
  rewrite (Permutation_length (merge_sort_Permutation Z.le _)).
  now rewrite length_collect_ids.
Qed.

Lemma uniq_range (ts : list (Z * Z * Z)) :
  Forall triplet_in_range ts ->
  Forall (fun x => 0 <= x < 2^32)
    (Serializer.unique (Serializer.sort_ids (Serializer.collect_ids ts))).
Proof.
  intros Hts. apply unique_subset. unfold Serializer.sort_ids.
  eapply Permutation_Forall; [symmetry; apply merge_sort_Permutation|].
  now apply collect_ids_range.
Qed.

Lemma build_resolved sort ts g :
  Serializer.build sort ts = Ok g ->
  Forall (fun t => resolved (Serializer.uniq g) t.1.1 /\ resolved (Serializer.uniq g) t.1.2) ts.
Proof.
  unfold Serializer.build. intros H.
  apply bind_Ok in H as ([[deg M] L] & Hpass2 & H1). cbv beta iota in H1.
  apply bind_Ok in H1 as (off & _ & H2).
  apply bind_Ok in H2 as (total & _ & H3).
  apply bind_Ok in H3 as ([[[cur nei] wts] loops] & _ & H4). cbv beta iota in H4.
  apply bind_Ok in H4 as ([nei' wts'] & _ & H5). cbv beta iota in H5.
  injection H5 as <-. cbn [Serializer.uniq].
  now apply count_pass_resolved in Hpass2.
Qed.
(** ** The edges of the tables and the edges of the input *)

Lemma canon_swap (a b w : Z) : canon (b, a, w) = canon (a, b, w).
Proof. unfold canon. cbn [fst snd]. f_equal. f_equal; lia. Qed.

Lemma canon_upper uniq u t :
  Z.of_nat (length uniq) < 2^32 ->
  resolved uniq t.1.1 -> resolved uniq t.1.2 ->
  is_upper uniq u t = true ->
  canon (orig_at uniq u, orig_at uniq (hi uniq t), t.2) = canon t.
Proof.
  intros Hlen Ha Hb Hup. destruct t as [[a b] w]. cbn [fst snd] in *.
  destruct (cidx_resolved uniq a Hlen Ha) as (_ & _ & Hoa).
  destruct (cidx_resolved uniq b Hlen Hb) as (_ & _ & Hob).
  unfold is_upper in Hup. apply andb_true_iff in Hup as [_ Hlo].
  apply Z.eqb_eq in Hlo. subst u. unfold lo, hi. cbn [fst snd].
  destruct (Z.le_ge_cases (cidx uniq a) (cidx uniq b)).
  - rewrite Z.min_l, Z.max_r by assumption. now rewrite Hoa, Hob.
  - rewrite Z.min_r, Z.max_l by assumption. rewrite Hoa, Hob. apply canon_swap.
Qed.

Lemma canon_loop uniq t :
  Z.of_nat (length uniq) < 2^32 ->
  resolved uniq t.1.1 -> resolved uniq t.1.2 ->
  is_loop uniq t = true ->
  canon (orig_at uniq (cidx uniq t.1.1), orig_at uniq (cidx uniq t.1.1), t.2) = canon t.
Proof.
  intros Hlen Ha Hb Hloop. destruct t as [[a b] w]. cbn [fst snd] in *.
  destruct (cidx_resolved uniq a Hlen Ha) as (_ & _ & Hoa).
  destruct (cidx_resolved uniq b Hlen Hb) as (_ & _ & Hob).
  unfold is_loop in Hloop. cbn [fst snd] in Hloop. apply Z.eqb_eq in Hloop.
  assert (a = b) by congruence. subst b. now rewrite Hoa.
Qed.

Lemma flat_map_pointwise {A B} (f g : A -> list B) (l : list A) :
  (forall x, In x l -> Permutation (f x) (g x)) ->
  Permutation (flat_map f l) (flat_map g l).
Proof.
  induction l as [|x l IH]; intros H; cbn [flat_map]; [reflexivity|].
  apply Permutation_app; [apply H; now left|]. apply IH. intros y Hy. apply H. now right.
Qed.

Lemma flat_map_put {A} (t : A) (F : nat -> list A) (u0 : nat) (l : list nat) :
  NoDup l -> In u0 l ->
  Permutation (flat_map (fun u => if Nat.eqb u u0 then t :: F u else F u) l)
              (t :: flat_map F l).
Proof.
  induction l as [|x l IH]; intros Hnd Hin; [destruct Hin|].
  apply NoDup_cons_1_1 in Hnd as Hx. apply NoDup_cons_1_2 in Hnd as Hnd'.
  cbn [flat_map]. destruct (Nat.eqb_spec x u0) as [->|Hne].
  - cbn [app]. constructor. apply Permutation_app_head.
    apply flat_map_pointwise. intros y Hy.
    destruct (Nat.eqb_spec y u0) as [->|]; [|reflexivity].
    exfalso. apply Hx. now apply list_elem_of_In.
  - destruct Hin as [Heq|Hin]; [congruence|].
    rewrite (IH Hnd' Hin). symmetry. apply Permutation_middle.
Qed.

(** The triplets of the vertices and the loops make up the input. *)
Lemma split_by_vertex uniq (N : nat) (ts : list (Z * Z * Z)) :
  Forall (fun t => is_loop uniq t = false -> (Z.to_nat (lo uniq t) < N)%nat) ts ->
  Permutation
    (flat_map (fun u : nat => List.filter (is_upper uniq (Z.of_nat u)) ts) (seq 0 N)
     ++ List.filter (is_loop uniq) ts)
    ts.
Proof.
  induction 1 as [|t ts Ht _ IH].
  - cbn [List.filter]. rewrite app_nil_r.
    induction (seq 0 N) as [|x l IHl]; cbn [flat_map app]; [reflexivity|assumption].
  - cbn [List.filter]. pose proof (lo_nonneg uniq t) as Hlo.
    destruct (is_loop uniq t) eqn:Hloop.
    + rewrite <- Permutation_middle. constructor.
      etransitivity; [|exact IH]. apply Permutation_app_tail.
      apply flat_map_pointwise. intros u _. unfold is_upper. rewrite Hloop. reflexivity.
    + specialize (Ht eq_refl).
      etransitivity;
        [|apply perm_skip; exact IH].
      change (t :: ?a ++ ?b) with ((t :: a) ++ b). apply Permutation_app_tail.
      etransitivity; [|apply (flat_map_put t _ (Z.to_nat (lo uniq t)))].
      * apply flat_map_pointwise. intros u _. unfold is_upper. rewrite Hloop. cbn [negb andb].
        destruct (Z.eqb_spec (lo uniq t) (Z.of_nat u)), (Nat.eqb_spec u (Z.to_nat (lo uniq t)));
          try reflexivity; lia.
      * apply NoDup_ListNoDup, List.seq_NoDup.
      * apply in_seq. lia.
Qed.

Lemma map_canon_entry_triplets uniq u ts :
  Z.of_nat (length uniq) < 2^32 ->
  Forall (fun t => resolved uniq t.1.1 /\ resolved uniq t.1.2) ts ->
  map canon (entry_triplets uniq u (upper_of uniq u ts))
  = map canon (List.filter (is_upper uniq u) ts).
Proof.
  intros Hlen Hres. unfold entry_triplets, upper_of. rewrite !map_map.
  apply map_ext_in. intros t Ht. apply filter_In in Ht as [Hin Hup].
  cbn [fst snd].
  rewrite List.Forall_forall in Hres. destruct (Hres t Hin) as [Ha Hb].
  now apply canon_upper.
Qed.

Lemma map_canon_loop_triplets uniq ts :
  Z.of_nat (length uniq) < 2^32 ->
  Forall (fun t => resolved uniq t.1.1 /\ resolved uniq t.1.2) ts ->
  map canon (loop_triplets uniq (loops_of uniq ts))
  = map canon (List.filter (is_loop uniq) ts).
Proof.
  intros Hlen Hres. unfold loop_triplets, loops_of. rewrite !map_map.
  apply map_ext_in. intros t Ht. apply filter_In in Ht as [Hin Hloop].
  cbn [fst snd].
  rewrite List.Forall_forall in Hres. destruct (Hres t Hin) as [Ha Hb].
  now apply canon_loop.
Qed.
(** ** Serializing and reading back *)

Lemma Ok_inj {A} (a b : A) : Ok a = Ok b -> a = b.
Proof. intros H. now injection H. Qed.

Lemma upper_of_ok uniq u ts :
  Z.of_nat (length uniq) < 2^32 ->
  Forall triplet_in_range ts ->
  Forall (fun t => resolved uniq t.1.1 /\ resolved uniq t.1.2) ts ->
  Forall (entry_ok uniq) (upper_of uniq u ts).
Proof.
  intros Hlen Hrange Hres. unfold upper_of. apply List.Forall_forall. intros e He.
  apply in_map_iff in He as (t & <- & Ht). apply filter_In in Ht as [Hin _].
  rewrite List.Forall_forall in Hrange, Hres.
  destruct (Hres t Hin) as [Ha Hb]. destruct (Hrange t Hin) as (_ & _ & Hw).
  destruct (cidx_resolved uniq _ Hlen Ha) as (Ha0 & Han & _).
  destruct (cidx_resolved uniq _ Hlen Hb) as (Hb0 & Hbn & _).
  pose proof (cidx_range uniq t.1.1). pose proof (cidx_range uniq t.1.2).
  unfold entry_ok, hi. cbn [fst snd]. repeat split; try assumption; lia.
Qed.

Lemma loops_of_ok uniq ts :
  Z.of_nat (length uniq) < 2^32 ->
  Forall triplet_in_range ts ->
  Forall (fun t => resolved uniq t.1.1 /\ resolved uniq t.1.2) ts ->
  Forall (entry_ok uniq) (loops_of uniq ts).
Proof.
  intros Hlen Hrange Hres. unfold loops_of. apply List.Forall_forall. intros e He.
  apply in_map_iff in He as (t & <- & Ht). apply filter_In in Ht as [Hin _].
  rewrite List.Forall_forall in Hrange, Hres.
  destruct (Hres t Hin) as [Ha Hb]. destruct (Hrange t Hin) as (_ & _ & Hw).
  destruct (cidx_resolved uniq _ Hlen Ha) as (Ha0 & Han & _).
  pose proof (cidx_range uniq t.1.1).
  unfold entry_ok. cbn [fst snd]. repeat split; try assumption; lia.
Qed.

Lemma orig_at_range (orig : list Z) (i : Z) :
  Forall (fun x => 0 <= x < 2^32) orig -> 0 <= orig_at orig i < 2^32.
Proof.
  intros Hall. unfold orig_at.
  destruct (Nat.lt_ge_cases (Z.to_nat i) (length orig)) as [Hlt|Hge].
  - rewrite List.Forall_forall in Hall. apply Hall. now apply nth_In.
  - rewrite nth_overflow by assumption. lia.
Qed.

Lemma entry_triplets_range orig i es :
  Forall (fun x => 0 <= x < 2^32) orig -> Forall (entry_ok orig) es ->
  Forall triplet_in_range (entry_triplets orig i es).
Proof.
  intros Horig Hes. unfold entry_triplets. apply Forall_map.
  eapply Forall_impl; [exact Hes|]. intros e (_ & _ & Hw).
  unfold triplet_in_range. cbn [fst snd].
  repeat split; try apply orig_at_range; try assumption; lia.
Qed.

Lemma loop_triplets_range orig es :
  Forall (fun x => 0 <= x < 2^32) orig -> Forall (entry_ok orig) es ->
  Forall triplet_in_range (loop_triplets orig es).
Proof.
  intros Horig Hes. unfold loop_triplets. apply Forall_map.
  eapply Forall_impl; [exact Hes|]. intros e (_ & _ & Hw).
  unfold triplet_in_range. cbn [fst snd].
  repeat split; try apply orig_at_range; try assumption; lia.
Qed.

Lemma Forall_flat_map_seq {B} (P : B -> Prop) (f : nat -> list B) (n : nat) :
  (forall u, (u < n)%nat -> Forall P (f u)) -> Forall P (flat_map f (seq 0 n)).
Proof.
  intros H. apply List.Forall_forall. intros x Hx.
  apply in_flat_map in Hx as (u & Hu & Hx). apply in_seq in Hu.
  specialize (H u ltac:(lia)). rewrite List.Forall_forall in H. now apply H.
Qed.

(** For an input of fewer than [2^31] lines whose binary passes the size
    check, the binary is read back as the text of [decoded_triplets], which
    scans as these triplets, and they are the edges of the input up to
    order and to the order of the endpoints. *)
Lemma roundtrip_past_size_check (sort : list (Z * Z) -> list (Z * Z))
    (data out : list byte) (ts : list (Z * Z * Z)) :
  std_sort_contract sort ->
  TSVScanner.for_each_triplet data = Ok ts ->
  Z.of_nat (length ts) < 2^31 ->
  Serializer.run sort data = Ok out ->
  (18 <= length out)%nat ->
  exists g : Serializer.tables,
    Serializer.build sort ts = Ok g
    /\ Deserializer.run out = Ok (text_of (decoded_triplets ts g))
    /\ TSVScanner.for_each_triplet (text_of (decoded_triplets ts g))
       = Ok (decoded_triplets ts g)
    /\ Permutation (map canon (decoded_triplets ts g)) (map canon ts).
Proof.
  intros Hsort Hscan Hbound Hrun Hsize.
  pose proof (for_each_triplet_range data ts Hscan) as Hrange.
  unfold Serializer.run in Hrun. rewrite Hscan in Hrun. cbn [bind] in Hrun.
  destruct ts as [|t0 ts0]; [injection Hrun as <-; vm_compute in Hsize; lia|].
  set (ts := t0 :: ts0) in *.
  apply bind_Ok in Hrun as (g & Hbuild & Hemit).
  exists g. split; [assumption|].
  destruct (build_Ok sort ts g Hsort ltac:(lia) Hbuild)
    as (Huniq & Hoff & Hln & Hlw & Hall & Hlp & Hls).
  pose proof (build_resolved sort ts g Hbuild) as Hres.
  pose proof (uniq_length ts) as Hul. pose proof (uniq_range ts Hrange) as Hur.
  rewrite <- Huniq in Hoff, Hln, Hlw, Hall, Hlp, Hul, Hur.
  set (uniq := Serializer.uniq g) in *.
  assert (Hlen : Z.of_nat (length uniq) < 2^32) by lia.
  assert (HN : Serializer.N_of g = Z.of_nat (length uniq)).
  { unfold Serializer.N_of. fold uniq. apply wrap32_small. lia. }
  rewrite HN, Nat2Z.id in Hoff, Hln, Hlw, Hall.
  assert (Hentries : forall u : nat, (u < length uniq)%nat ->
             Forall (entry_ok uniq)
               (range_entries uniq ts (Serializer.upper_nei g) (Serializer.upper_w g)
                  (Z.of_nat u))).
  { intros u Hu. eapply Permutation_Forall; [symmetry; apply (Hall u Hu)|].
    now apply upper_of_ok. }
  assert (Hloops : Forall (entry_ok uniq) (Serializer.loops g)).
  { eapply Permutation_Forall; [symmetry; exact Hlp|]. now apply loops_of_ok. }
  split; [|split].
  - (* reading the binary *)
    unfold Serializer.emit in Hemit. rewrite HN in Hemit. fold uniq in Hemit.
    apply bind_Ok in Hemit as (mapping & Hmap & H1).
    apply bind_Ok in H1 as (adjacency & Hadj & H2). apply Ok_inj in H2. subst out.
    rewrite Nat2Z.id in Hadj.
    change Serializer.header with (file_header 2) in *.
    rewrite length_app in Hsize. change (length (file_header 2)) with 6%nat in Hsize.
    rewrite run_after_header by (auto; lia).
    rewrite read_counts_v2 by (try apply wrap64_range; lia).
    rewrite wrap32_small by lia. cbn [bind]. unfold Deserializer.read_body.
    rewrite (read_mapping_v2_emitted uniq mapping _ Hur Hmap). cbn [bind].
    rewrite Nat2Z.id.
    change 0 with (Z.of_nat 0) in Hadj at 1.
    rewrite (read_adjacency_emitted uniq _ _ _
               (fun u => range_entries uniq ts (Serializer.upper_nei g)
                           (Serializer.upper_w g) (Z.of_nat u))
               _ _ 0 adjacency Hadj).
    + cbn [bind].
      assert (HL : 0 <= Z.of_nat (length (Serializer.loops g)) < 2^64).
      { rewrite (Permutation_length Hlp). unfold loops_of. rewrite length_map.
        pose proof (filter_length_le (is_loop uniq) ts). lia. }
      rewrite (varu_read_written _ _ HL). cbn [bind]. rewrite Nat2Z.id.
      rewrite <- (app_nil_r (Serializer.emit_entries 0 (Serializer.loops g))).
      rewrite read_loops_emitted by assumption. cbn [bind].
      unfold decoded_triplets. fold uniq. now rewrite text_of_app.
    + intros u Hu. cbn [Nat.add] in Hu.
      pose proof (count_below_range uniq (Z.of_nat u) ts) as Hb.
      pose proof (count_upper_range uniq (Z.of_nat u) ts) as Hc.
      exists (count_below uniq (Z.of_nat u) ts), (count_below uniq (Z.of_nat (S u)) ts).
      replace (Z.of_nat (S u)) with (Z.of_nat u + 1) by lia.
      rewrite count_below_succ.
      replace (count_below uniq (Z.of_nat u) ts + count_upper uniq (Z.of_nat u) ts
               - count_below uniq (Z.of_nat u) ts)
        with (count_upper uniq (Z.of_nat u) ts) by lia.
      repeat split; try lia.
      * apply Hoff. lia.
      * rewrite <- count_below_succ. replace (Z.of_nat u + 1) with (Z.of_nat (S u)) by lia.
        apply Hoff. lia.
      * rewrite (Permutation_length (proj1 (Hall u ltac:(lia)))).
        pose proof (length_upper_of uniq (Z.of_nat u) ts). lia.
      * apply Hentries. lia.
  - (* scanning the text *)
    apply scan_text_of. unfold decoded_triplets. fold uniq. apply Forall_app. split.
    + apply Forall_flat_map_seq. intros u Hu.
      apply entry_triplets_range; [assumption|now apply Hentries].
    + now apply loop_triplets_range.
  - (* the multisets *)
    unfold decoded_triplets. fold uniq. rewrite map_app.
    etransitivity; [|apply Permutation_map, (split_by_vertex uniq (length uniq))].
    + rewrite map_app. apply Permutation_app.
      * rewrite !flat_map_concat_map, !concat_map, !map_map.
        rewrite <- !flat_map_concat_map.
        apply flat_map_pointwise. intros u Hu. apply in_seq in Hu.
        rewrite <- map_canon_entry_triplets by assumption.
        apply Permutation_map. unfold entry_triplets. apply Permutation_map.
        apply Hall. lia.
      * rewrite <- map_canon_loop_triplets by assumption.
        apply Permutation_map. unfold loop_triplets. now apply Permutation_map.
    + rewrite List.Forall_forall in Hres. apply List.Forall_forall. intros t Ht Hnl.
      destruct (Hres t Ht) as [Ha Hb].
      destruct (cidx_resolved uniq _ Hlen Ha) as (Ha0 & Han & _).
      destruct (cidx_resolved uniq _ Hlen Hb) as (Hb0 & Hbn & _).
      unfold lo. lia.
Qed.

(** * The buffer of the writers *)

Lemma Buffer_flush_content (w : Buffer.state) :
  Buffer.file (Buffer.flush w) ++ Buffer.buf (Buffer.flush w)
  = Buffer.file w ++ Buffer.buf w.
Proof.
  unfold Buffer.flush. destruct (Buffer.buf w) eqn:E; cbn; [now rewrite E|].
  now rewrite app_nil_r.
Qed.

Lemma Buffer_put_content (b : byte) (w : Buffer.state) :
  Buffer.file (Buffer.put b w) ++ Buffer.buf (Buffer.put b w)
  = Buffer.file w ++ Buffer.buf w ++ [b].
Proof.
  unfold Buffer.put.
  destruct (2 ^ 20 <=? _); [now rewrite Buffer_flush_content|reflexivity].
Qed.

Lemma Buffer_puts_content (s : list byte) : forall w,
  Buffer.file (Buffer.puts s w) ++ Buffer.buf (Buffer.puts s w)
  = Buffer.file w ++ Buffer.buf w ++ s.
Proof.
  unfold Buffer.puts. induction s as [|b s IH]; intros w; cbn [fold_left].
  - now rewrite app_nil_r.
  - rewrite IH, app_assoc, Buffer_put_content, <- !app_assoc. reflexivity.
Qed.

Lemma Buffer_flush_empties (w : Buffer.state) :
  Buffer.buf (Buffer.flush w) = [].
Proof. unfold Buffer.flush. now destruct (Buffer.buf w) eqn:E. Qed.

Lemma Buffer_put_blocks (b : byte) (w : Buffer.state) :
  Buffer_blocks w -> Buffer_blocks (Buffer.put b w).
Proof.
  intros [Hf Hb]. unfold Buffer.put, Buffer_blocks.
  destruct (Z.leb_spec (2 ^ 20) (Z.of_nat (length (Buffer.buf (Buffer.State (Buffer.file w) (Buffer.buf w ++ [b]))))))
    as [Hge|Hlt]; cbn [Buffer.buf Buffer.file] in *.
  - rewrite length_app in Hge. cbn [length] in Hge.
    unfold Buffer.flush. cbn [Buffer.buf Buffer.file].
    destruct (Buffer.buf w ++ [b]) eqn:E.
    + now destruct (Buffer.buf w).
    + cbn [Buffer.buf Buffer.file]. rewrite <- E, !length_app. cbn [length].
      split; [|lia].
      assert (Hn : Z.of_nat (length (Buffer.buf w)) = 2 ^ 20 - 1) by lia.
      replace (Z.of_nat (length (Buffer.file w) + (length (Buffer.buf w) + 1)))
        with (Z.of_nat (length (Buffer.file w)) + 1 * 2 ^ 20) by lia.
      now rewrite Z_mod_plus_full.
  - split; [exact Hf|exact Hlt].
Qed.

Lemma Buffer_puts_blocks (s : list byte) : forall w,
  Buffer_blocks w -> Buffer_blocks (Buffer.puts s w).
Proof.
  unfold Buffer.puts. induction s as [|b s IH]; intros w Hw; cbn [fold_left]; [exact Hw|].
  apply IH, Buffer_put_blocks, Hw.
Qed.

(** X1.  Whatever was in the file and in the buffer, after the bytes [s] are
    put and the writer is destroyed the file holds the old file content, the
    old buffer and [s], in this order: nothing is lost, doubled or
    reordered by the flushes in between. *)
Theorem Buffer_close_writes_all (s : list byte) (w : Buffer.state) :
  Buffer.close (Buffer.puts s w) = Buffer.file w ++ Buffer.buf w ++ s.
Proof.
  unfold Buffer.close.
  rewrite <- Buffer_puts_content, <- Buffer_flush_content.
  now rewrite Buffer_flush_empties, app_nil_r.
Qed.

(** X2.  Before the destructor runs, the file of a fresh writer holds whole
    blocks of [2^20] bytes only: after the bytes [s], the first
    [2^20 * (|s| / 2^20)] of them are in the file and the rest, fewer than
    [2^20], is still in the buffer.  A run that ends in [die] therefore
    leaves a file cut at a block boundary. *)
Theorem Buffer_whole_blocks (s : list byte) :
  let n := Z.to_nat (2 ^ 20 * (Z.of_nat (length s) / 2 ^ 20)) in
  Buffer.file (Buffer.puts s Buffer.open) = take n s
  /\ Buffer.buf (Buffer.puts s Buffer.open) = drop n s
  /\ Z.of_nat (length (Buffer.buf (Buffer.puts s Buffer.open))) < 2 ^ 20.
Proof.
  intros n.
  pose proof (Buffer_puts_content s Buffer.open) as Hc. cbn in Hc.
  assert (Hb : Buffer_blocks (Buffer.puts s Buffer.open)).
  { apply Buffer_puts_blocks. split; cbn; [reflexivity|lia]. }
  destruct Hb as [Hf Hb].
  set (w := Buffer.puts s Buffer.open) in *.
  assert (Hlen : length s = (length (Buffer.file w) + length (Buffer.buf w))%nat).
  { now rewrite <- Hc, length_app. }
  assert (Hn : n = length (Buffer.file w)).
  { subst n. rewrite Hlen.
    apply Z.mod_divide in Hf; [|lia]. destruct Hf as [k Hk].
    rewrite Nat2Z.inj_add, Hk.
    replace (k * 2 ^ 20 + Z.of_nat (length (Buffer.buf w)))
      with (Z.of_nat (length (Buffer.buf w)) + k * 2 ^ 20) by lia.
    rewrite Z_div_plus_full by lia.
    rewrite Z.div_small by lia. rewrite Z.add_0_l, Z.mul_comm, <- Hk.
    apply Nat2Z.id. }
  rewrite Hn, <- Hc. split; [|split].
  - now rewrite take_app_length.
  - now rewrite drop_app_length.
  - exact Hb.
Qed.

(** * The command line *)

Lemma CLI_from_cons f f' a args : CLI_from f f' args -> CLI_from f f' (a :: args).
Proof.
  unfold CLI_from. intros (H1 & H2 & H3 & H4). cbn [In]. tauto.
Qed.

Lemma parse_args_from (args : list string) :
  (forall f f', CLI.parse_args args f = inl f' -> CLI_from f f' args)
  /\ (forall a f f', CLI.parse_args (a :: args) f = inl f' -> CLI_from f f' (a :: args)).
Proof.
  induction args as [|x l [IH1 IH2]].
  - split.
    + intros f f' H. cbn in H. injection H as <-. unfold CLI_from. tauto.
    + intros a f f' H. cbn in H.
      destruct (String.eqb_spec a "-s") as [->|_].
      { injection H as <-. unfold CLI_from. cbn. tauto. }
      destruct (String.eqb_spec a "-d") as [->|_].
      { injection H as <-. unfold CLI_from. cbn. tauto. }
      destruct (String.eqb a "-i"); [discriminate|].
      destruct (String.eqb a "-o"); discriminate.
  - split; [exact (IH2 x)|].
    intros a f f' H. cbn [CLI.parse_args] in H.
    destruct (String.eqb_spec a "-s") as [->|_].
    { apply IH2 in H. destruct H as (H1 & H2 & H3 & H4).
      unfold CLI_from in *. cbn [CLI.mode_s CLI.mode_d CLI.in_path CLI.out_path In] in *.
      tauto. }
    destruct (String.eqb_spec a "-d") as [->|_].
    { apply IH2 in H. destruct H as (H1 & H2 & H3 & H4).
      unfold CLI_from in *. cbn [CLI.mode_s CLI.mode_d CLI.in_path CLI.out_path In] in *.
      tauto. }
    destruct (String.eqb_spec a "-i") as [->|_].
    { apply IH1 in H. destruct H as (H1 & H2 & H3 & H4).
      unfold CLI_from in *. cbn [CLI.mode_s CLI.mode_d CLI.in_path CLI.out_path In] in *.
      repeat split; try tauto.
      destruct H3 as [->|[? ?]]; tauto. }
    destruct (String.eqb_spec a "-o") as [->|_]; [|discriminate].
    apply IH1 in H. destruct H as (H1 & H2 & H3 & H4).
    unfold CLI_from in *. cbn [CLI.mode_s CLI.mode_d CLI.in_path CLI.out_path In] in *.
    repeat split; try tauto.
    destruct H4 as [->|[? ?]]; tauto.
Qed.

Lemma main_runs fe args f :
  CLI.parse_args args (CLI.Flags false false "" "") = inl f ->
  (S (length args) <? 6)%nat = false ->
  Bool.eqb (CLI.mode_s f) (CLI.mode_d f) = false ->
  String.eqb (CLI.in_path f) "" || String.eqb (CLI.out_path f) "" = false ->
  fe (CLI.in_path f) = true ->
  CLI.main fe args
  = if CLI.mode_s f then CLI.RunSerializer (CLI.in_path f) (CLI.out_path f)
    else CLI.RunDeserializer (CLI.in_path f) (CLI.out_path f).
Proof.
  intros Hp Hl Hm He Hf. unfold CLI.main. rewrite Hl, Hp, Hm, He, Hf.
  now destruct (CLI.mode_s f).
Qed.

Lemma main_run_inv fe args (s : bool) i o :
  CLI.main fe args
  = (if s then CLI.RunSerializer i o else CLI.RunDeserializer i o) ->
  exists f,
    CLI.parse_args args (CLI.Flags false false "" "") = inl f
    /\ (5 <= length args)%nat
    /\ CLI.mode_s f = s /\ CLI.mode_d f = negb s
    /\ CLI.in_path f = i /\ CLI.out_path f = o
    /\ i <> ""%string /\ o <> ""%string /\ fe i = true.
Proof.
  unfold CLI.main. intros H.
  destruct (Nat.ltb_spec (S (length args)) 6) as [Hl|Hl]; [now destruct s|].
  destruct (CLI.parse_args args _) as [f|a] eqn:Hp; [|now destruct s].
  exists f.
  destruct (Bool.eqb (CLI.mode_s f) (CLI.mode_d f)) eqn:Hm; [now destruct s|].
  destruct (String.eqb_spec (CLI.in_path f) "") as [|Hi]; [now destruct s|].
  destruct (String.eqb_spec (CLI.out_path f) "") as [|Ho]; [now destruct s|].
  cbn [orb] in H.
  destruct (CLI.mode_s f) eqn:Hs, (CLI.mode_d f) eqn:Hd; try discriminate Hm;
    destruct (fe (CLI.in_path f)) eqn:Hf; destruct s; try discriminate H;
    injection H as <- <-; repeat split; auto; lia.
Qed.

(** X3.  [main] starts the serializer only on a command line of at least
    five arguments that holds [-s], [-i] and [-o], with both paths among the
    arguments and not empty and the input path existing; and the
    deserializer likewise with [-d].  No run is started on anything else. *)
Theorem main_dispatch_sound (fe : string -> bool) (args : list string)
    (s : bool) (i o : string) :
  CLI.main fe args
  = (if s then CLI.RunSerializer i o else CLI.RunDeserializer i o) ->
  (5 <= length args)%nat
  /\ In (if s then "-s" else "-d")%string args
  /\ In "-i"%string args /\ In i args
  /\ In "-o"%string args /\ In o args
  /\ i <> ""%string /\ o <> ""%string /\ fe i = true.
Proof.
  intros H. apply main_run_inv in H.
  destruct H as (f & Hp & Hl & Hs & Hd & Hi & Ho & Hni & Hno & Hf).
  apply (proj1 (parse_args_from args)) in Hp.
  destruct Hp as (H1 & H2 & H3 & H4).
  cbn [CLI.mode_s CLI.mode_d CLI.in_path CLI.out_path] in *.
  rewrite Hi in H3. rewrite Ho in H4.
  assert (Hmode : In (if s then "-s" else "-d")%string args).
  { destruct s; cbn in Hd.
    - destruct (H1 Hs) as [?|?]; [discriminate|assumption].
    - destruct (H2 Hd) as [?|?]; [discriminate|assumption]. }
  destruct H3 as [E|[? ?]]; [congruence|].
  destruct H4 as [E|[? ?]]; [congruence|].
  repeat split; assumption.
Qed.

Lemma main_dispatch_sound_witness :
  CLI.main (fun _ => true) ["-s"; "-i"; "a.tsv"; "-o"; "a.bin"]%string
  = CLI.RunSerializer "a.tsv" "a.bin"
  /\ In "a.tsv"%string ["-s"; "-i"; "a.tsv"; "-o"; "a.bin"]%string.
Proof.
  split; [reflexivity|].
  apply (main_dispatch_sound (fun _ => true)
           ["-s"; "-i"; "a.tsv"; "-o"; "a.bin"]%string true "a.tsv" "a.bin").
  reflexivity.
Defined.

(** X4.  The mode and the two paths may come in any order: on the three
    groups [-s] (or [-d]), [-i <in>] and [-o <out>], in whatever order, with
    paths that are not empty and an input that exists, [main] starts the
    run of that mode on these paths, whatever the paths look like. *)
Theorem main_accepts_any_order (fe : string -> bool) (s : bool) (i o : string)
    (groups : list (list string)) :
  Permutation groups
    [[if s then "-s" else "-d"]; ["-i"; i]; ["-o"; o]]%string ->
  i <> ""%string -> o <> ""%string -> fe i = true ->
  CLI.main fe (concat groups)
  = if s then CLI.RunSerializer i o else CLI.RunDeserializer i o.
Proof.
  intros Hperm Hi Ho Hf.
  assert (Hlen : length groups = 3%nat) by now rewrite (Permutation_length Hperm).
  assert (Hnd : List.NoDup groups).
  { apply (Permutation_NoDup (Permutation_sym Hperm)).
    repeat constructor; cbn; intros H;
      repeat (destruct H as [H|H]; [destruct s; discriminate H|]); exact H. }
  assert (Hin : forall g, In g groups ->
            g = [if s then "-s" else "-d"]%string \/ g = ["-i"; i]%string
            \/ g = ["-o"; o]%string).
  { intros g Hg. apply (Permutation_in _ Hperm) in Hg. cbn in Hg.
    intuition congruence. }
  destruct groups as [|x [|y [|z [|? ?]]]]; try discriminate Hlen.
  apply NoDup_cons_iff in Hnd. destruct Hnd as [Hx Hnd].
  apply NoDup_cons_iff in Hnd. destruct Hnd as [Hy _].
  cbn [In] in Hx, Hy.
  assert (Hi' : String.eqb i "" = false) by now apply String.eqb_neq.
  assert (Ho' : String.eqb o "" = false) by now apply String.eqb_neq.
  destruct (Hin x) as [->|[->| ->]]; [now left|..];
    (destruct (Hin y) as [->|[->| ->]]; [right; now left|..]);
    (destruct (Hin z) as [->|[->| ->]]; [right; right; now left|..]);
    try (exfalso; tauto);
    destruct s; unfold CLI.main; cbn; rewrite ?Hi', ?Ho'; cbn; rewrite ?Hf;
    reflexivity.
Qed.

Lemma main_accepts_any_order_witness :
  CLI.main (fun _ => true) ["-o"; "-s"; "-i"; "-d"; "-s"]%string
  = CLI.RunSerializer "-d" "-s".
Proof.
  apply (main_accepts_any_order (fun _ => true) true "-d" "-s"
           [["-o"; "-s"]; ["-i"; "-d"]; ["-s"]]%string).
  - apply perm_trans with [["-s"]; ["-o"; "-s"]; ["-i"; "-d"]]%string.
    + apply Permutation_sym, (Permutation_cons_append [["-o"; "-s"]; ["-i"; "-d"]]%string).
    + apply perm_skip, perm_swap.
  - discriminate.
  - discriminate.
  - reflexivity.
Defined.

(** * The scanner on lines of numerals *)

Lemma decimal_step_mono (ds : list byte) :
  forall x : Z,
    Forall (fun b => digit b = true) ds -> 0 <= x ->
    x <= fold_left (fun x b => x * 10 + (byte_val b - 48)) ds x.
Proof.
  induction ds as [|b ds IH]; intros x Hds Hx; cbn [fold_left]; [lia|].
  inversion Hds as [|? ? Hb Hds']; subst.
  unfold digit in Hb. apply andb_true_iff in Hb as [H1 H2]. apply Z.leb_le in H1, H2.
  etransitivity; [|apply IH; [assumption|lia]]. lia.
Qed.

Lemma last_cons_default {A} (l : list A) (a d : A) :
  List.last (a :: l) d = List.last l a.
Proof.
  revert a d. induction l as [|b l IH]; intros a d; [reflexivity|].
  change (List.last (a :: b :: l) d) with (List.last (b :: l) d).
  now rewrite !IH.
Qed.

(** The loop of [parse_u32_until] over a string of digits. *)
Lemma parse_loop_digits (delim : Z) (ds : list byte) :
  forall (x : Z) (any : bool) (last : Z) (tail : list byte),
    Forall (fun b => digit b = true) ds -> 0 <= x <= 4294967295 ->
    TSVScanner.parse_loop delim (ds ++ tail) x any last
    = if 4294967295 <? fold_left (fun x b => x * 10 + (byte_val b - 48)) ds x
      then None
      else TSVScanner.parse_loop delim tail
             (fold_left (fun x b => x * 10 + (byte_val b - 48)) ds x)
             (any || negb (Nat.eqb (length ds) 0))
             (List.last (map byte_val ds) last).
Proof.
  induction ds as [|b ds IH]; intros x any last tail Hds Hx.
  - cbn [fold_left app length Nat.eqb negb map List.last]. rewrite orb_false_r.
    destruct (Z.ltb_spec 4294967295 x); [lia|reflexivity].
  - inversion Hds as [|? ? Hb Hds']; subst.
    cbn [app TSVScanner.parse_loop fold_left]. unfold digit in Hb. rewrite Hb.
    apply andb_true_iff in Hb as [H1 H2]. apply Z.leb_le in H1, H2.
    destruct (Z.ltb_spec 4294967295 (x * 10 + (byte_val b - 48))) as [Hbig|Hsmall].
    + pose proof (decimal_step_mono ds (x * 10 + (byte_val b - 48)) Hds' ltac:(lia)).
      destruct (Z.ltb_spec 4294967295
                  (fold_left (fun x b => x * 10 + (byte_val b - 48)) ds
                     (x * 10 + (byte_val b - 48)))); [reflexivity|lia].
    + rewrite IH by (try assumption; lia).
      cbn [length Nat.eqb negb map]. rewrite last_cons_default, orb_true_r.
      now destruct (length ds); cbn [Nat.eqb negb]; rewrite ?orb_true_r, ?orb_false_r.
Qed.

Lemma numeral_last_digit (ds : list byte) (d : Z) :
  numeral ds -> 48 <= List.last (map byte_val ds) d <= 57.
Proof.
  intros [Hne Hds]. induction Hds as [|b ds Hb Hds IH]; [congruence|].
  cbn [map]. rewrite last_cons_default.
  unfold digit in Hb. apply andb_true_iff in Hb as [H1 H2]. apply Z.leb_le in H1, H2.
  destruct ds as [|c ds]; [cbn; lia|].
  cbn [map]. rewrite last_cons_default. cbn [map] in IH.
  rewrite last_cons_default in IH. apply IH. discriminate.
Qed.

(** A numeral before its delimiter. *)
Lemma parse_numeral_delim (delim c : Z) (ds rest : list byte) :
  numeral ds ->
  (c = delim \/ (delim = TSVScanner.LF /\ c = TSVScanner.CR)) ->
  (c = TSVScanner.TAB \/ c = TSVScanner.LF \/ c = TSVScanner.CR) ->
  TSVScanner.parse_u32_until delim (ds ++ u8 c :: rest)
  = if 4294967295 <? decimal ds then None else Some (decimal ds, rest, c).
Proof.
  intros [Hne Hds] Hc Hc'. unfold TSVScanner.parse_u32_until, decimal.
  rewrite parse_loop_digits by (try assumption; lia).
  destruct (4294967295 <? _); [reflexivity|].
  cbn [TSVScanner.parse_loop orb]. rewrite byte_val_u8.
  assert (Hv : wrap8 c = c).
  { apply wrap8_small. unfold TSVScanner.TAB, TSVScanner.LF, TSVScanner.CR in Hc'. lia. }
  rewrite Hv.
  assert (Hnd : (48 <=? c) && (c <=? 57) = false).
  { unfold TSVScanner.TAB, TSVScanner.LF, TSVScanner.CR in Hc'.
    destruct Hc' as [->|[->| ->]]; reflexivity. }
  rewrite Hnd.
  assert (Hany : negb (Nat.eqb (length ds) 0) = true) by (now destruct ds).
  rewrite Hany.
  destruct Hc as [->|[-> ->]]; [now rewrite Z.eqb_refl|reflexivity].
Qed.

(** A numeral at the end of the file. *)
Lemma parse_numeral_eof (delim : Z) (ds : list byte) :
  numeral ds ->
  TSVScanner.parse_u32_until delim ds
  = if 4294967295 <? decimal ds then None
    else Some (decimal ds, [], List.last (map byte_val ds) 0).
Proof.
  intros [Hne Hds]. unfold TSVScanner.parse_u32_until, decimal.
  rewrite <- (app_nil_r ds) at 1.
  rewrite parse_loop_digits by (try assumption; lia).
  destruct (4294967295 <? _); [reflexivity|].
  cbn [TSVScanner.parse_loop orb].
  assert (Hany : negb (Nat.eqb (length ds) 0) = true) by (now destruct ds).
  now rewrite Hany.
Qed.

Lemma scan_newline (c : byte) (q : list byte) :
  newline_char c = true ->
  TSVScanner.for_each_triplet (c :: q)
  = TSVScanner.for_each_triplet (TSVScanner.skip_newline (c :: q)).
Proof.
  intros Hc. unfold TSVScanner.for_each_triplet at 1.
  cbn [TSVScanner.for_each_triplet_loop]. unfold newline_char in Hc. rewrite Hc.
  apply for_each_triplet_fuel.
  pose proof (skip_newline_shorter c q Hc). cbn [length] in *. lia.
Qed.

Lemma digit_not_newline (c : byte) :
  digit c = true ->
  (byte_val c =? TSVScanner.LF) || (byte_val c =? TSVScanner.CR) = false.
Proof.
  unfold digit, TSVScanner.LF, TSVScanner.CR. intros H.
  apply andb_true_iff in H as [H1 H2]. apply Z.leb_le in H1, H2.
  destruct (Z.eqb_spec (byte_val c) 10), (Z.eqb_spec (byte_val c) 13); cbn; lia.
Qed.

Lemma byte_val_LF : byte_val (u8 TSVScanner.LF) = TSVScanner.LF.
Proof. reflexivity. Qed.

(** One round of the scanner on a line of three numerals. *)
Lemma scan_round_numerals (fuel : nat) (A B W term rest : list byte) :
  numeral A -> numeral B -> numeral W -> line_end term rest ->
  (length rest < fuel)%nat ->
  TSVScanner.for_each_triplet_loop (S fuel)
    (A ++ u8 TSVScanner.TAB :: B ++ u8 TSVScanner.TAB :: W ++ term ++ rest)
  = if 4294967295 <? decimal A
    then die "parse error: expected first uint32 before TAB"
    else if 4294967295 <? decimal B
    then die "parse error: expected second uint32 before TAB"
    else if 255 <? decimal W
    then die "parse error: expected weight 0..255 then newline"
    else let* r := TSVScanner.for_each_triplet rest in
         Ok ((decimal A, decimal B, decimal W) :: r).
Proof.
  intros HA HB HW Hend Hfuel.
  destruct A as [|c A']; [now destruct HA|].
  assert (Hc : digit c = true) by (destruct HA as [_ HA]; now inversion HA).
  cbn [app TSVScanner.for_each_triplet_loop]. rewrite (digit_not_newline c Hc).
  change (c :: A' ++ ?t) with ((c :: A') ++ t).
  rewrite (parse_numeral_delim TSVScanner.TAB TSVScanner.TAB) by auto.
  destruct (4294967295 <? decimal (c :: A')); [reflexivity|].
  rewrite (parse_numeral_delim TSVScanner.TAB TSVScanner.TAB) by auto.
  destruct (4294967295 <? decimal B); [reflexivity|].
  assert (Hw8 : decimal W <= 255 -> wrap8 (decimal W) = decimal W).
  { intros Hle. apply wrap8_small. split; [|lia].
    unfold decimal. apply (decimal_step_mono W 0); [apply HW|lia]. }
  destruct Hend as [->|[->|[->|[-> ->]]]]; cbn [app].
  - (* LF *)
    rewrite (parse_numeral_delim TSVScanner.LF TSVScanner.LF) by auto.
    destruct (Z.ltb_spec 4294967295 (decimal W)) as [Hbig|Hsmall].
    { destruct (Z.ltb_spec 255 (decimal W)); [reflexivity|lia]. }
    destruct (Z.ltb_spec 255 (decimal W)) as [|Hle]; [reflexivity|].
    rewrite Hw8 by assumption.
    assert (Hq : match rest with
                 | c' :: q' =>
                     if (TSVScanner.LF =? TSVScanner.CR) && (byte_val c' =? TSVScanner.LF)
                     then q' else rest
                 | [] => rest
                 end = rest) by (now destruct rest).
    rewrite Hq. now rewrite for_each_triplet_fuel.
  - (* CR LF *)
    rewrite (parse_numeral_delim TSVScanner.LF TSVScanner.CR) by auto.
    destruct (Z.ltb_spec 4294967295 (decimal W)) as [Hbig|Hsmall].
    { destruct (Z.ltb_spec 255 (decimal W)); [reflexivity|lia]. }
    destruct (Z.ltb_spec 255 (decimal W)) as [|Hle]; [reflexivity|].
    rewrite Hw8 by assumption. rewrite byte_val_LF, !Z.eqb_refl. cbn [andb].
    now rewrite for_each_triplet_fuel.
  - (* CR *)
    rewrite (parse_numeral_delim TSVScanner.LF TSVScanner.CR) by auto.
    destruct (Z.ltb_spec 4294967295 (decimal W)) as [Hbig|Hsmall].
    { destruct (Z.ltb_spec 255 (decimal W)); [reflexivity|lia]. }
    destruct (Z.ltb_spec 255 (decimal W)) as [|Hle]; [reflexivity|].
    rewrite Hw8 by assumption. rewrite Z.eqb_refl. cbn [andb].
    destruct rest as [|c' q']; [now rewrite for_each_triplet_fuel|].
    destruct (byte_val c' =? TSVScanner.LF) eqn:Hlf.
    + rewrite for_each_triplet_fuel by (cbn [length] in Hfuel; lia).
      rewrite (scan_newline c' q').
      * unfold TSVScanner.skip_newline. apply Z.eqb_eq in Hlf. rewrite Hlf.
        cbn [Z.eqb TSVScanner.LF TSVScanner.CR Pos.eqb]. rewrite Hlf. reflexivity.
      * unfold newline_char. now rewrite Hlf.
    + now rewrite for_each_triplet_fuel.
  - (* the end of the file *)
    rewrite app_nil_r. rewrite (parse_numeral_eof TSVScanner.LF) by auto.
    destruct (Z.ltb_spec 4294967295 (decimal W)) as [Hbig|Hsmall].
    { destruct (Z.ltb_spec 255 (decimal W)); [reflexivity|lia]. }
    destruct (Z.ltb_spec 255 (decimal W)) as [|Hle]; [reflexivity|].
    rewrite Hw8 by assumption.
    now rewrite for_each_triplet_fuel.
Qed.

(** X5.  A line of three numerals separated by tabs and ended by LF, CR LF,
    a lone CR or the end of the file: the scanner dies with the message of
    the first field whose value is above [2^32 - 1] (above 255 for the
    weight), and otherwise yields the three values, leading zeros and all,
    and goes on with the text after the line end. *)
Theorem scan_numeral_line (A B W term rest : list byte) :
  numeral A -> numeral B -> numeral W -> line_end term rest ->
  TSVScanner.for_each_triplet
    (A ++ u8 TSVScanner.TAB :: B ++ u8 TSVScanner.TAB :: W ++ term ++ rest)
  = if 4294967295 <? decimal A
    then die "parse error: expected first uint32 before TAB"
    else if 4294967295 <? decimal B
    then die "parse error: expected second uint32 before TAB"
    else if 255 <? decimal W
    then die "parse error: expected weight 0..255 then newline"
    else let* r := TSVScanner.for_each_triplet rest in
         Ok ((decimal A, decimal B, decimal W) :: r).
Proof.
  intros HA HB HW Hend. unfold TSVScanner.for_each_triplet at 1.
  apply scan_round_numerals; try assumption.
  destruct HA as [Hne _]. destruct A; [congruence|].
  cbn [app length]. rewrite length_app. cbn [length]. rewrite !length_app.
  cbn [length]. rewrite !length_app. lia.
Qed.

Lemma scan_numeral_line_witness :
  TSVScanner.for_each_triplet
    ([x30; x37] ++ u8 TSVScanner.TAB :: [x34; x32; x39; x34; x39; x36; x37; x32; x39; x36]
       ++ u8 TSVScanner.TAB :: [x35] ++ [u8 TSVScanner.CR] ++ [x0a; x31])
  = if 4294967295 <? decimal [x30; x37]
    then die "parse error: expected first uint32 before TAB"
    else if 4294967295 <? decimal [x34; x32; x39; x34; x39; x36; x37; x32; x39; x36]
    then die "parse error: expected second uint32 before TAB"
    else if 255 <? decimal [x35]
    then die "parse error: expected weight 0..255 then newline"
    else let* r := TSVScanner.for_each_triplet [x0a; x31] in
         Ok ((decimal [x30; x37],
              decimal [x34; x32; x39; x34; x39; x36; x37; x32; x39; x36],
              decimal [x35]) :: r).
Proof.
  apply (scan_numeral_line [x30; x37] [x34; x32; x39; x34; x39; x36; x37; x32; x39; x36]
           [x35] [u8 TSVScanner.CR] [x0a; x31]).
  - split; [discriminate|]. repeat constructor.
  - split; [discriminate|]. repeat constructor.
  - split; [discriminate|]. repeat constructor.
  - right. right. left. reflexivity.
Defined.

(** X6.  Blank lines are skipped: a run of CR and LF characters before a
    text changes nothing in what the scanner yields or in how it fails. *)
Theorem scan_blank_lines (nl data : list byte) :
  Forall (fun b => newline_char b = true) nl ->
  TSVScanner.for_each_triplet (nl ++ data) = TSVScanner.for_each_triplet data.
Proof.
  remember (length nl) as n eqn:Hn. revert nl Hn.
  induction n as [n IH] using lt_wf_ind. intros nl Hn Hnl.
  destruct nl as [|c nl]; [reflexivity|].
  inversion Hnl as [|? ? Hc Hnl']; subst. cbn [app length] in *.
  rewrite scan_newline by assumption.
  unfold TSVScanner.skip_newline.
  destruct (byte_val c =? TSVScanner.CR) eqn:Hcr.
  - destruct nl as [|c' nl'].
    + cbn [app]. destruct data as [|d data']; [reflexivity|].
      destruct (byte_val d =? TSVScanner.LF) eqn:Hlf; [|reflexivity].
      rewrite (scan_newline d data') by (unfold newline_char; now rewrite Hlf).
      unfold TSVScanner.skip_newline. apply Z.eqb_eq in Hlf. rewrite Hlf.
      cbn [Z.eqb TSVScanner.LF TSVScanner.CR Pos.eqb]. now rewrite Hlf.
    + cbn [app]. inversion Hnl' as [|? ? Hc' Hnl'']; subst.
      destruct (byte_val c' =? TSVScanner.LF).
      * apply (IH (length nl')); [cbn [length]; lia|reflexivity|assumption].
      * change (c' :: nl' ++ data) with ((c' :: nl') ++ data).
        apply (IH (length (c' :: nl'))); [lia|reflexivity|assumption].
  - unfold newline_char in Hc. rewrite Hcr, orb_false_r in Hc.
    assert (Hq : match c :: nl ++ data with
                 | c0 :: q' => if byte_val c0 =? TSVScanner.LF then q' else c :: nl ++ data
                 | [] => c :: nl ++ data
                 end = nl ++ data) by (now rewrite Hc).
    rewrite Hq. apply (IH (length nl)); [lia|reflexivity|assumption].
Qed.

Lemma scan_blank_lines_witness :
  TSVScanner.for_each_triplet ([x0d; x0d; x0a; x0a] ++ tsv_single_edge)
  = TSVScanner.for_each_triplet tsv_single_edge.
Proof.
  apply (scan_blank_lines [x0d; x0d; x0a; x0a] tsv_single_edge).
  repeat constructor.
Defined.

Lemma parse_loop_consumed (delim : Z) (q : list byte) :
  forall (x : Z) (any : bool) (last x' : Z) (any' : bool) (q' : list byte) (last' : Z),
    delim = TSVScanner.TAB \/ delim = TSVScanner.LF ->
    TSVScanner.parse_loop delim q x any last = Some (x', any', q', last') ->
    exists pre, q = pre ++ q' /\ Forall (fun b => scanner_char b = true) pre.
Proof.
  induction q as [|b q IH]; intros x any last x' any' q' last' Hdelim H.
  - cbn in H. injection H as <- <- <- <-. exists []. split; [reflexivity|constructor].
  - cbn [TSVScanner.parse_loop] in H.
    destruct ((48 <=? byte_val b) && (byte_val b <=? 57)) eqn:Hd.
    + destruct (4294967295 <? x * 10 + (byte_val b - 48)); [discriminate|].
      apply IH in H as (pre & -> & Hpre); [|assumption].
      exists (b :: pre). split; [reflexivity|]. constructor; [|assumption].
      unfold scanner_char, digit. now rewrite Hd.
    + assert (Hb : (byte_val b =? TSVScanner.TAB) || newline_char b = true ->
                   exists pre, b :: q = pre ++ q /\ Forall (fun b => scanner_char b = true) pre).
      { intros Hb. exists [b]. split; [reflexivity|]. constructor; [|constructor].
        unfold scanner_char. rewrite <- orb_assoc, Hb. apply orb_true_r. }
      destruct (byte_val b =? delim) eqn:Heq.
      { injection H as <- <- <- <-. apply Hb. apply Z.eqb_eq in Heq.
        unfold newline_char. rewrite Heq.
        destruct Hdelim as [-> | ->]; reflexivity. }
      destruct ((delim =? TSVScanner.LF)
                && ((byte_val b =? TSVScanner.LF) || (byte_val b =? TSVScanner.CR))) eqn:Hnl;
        [|discriminate].
      injection H as <- <- <- <-. apply Hb. apply andb_true_iff in Hnl as [_ Hnl].
      unfold newline_char. rewrite Hnl. apply orb_true_r.
Qed.

Lemma parse_u32_until_consumed (delim : Z) (q q' : list byte) (x last : Z) :
  delim = TSVScanner.TAB \/ delim = TSVScanner.LF ->
  TSVScanner.parse_u32_until delim q = Some (x, q', last) ->
  exists pre, q = pre ++ q' /\ Forall (fun b => scanner_char b = true) pre.
Proof.
  unfold TSVScanner.parse_u32_until. intros Hdelim H.
  destruct (TSVScanner.parse_loop delim q 0 false 0) as [[[[x0 any0] q0] last0]|] eqn:E;
    [|discriminate].
  destruct any0; [|discriminate]. injection H as <- <- <-.
  now apply (parse_loop_consumed _ _ _ _ _ _ _ _ _ Hdelim E).
Qed.

Lemma newline_scanner_char (c : byte) : newline_char c = true -> scanner_char c = true.
Proof. unfold scanner_char. intros ->. apply orb_true_r. Qed.

Lemma scan_loop_alphabet (fuel : nat) :
  forall (q : list byte) (ts : list (Z * Z * Z)),
    (length q < fuel)%nat ->
    TSVScanner.for_each_triplet_loop fuel q = Ok ts ->
    Forall (fun b => scanner_char b = true) q.
Proof.
  induction fuel as [|fuel IH]; intros q ts Hfuel H; [lia|].
  cbn [TSVScanner.for_each_triplet_loop] in H.
  destruct q as [|c q]; [constructor|].
  destruct ((byte_val c =? TSVScanner.LF) || (byte_val c =? TSVScanner.CR)) eqn:Hnl.
  - pose proof (skip_newline_shorter c q Hnl) as Hshort.
    apply IH in H; [|lia]. revert H. unfold TSVScanner.skip_newline.
    assert (Hc : scanner_char c = true) by now apply newline_scanner_char.
    destruct (byte_val c =? TSVScanner.CR).
    + destruct q as [|c' q']; [intros _; now repeat constructor|].
      destruct (byte_val c' =? TSVScanner.LF) eqn:Hlf; intros H.
      * constructor; [assumption|]. constructor; [|assumption].
        apply newline_scanner_char. unfold newline_char. now rewrite Hlf.
      * now constructor.
    + rewrite orb_false_r in Hnl. rewrite Hnl. intros H. now constructor.
  - destruct (TSVScanner.parse_u32_until TSVScanner.TAB (c :: q)) as [[[a q1] l1]|] eqn:E1;
      [|discriminate].
    destruct (TSVScanner.parse_u32_until TSVScanner.TAB q1) as [[[b q2] l2]|] eqn:E2;
      [|discriminate].
    destruct (TSVScanner.parse_u32_until TSVScanner.LF q2) as [[[w q3] l3]|] eqn:E3;
      [|discriminate].
    destruct (255 <? w); [discriminate|].
    pose proof (parse_u32_until_shorter _ _ _ _ _ E1) as S1.
    pose proof (parse_u32_until_shorter _ _ _ _ _ E2) as S2.
    pose proof (parse_u32_until_shorter _ _ _ _ _ E3) as S3.
    assert (Hlen3 : (length q3 < fuel)%nat) by lia. clear S1 S2 S3 Hfuel.
    apply parse_u32_until_consumed in E1 as (p1 & E1 & P1); [|now left].
    apply parse_u32_until_consumed in E2 as (p2 & E2 & P2); [|now left].
    apply parse_u32_until_consumed in E3 as (p3 & E3 & P3); [|now right].
    apply bind_Ok in H as (r & Hr & _).
    rewrite E1, E2, E3.
    rewrite !Forall_app. repeat split; try assumption.
    clear E1 E2 E3.
    destruct q3 as [|c' q']; [constructor|].
    destruct ((l3 =? TSVScanner.CR) && (byte_val c' =? TSVScanner.LF)) eqn:Hcrlf.
    + apply andb_true_iff in Hcrlf as [_ Hlf].
      constructor.
      * apply newline_scanner_char. unfold newline_char. now rewrite Hlf.
      * apply (IH q' r); [cbn [length] in Hlen3; lia|exact Hr].
    + apply (IH (c' :: q') r); [exact Hlen3|exact Hr].
Qed.

(** X7.  What the scanner takes and what it yields: a text that it scans
    to the end holds nothing but digits, TAB, CR and LF (no sign, no blank,
    no comment or header line), and every triplet that it hands to the
    callback has both ids below [2^32] and the weight below 256. *)
Theorem scan_alphabet_and_range (data : list byte) (ts : list (Z * Z * Z)) :
  TSVScanner.for_each_triplet data = Ok ts ->
  Forall (fun b => scanner_char b = true) data /\ Forall triplet_in_range ts.
Proof.
  intros H. split.
  - apply (scan_loop_alphabet (S (length data)) data ts); [lia|exact H].
  - now apply (for_each_triplet_range data).
Qed.

Lemma scan_alphabet_and_range_witness :
  Forall (fun b => scanner_char b = true) tsv_mixed
  /\ Forall triplet_in_range [(1, 2, 10); (2, 1, 20); (5, 3, 9); (3, 3, 0)].
Proof.
  apply (scan_alphabet_and_range tsv_mixed
           [(1, 2, 10); (2, 1, 20); (5, 3, 9); (3, 3, 0)]).
  reflexivity.
Defined.

Lemma parse_loop_field_size (delim : Z) (q : list byte) :
  forall (x : Z) (any : bool) (last x' : Z) (any' : bool) (q' : list byte) (last' : Z),
    TSVScanner.parse_loop delim q x any last = Some (x', any', q', last') ->
    q' <> [] ->
    (length q' + 1 + (if any then 0 else if any' then 1 else 0) <= length q)%nat.
Proof.
  induction q as [|b q IH]; intros x any last x' any' q' last' H Hne.
  - cbn in H. injection H as <- <- <- <-. congruence.
  - cbn [TSVScanner.parse_loop] in H. cbn [length].
    destruct ((48 <=? byte_val b) && (byte_val b <=? 57)).
    + destruct (4294967295 <? x * 10 + (byte_val b - 48)); [discriminate|].
      apply IH in H; [|assumption]. cbn in H. destruct any, any'; lia.
    + destruct (byte_val b =? delim).
      { injection H as <- <- <- <-. destruct any; lia. }
      destruct ((delim =? TSVScanner.LF)
                && ((byte_val b =? TSVScanner.LF) || (byte_val b =? TSVScanner.CR)));
        [|discriminate].
      injection H as <- <- <- <-. destruct any; lia.
Qed.

Lemma parse_u32_until_field_size (delim : Z) (q q' : list byte) (x last : Z) :
  TSVScanner.parse_u32_until delim q = Some (x, q', last) ->
  q' <> [] -> (length q' + 2 <= length q)%nat.
Proof.
  unfold TSVScanner.parse_u32_until. intros H Hne.
  destruct (TSVScanner.parse_loop delim q 0 false 0) as [[[[x0 any0] q0] last0]|] eqn:E;
    [|discriminate].
  destruct any0; [|discriminate]. injection H as <- <- <-.
  apply (parse_loop_field_size _ _ _ _ _ _ _ _ _ E) in Hne. cbn in Hne. lia.
Qed.

Lemma parse_u32_until_nil (delim : Z) : TSVScanner.parse_u32_until delim [] = None.
Proof. reflexivity. Qed.

Lemma scan_loop_count (fuel : nat) :
  forall (q : list byte) (ts : list (Z * Z * Z)),
    TSVScanner.for_each_triplet_loop fuel q = Ok ts ->
    (5 * length ts <= length q)%nat.
Proof.
  induction fuel as [|fuel IH]; intros q ts H.
  - cbn in H. injection H as <-. cbn. lia.
  - cbn [TSVScanner.for_each_triplet_loop] in H.
    destruct q as [|c q]; [injection H as <-; cbn; lia|].
    destruct ((byte_val c =? TSVScanner.LF) || (byte_val c =? TSVScanner.CR)) eqn:Hnl.
    + pose proof (skip_newline_shorter c q Hnl). apply IH in H. lia.
    + destruct (TSVScanner.parse_u32_until TSVScanner.TAB (c :: q)) as [[[a q1] l1]|] eqn:E1;
        [|discriminate].
      destruct (TSVScanner.parse_u32_until TSVScanner.TAB q1) as [[[b q2] l2]|] eqn:E2;
        [|discriminate].
      destruct (TSVScanner.parse_u32_until TSVScanner.LF q2) as [[[w q3] l3]|] eqn:E3;
        [|discriminate].
      destruct (255 <? w); [discriminate|].
      apply bind_Ok in H as (r & Hr & Hts). injection Hts as <-.
      assert (Hq1 : q1 <> []) by (intros ->; now rewrite parse_u32_until_nil in E2).
      assert (Hq2 : q2 <> []) by (intros ->; now rewrite parse_u32_until_nil in E3).
      apply parse_u32_until_field_size in E1; [|assumption].
      apply parse_u32_until_field_size in E2; [|assumption].
      apply parse_u32_until_shorter in E3.
      apply IH in Hr. cbn [length] in *.
      destruct q3 as [|c' q']; [lia|].
      destruct ((l3 =? TSVScanner.CR) && (byte_val c' =? TSVScanner.LF));
        cbn [length] in *; lia.
Qed.

(** X8.  Every edge line takes at least five bytes of the text (a digit,
    a tab, a digit, a tab, a digit), so a text of fewer than [5 * 2^31]
    bytes, ten GiB, scans to fewer than [2^31] lines. *)
Theorem scan_line_count (data : list byte) (ts : list (Z * Z * Z)) :
  TSVScanner.for_each_triplet data = Ok ts ->
  (5 * length ts <= length data)%nat.
Proof. apply scan_loop_count. Qed.

Lemma scan_line_count_witness :
  (5 * length [(1, 2, 10); (2, 1, 20); (5, 3, 9); (3, 3, 0)] <= length tsv_mixed)%nat.
Proof.
  apply (scan_line_count tsv_mixed [(1, 2, 10); (2, 1, 20); (5, 3, 9); (3, 3, 0)]).
  reflexivity.
Defined.

(** * The fixed-width fields and the varint reader *)

Lemma u64le_read_written (x : Z) (rest : list byte) :
  0 <= x < 2^64 ->
  BinReader.u64le (BinWriter.u64le x ++ rest) = Ok (x, rest).
Proof.
  intros Hx. unfold BinWriter.u64le, BinWriter.put. cbn [flat_map app].
  unfold BinReader.u64le. cbn [BinReader.has length Nat.leb take drop BinReader.u64le_loop].
  rewrite take_0, drop_0. cbn [BinReader.u64le_loop].
  rewrite !byte_val_put_land. f_equal. f_equal.
  change (8 * 0) with 0. change (8 * (0 + 1)) with 8.
  change (8 * (0 + 1 + 1)) with 16. change (8 * (0 + 1 + 1 + 1)) with 24.
  change (8 * (0 + 1 + 1 + 1 + 1)) with 32. change (8 * (0 + 1 + 1 + 1 + 1 + 1)) with 40.
  change (8 * (0 + 1 + 1 + 1 + 1 + 1 + 1)) with 48.
  change (8 * (0 + 1 + 1 + 1 + 1 + 1 + 1 + 1)) with 56.
  change (8 * 1) with 8. change (8 * 2) with 16. change (8 * 3) with 24.
  change (8 * 4) with 32. change (8 * 5) with 40. change (8 * 6) with 48.
  change (8 * 7) with 56.
  apply Z.bits_inj'. intros n Hn.
  rewrite !Z.lor_spec, Z.bits_0, orb_false_l.
  rewrite !testbit_byte_at by lia.
  destruct (Z.ltb_spec n 64) as [Hlt|Hge].
  - destruct (Z.testbit x n); [|reflexivity]. cbn [andb].
    repeat match goal with
           | |- context [?a <=? ?b] => destruct (Z.leb_spec a b); try lia
           | |- context [?a <? ?b] => destruct (Z.ltb_spec a b); try lia
           end; reflexivity.
  - rewrite (Z.bits_above_log2 x n); [reflexivity|lia|].
    destruct (Z.eq_dec x 0) as [->|]; [simpl; lia|].
    apply Z.lt_le_trans with 64; [|assumption]. apply Z.log2_lt_pow2; lia.
Qed.

(** X9.  The fixed-width fields read back: what [BinWriter::u32le] writes
    for a 32-bit value and [BinWriter::u64le] for a 64-bit value,
    [BinReader::u32le] and [BinReader::u64le] return, leaving the reader
    right behind the four and the eight bytes. *)
Theorem fixed_width_roundtrip (x y : Z) (rest : list byte) :
  0 <= x < 2^32 -> 0 <= y < 2^64 ->
  BinReader.u32le (BinWriter.u32le x ++ rest) = Ok (x, rest)
  /\ BinReader.u64le (BinWriter.u64le y ++ rest) = Ok (y, rest)
  /\ length (BinWriter.u32le x) = 4%nat /\ length (BinWriter.u64le y) = 8%nat.
Proof.
  intros Hx Hy. repeat split.
  - now apply u32le_roundtrip.
  - now apply u64le_read_written.
Qed.

Lemma fixed_width_roundtrip_witness :
  BinReader.u32le (BinWriter.u32le 4294967295 ++ [x2a]) = Ok (4294967295, [x2a])
  /\ BinReader.u64le (BinWriter.u64le 1311768467463790320 ++ [x2a])
     = Ok (1311768467463790320, [x2a])
  /\ length (BinWriter.u32le 4294967295) = 4%nat
  /\ length (BinWriter.u64le 1311768467463790320) = 8%nat.
Proof.
  apply (fixed_width_roundtrip 4294967295 1311768467463790320 [x2a]); lia.
Defined.

Lemma lor_below_pow2 (a b n : Z) :
  0 <= n -> 0 <= a < 2^n -> 0 <= b < 2^n -> 0 <= Z.lor a b < 2^n.
Proof.
  intros Hn Ha Hb. split; [apply Z.lor_nonneg; lia|].
  destruct (Z.eq_dec a 0) as [->|Ha0]; [now rewrite Z.lor_0_l|].
  destruct (Z.eq_dec b 0) as [->|Hb0]; [now rewrite Z.lor_0_r|].
  assert (Hpos : 0 < Z.lor a b).
  { pose proof (proj2 (Z.lor_nonneg a b) ltac:(lia)).
    assert (Z.lor a b <> 0); [|lia].
    intros H0. apply Z.lor_eq_0_iff in H0. lia. }
  apply Z.log2_lt_pow2; [assumption|].
  rewrite Z.log2_lor by lia.
  apply Z.max_lub_lt; apply Z.log2_lt_pow2; lia.
Qed.

Lemma varu_loop_consumed (p : list byte) :
  forall (x s x' : Z) (p' : list byte),
    0 <= x < 2^64 -> 0 <= s <= 63 ->
    BinReader.varu_loop x s p = Ok (x', p') ->
    0 <= x' < 2^64
    /\ exists pre, p = pre ++ p' /\ (1 <= length pre)%nat
                   /\ s + 7 * Z.of_nat (length pre) <= 70.
Proof.
  induction p as [|b p IH]; intros x s x' p' Hx Hs H; [discriminate|].
  cbn [BinReader.varu_loop] in H.
  assert (Hx1 : 0 <= Z.lor x (wrap64 (Z.shiftl (Z.land (byte_val b) 127) s)) < 2^64).
  { apply lor_below_pow2; [lia|assumption|apply wrap64_range]. }
  destruct (Z.land (byte_val b) 128 =? 0).
  - injection H as <- <-. split; [assumption|].
    exists [b]. cbn [length app]. repeat split; lia.
  - destruct (Z.ltb_spec 63 (s + 7)) as [|Hs']; [discriminate|].
    apply IH in H as (Hx' & pre & -> & Hlen & Hbound); [|assumption|lia].
    split; [assumption|]. exists (b :: pre). cbn [length app].
    repeat split; lia.
Qed.

(** X10.  Whatever bytes [BinReader::varu] is given, if it returns then the
    value is a 64-bit one and it has consumed at least one and at most ten
    bytes of the range. *)
Theorem varu_consumes_1_to_10 (p p' : list byte) (x : Z) :
  BinReader.varu p = Ok (x, p') ->
  0 <= x < 2^64
  /\ exists pre, p = pre ++ p' /\ (1 <= length pre <= 10)%nat.
Proof.
  unfold BinReader.varu. intros H.
  apply varu_loop_consumed in H as (Hx & pre & -> & Hlen & Hbound); try lia.
  split; [assumption|]. exists pre. repeat split; lia.
Qed.

Lemma varu_consumes_1_to_10_witness :
  0 <= 2^64 - 1 < 2^64
  /\ exists pre,
       [xff; xff; xff; xff; xff; xff; xff; xff; xff; x7f; x2a] = pre ++ [x2a]
       /\ (1 <= length pre <= 10)%nat.
Proof.
  apply (varu_consumes_1_to_10
           [xff; xff; xff; xff; xff; xff; xff; xff; xff; x7f; x2a] [x2a] (2^64 - 1)).
  reflexivity.
Defined.

Lemma varu_nonempty (x : Z) : (1 <= length (BinWriter.varu x))%nat.
Proof.
  unfold BinWriter.varu. cbn [BinWriter.varu_loop].
  destruct (128 <=? wrap64 x); [rewrite length_app|]; cbn [BinWriter.put length]; lia.
Qed.

(** * What the deserializer takes and what it writes *)

(** ** Bytes behind the last section *)

Lemma get_frame (p p' junk : list byte) (x : Z) :
  BinReader.get p = Ok (x, p') -> BinReader.get (p ++ junk) = Ok (x, p' ++ junk).
Proof. destruct p as [|b p]; [discriminate|]. cbn. intros H. now injection H as <- <-. Qed.

Lemma u32le_frame (p p' junk : list byte) (x : Z) :
  BinReader.u32le p = Ok (x, p') -> BinReader.u32le (p ++ junk) = Ok (x, p' ++ junk).
Proof.
  destruct p as [|a [|b [|c [|d p]]]]; try discriminate.
  cbn. intros H. now injection H as <- <-.
Qed.

Lemma u64le_frame (p p' junk : list byte) (x : Z) :
  BinReader.u64le p = Ok (x, p') -> BinReader.u64le (p ++ junk) = Ok (x, p' ++ junk).
Proof.
  unfold BinReader.u64le, BinReader.has.
  destruct (Nat.leb_spec 8 (length p)) as [Hlen|]; [|discriminate].
  intros H. injection H as <- <-.
  destruct (Nat.leb_spec 8 (length (p ++ junk))) as [|Hlt];
    [|rewrite length_app in Hlt; lia].
  rewrite take_app_le, drop_app_le by assumption. reflexivity.
Qed.

Lemma varu_loop_frame (p : list byte) :
  forall (x s y : Z) (p' junk : list byte),
    BinReader.varu_loop x s p = Ok (y, p') ->
    BinReader.varu_loop x s (p ++ junk) = Ok (y, p' ++ junk).
Proof.
  induction p as [|b p IH]; intros x s y p' junk H; [discriminate|].
  cbn [app BinReader.varu_loop] in *.
  destruct (Z.land (byte_val b) 128 =? 0); [now injection H as <- <-|].
  destruct (63 <? s + 7); [discriminate|]. now apply IH.
Qed.

Lemma varu_frame (p p' junk : list byte) (x : Z) :
  BinReader.varu p = Ok (x, p') -> BinReader.varu (p ++ junk) = Ok (x, p' ++ junk).
Proof. apply varu_loop_frame. Qed.

Ltac frame_step H lem :=
  let a := fresh "a" in
  let q := fresh "q" in
  let Hm := fresh "Hm" in
  apply bind_Ok in H as ([a q] & Hm & H); cbv beta iota in H;
  rewrite (lem _ _ _ _ Hm); cbn [bind].

Lemma read_mapping_v1_frame (n : nat) :
  forall (p p' junk : list byte) (m : list Z),
    Deserializer.read_mapping_v1 n p = Ok (m, p') ->
    Deserializer.read_mapping_v1 n (p ++ junk) = Ok (m, p' ++ junk).
Proof.
  induction n as [|n IH]; intros p p' junk m H; cbn [Deserializer.read_mapping_v1] in *.
  - now injection H as <- <-.
  - frame_step H u32le_frame.
    apply bind_Ok in H as ([rest q1] & Hm1 & H). cbv beta iota in H.
    rewrite (IH _ _ junk _ Hm1). cbn [bind]. now injection H as <- <-.
Qed.

Lemma read_deltas_frame (n : nat) :
  forall (prev : Z) (p p' junk : list byte) (m : list Z),
    Deserializer.read_deltas n prev p = Ok (m, p') ->
    Deserializer.read_deltas n prev (p ++ junk) = Ok (m, p' ++ junk).
Proof.
  induction n as [|n IH]; intros prev p p' junk m H; cbn [Deserializer.read_deltas] in *.
  - now injection H as <- <-.
  - frame_step H varu_frame.
    apply bind_Ok in H as ([rest q1] & Hm1 & H). cbv beta iota in H.
    rewrite (IH _ _ _ junk _ Hm1). cbn [bind]. now injection H as <- <-.
Qed.

Lemma read_mapping_frame (version N : Z) (p p' junk : list byte) (m : list Z) :
  Deserializer.read_mapping version N p = Ok (m, p') ->
  Deserializer.read_mapping version N (p ++ junk) = Ok (m, p' ++ junk).
Proof.
  unfold Deserializer.read_mapping. destruct (version =? 1).
  - apply read_mapping_v1_frame.
  - destruct (0 <? N); [|intros H; now injection H as <- <-].
    intros H. frame_step H u32le_frame.
    apply bind_Ok in H as ([rest q1] & Hm1 & H). cbv beta iota in H.
    rewrite (read_deltas_frame _ _ _ _ junk _ Hm1). cbn [bind]. now injection H as <- <-.
Qed.

Lemma read_neighbors_frame (deg : nat) (orig_of : list Z) (i : Z) :
  forall (prev : Z) (p p' junk text : list byte),
    Deserializer.read_neighbors deg orig_of i prev p = Ok (text, p') ->
    Deserializer.read_neighbors deg orig_of i prev (p ++ junk) = Ok (text, p' ++ junk).
Proof.
  induction deg as [|deg IH]; intros prev p p' junk text H;
    cbn [Deserializer.read_neighbors] in *.
  - now injection H as <- <-.
  - frame_step H varu_frame. frame_step H get_frame.
    apply bind_Ok in H as (oi & -> & H). cbn [bind].
    apply bind_Ok in H as (oj & -> & H). cbn [bind].
    apply bind_Ok in H as ([rest q1] & Hm1 & H). cbv beta iota in H.
    rewrite (IH _ _ _ junk _ Hm1). cbn [bind]. now injection H as <- <-.
Qed.

Lemma read_adjacency_frame (n : nat) (orig_of : list Z) :
  forall (i : Z) (p p' junk text : list byte),
    Deserializer.read_adjacency n orig_of i p = Ok (text, p') ->
    Deserializer.read_adjacency n orig_of i (p ++ junk) = Ok (text, p' ++ junk).
Proof.
  induction n as [|n IH]; intros i p p' junk text H;
    cbn [Deserializer.read_adjacency] in *.
  - now injection H as <- <-.
  - frame_step H varu_frame.
    apply bind_Ok in H as ([t1 q1] & Hm1 & H). cbv beta iota in H.
    rewrite (read_neighbors_frame _ _ _ _ _ _ junk _ Hm1). cbn [bind].
    apply bind_Ok in H as ([t2 q2] & Hm2 & H). cbv beta iota in H.
    rewrite (IH _ _ _ junk _ Hm2). cbn [bind]. now injection H as <- <-.
Qed.

Lemma read_loops_frame (L : nat) (orig_of : list Z) :
  forall (acc : Z) (p p' junk text : list byte),
    Deserializer.read_loops L orig_of acc p = Ok (text, p') ->
    Deserializer.read_loops L orig_of acc (p ++ junk) = Ok (text, p' ++ junk).
Proof.
  induction L as [|L IH]; intros acc p p' junk text H;
    cbn [Deserializer.read_loops] in *.
  - now injection H as <- <-.
  - frame_step H varu_frame. frame_step H get_frame.
    apply bind_Ok in H as (ov & -> & H). cbn [bind].
    apply bind_Ok in H as ([rest q1] & Hm1 & H). cbv beta iota in H.
    rewrite (IH _ _ _ junk _ Hm1). cbn [bind]. now injection H as <- <-.
Qed.

Lemma read_magic_frame (magic : list Z) :
  forall (p p' junk : list byte),
    Deserializer.read_magic magic p = Ok p' ->
    Deserializer.read_magic magic (p ++ junk) = Ok (p' ++ junk).
Proof.
  induction magic as [|c magic IH]; intros p p' junk H; cbn [Deserializer.read_magic] in *.
  - now injection H as <-.
  - frame_step H get_frame. destruct (a =? c); [now apply IH|discriminate].
Qed.

Lemma read_counts_frame (version : Z) (p p' junk : list byte) (N M : Z) :
  Deserializer.read_counts version p = Ok (N, M, p') ->
  Deserializer.read_counts version (p ++ junk) = Ok (N, M, p' ++ junk).
Proof.
  unfold Deserializer.read_counts. destruct (version =? 1); intros H.
  - frame_step H u32le_frame. frame_step H u64le_frame. now injection H as <- <- <-.
  - frame_step H varu_frame. frame_step H varu_frame. now injection H as <- <- <-.
Qed.

Lemma read_body_frame (version N : Z) (p junk text : list byte) :
  Deserializer.read_body version N p = Ok text ->
  Deserializer.read_body version N (p ++ junk) = Ok text.
Proof.
  unfold Deserializer.read_body. intros H.
  apply bind_Ok in H as ([m q1] & Hm1 & H). cbv beta iota in H.
  rewrite (read_mapping_frame _ _ _ _ junk _ Hm1). cbn [bind].
  apply bind_Ok in H as ([t2 q2] & Hm2 & H). cbv beta iota in H.
  rewrite (read_adjacency_frame _ _ _ _ _ junk _ Hm2). cbn [bind].
  frame_step H varu_frame.
  apply bind_Ok in H as ([t3 q3] & Hm3 & H). cbv beta iota in H.
  rewrite (read_loops_frame _ _ _ _ _ junk _ Hm3). cbn [bind]. exact H.
Qed.

(** X11.  The deserializer never looks behind the loops section: a binary
    that it decodes is decoded to the same text with any bytes appended
    to it. *)
Theorem trailing_bytes_ignored (data junk text : list byte) :
  Deserializer.run data = Ok text ->
  Deserializer.run (data ++ junk) = Ok text.
Proof.
  unfold Deserializer.run, BinReader.has. intros H.
  destruct (Nat.ltb_spec (length data) (4 + 1 + 1 + 4 + 8)) as [|Hlen]; [discriminate|].
  destruct (Nat.ltb_spec (length (data ++ junk)) (4 + 1 + 1 + 4 + 8)) as [Hlt|_];
    [rewrite length_app in Hlt; lia|].
  destruct (Nat.leb_spec 4 (length data)) as [_|Hlt]; [|cbn in Hlen; lia].
  destruct (Nat.leb_spec 4 (length (data ++ junk))) as [_|Hlt];
    [|rewrite length_app in Hlt; cbn in Hlen; lia].
  cbn [negb] in *.
  apply bind_Ok in H as (p1 & Hm1 & H).
  rewrite (read_magic_frame _ _ _ junk Hm1). cbn [bind].
  frame_step H get_frame.
  destruct (negb (a =? 1) && negb (a =? 2)); [discriminate|].
  frame_step H get_frame.
  destruct (negb (a0 =? 1)); [discriminate|].
  apply bind_Ok in H as ([[N M] q1] & Hm2 & H). cbv beta iota in H.
  rewrite (read_counts_frame _ _ _ junk _ _ Hm2). cbn [bind].
  now apply read_body_frame.
Qed.

Lemma trailing_bytes_ignored_witness :
  Deserializer.run (bin_mixed ++ [xde; xad; xbe; xef]) = Deserializer.run bin_mixed.
Proof.
  apply (trailing_bytes_ignored bin_mixed [xde; xad; xbe; xef]). reflexivity.
Defined.

(** ** The header of a binary that is decoded *)

Lemma byte_of_val (b : byte) : u8 (byte_val b) = b.
Proof.
  unfold u8, byte_val. pose proof (Byte.to_N_bounded b) as Hb.
  rewrite wrap8_small by (change (2^8) with 256; lia).
  rewrite N2Z.id, Byte.of_to_N. reflexivity.
Qed.

Lemma byte_val_inj (b : byte) (z : Z) : byte_val b = z -> b = u8 z.
Proof. intros <-. symmetry. apply byte_of_val. Qed.

(** X12.  A binary that the deserializer decodes has at least eighteen
    bytes and starts with the magic [GRPH], a version byte 1 or 2 and the
    endianness byte 1. *)
Theorem decoded_binary_header (data text : list byte) :
  Deserializer.run data = Ok text ->
  exists (version : Z) (rest : list byte),
    data = file_header version ++ rest
    /\ (version = 1 \/ version = 2) /\ (12 <= length rest)%nat.
Proof.
  unfold Deserializer.run, BinReader.has.
  destruct (Nat.ltb_spec (length data) (4 + 1 + 1 + 4 + 8)) as [Hshort|Hlen];
    [discriminate|].
  destruct (Nat.leb_spec 4 (length data)) as [_|Hlt]; [|cbn in Hlen; lia].
  cbn [negb].
  destruct data as [|b0 [|b1 [|b2 [|b3 [|v [|e rest]]]]]]; try (cbn in Hlen; lia).
  cbn [Deserializer.read_magic BinReader.get bind].
  intros H.
  destruct (Z.eqb_spec (byte_val b0) 71) as [E0|]; [|discriminate].
  destruct (Z.eqb_spec (byte_val b1) 82) as [E1|]; [|discriminate].
  destruct (Z.eqb_spec (byte_val b2) 80) as [E2|]; [|discriminate].
  destruct (Z.eqb_spec (byte_val b3) 72) as [E3|]; [|discriminate].
  cbn [bind BinReader.get] in H.
  destruct (negb (byte_val v =? 1) && negb (byte_val v =? 2)) eqn:Hv; [discriminate|].
  destruct (Z.eqb_spec (byte_val e) 1) as [Ee|]; [|discriminate].
  exists (byte_val v), rest.
  apply byte_val_inj in E0, E1, E2, E3, Ee. subst b0 b1 b2 b3 e.
  unfold file_header. rewrite byte_of_val. cbn [app].
  repeat split.
  - destruct (Z.eqb_spec (byte_val v) 1); [now left|].
    destruct (Z.eqb_spec (byte_val v) 2); [now right|discriminate].
  - cbn [length] in Hlen. lia.
Qed.

Lemma decoded_binary_header_witness :
  exists (version : Z) (rest : list byte),
    bin_single_edge = file_header version ++ rest
    /\ (version = 1 \/ version = 2) /\ (12 <= length rest)%nat.
Proof.
  apply (decoded_binary_header bin_single_edge
           [x31; x30; x09; x32; x30; x09; x35; x0a]).
  reflexivity.
Defined.

(** ** The text that the deserializer writes *)

Lemma u32le_range (p p' : list byte) (x : Z) :
  BinReader.u32le p = Ok (x, p') -> 0 <= x < 2^32.
Proof.
  destruct p as [|a [|b [|c [|d p]]]]; try discriminate.
  cbn [BinReader.u32le]. intros H. injection H as <- _.
  pose proof (byte_val_range a). pose proof (byte_val_range b).
  pose proof (byte_val_range c). pose proof (byte_val_range d).
  rewrite !Z.shiftl_mul_pow2 by lia.
  repeat apply lor_below_pow2; lia.
Qed.

Lemma read_mapping_v1_range (n : nat) :
  forall (p p' : list byte) (m : list Z),
    Deserializer.read_mapping_v1 n p = Ok (m, p') ->
    Forall (fun x => 0 <= x < 2^32) m.
Proof.
  induction n as [|n IH]; intros p p' m H; cbn [Deserializer.read_mapping_v1] in H.
  - injection H as <- _. constructor.
  - apply bind_Ok in H as ([x q] & Hx & H). cbv beta iota in H.
    apply bind_Ok in H as ([rest q1] & Hrest & H). cbv beta iota in H.
    injection H as <- _. constructor; [now apply u32le_range in Hx|now apply IH in Hrest].
Qed.

Lemma read_deltas_range (n : nat) :
  forall (prev : Z) (p p' : list byte) (m : list Z),
    Deserializer.read_deltas n prev p = Ok (m, p') ->
    Forall (fun x => 0 <= x < 2^32) m.
Proof.
  induction n as [|n IH]; intros prev p p' m H; cbn [Deserializer.read_deltas] in H.
  - injection H as <- _. constructor.
  - apply bind_Ok in H as ([x q] & Hx & H). cbv beta iota in H.
    apply bind_Ok in H as ([rest q1] & Hrest & H). cbv beta iota in H.
    injection H as <- _. constructor; [apply wrap32_range|now apply IH in Hrest].
Qed.

Lemma read_mapping_range (version N : Z) (p p' : list byte) (m : list Z) :
  Deserializer.read_mapping version N p = Ok (m, p') ->
  Forall (fun x => 0 <= x < 2^32) m.
Proof.
  unfold Deserializer.read_mapping. destruct (version =? 1).
  - apply read_mapping_v1_range.
  - destruct (0 <? N); [|intros H; injection H as <- _; constructor].
    intros H.
    apply bind_Ok in H as ([x q] & Hx & H). cbv beta iota in H.
    apply bind_Ok in H as ([rest q1] & Hrest & H). cbv beta iota in H.
    injection H as <- _.
    constructor; [now apply u32le_range in Hx|now apply read_deltas_range in Hrest].
Qed.

Lemma get_range (p p' : list byte) (w : Z) :
  BinReader.get p = Ok (w, p') -> 0 <= w < 256.
Proof.
  destruct p as [|b p]; [discriminate|]. cbn. intros H. injection H as <- _.
  apply byte_val_range.
Qed.

Lemma vget_range (orig_of : list Z) (i x : Z) :
  Forall (fun x => 0 <= x < 2^32) orig_of -> vget orig_of i = Ok x -> 0 <= x < 2^32.
Proof.
  intros Hall H. apply vget_Ok in H.
  rewrite List.Forall_forall in Hall. apply Hall.
  apply list_elem_of_In. now apply list_elem_of_lookup_2 in H.
Qed.

Lemma read_neighbors_text (deg : nat) (orig_of : list Z) (i : Z) :
  Forall (fun x => 0 <= x < 2^32) orig_of ->
  forall (prev : Z) (p p' text : list byte),
    Deserializer.read_neighbors deg orig_of i prev p = Ok (text, p') ->
    exists ts, text = text_of ts /\ Forall triplet_in_range ts.
Proof.
  intros Hall.
  induction deg as [|deg IH]; intros prev p p' text H;
    cbn [Deserializer.read_neighbors] in H.
  - injection H as <- _. exists []. split; [reflexivity|constructor].
  - apply bind_Ok in H as ([gap q] & _ & H). cbv beta iota in H.
    apply bind_Ok in H as ([w q1] & Hw & H). cbv beta iota in H.
    apply bind_Ok in H as (oi & Hoi & H).
    apply bind_Ok in H as (oj & Hoj & H).
    apply bind_Ok in H as ([rest q2] & Hrest & H). cbv beta iota in H.
    injection H as <- _.
    apply IH in Hrest as (ts & -> & Hts).
    exists ((oi, oj, w) :: ts). split; [reflexivity|].
    constructor; [|assumption].
    repeat split; cbn [fst snd];
      try apply (vget_range _ _ _ Hall Hoi); try apply (vget_range _ _ _ Hall Hoj);
      apply (get_range _ _ _ Hw).
Qed.

Lemma read_adjacency_text (n : nat) (orig_of : list Z) :
  Forall (fun x => 0 <= x < 2^32) orig_of ->
  forall (i : Z) (p p' text : list byte),
    Deserializer.read_adjacency n orig_of i p = Ok (text, p') ->
    exists ts, text = text_of ts /\ Forall triplet_in_range ts.
Proof.
  intros Hall.
  induction n as [|n IH]; intros i p p' text H; cbn [Deserializer.read_adjacency] in H.
  - injection H as <- _. exists []. split; [reflexivity|constructor].
  - apply bind_Ok in H as ([deg q] & _ & H). cbv beta iota in H.
    apply bind_Ok in H as ([t1 q1] & H1 & H). cbv beta iota in H.
    apply bind_Ok in H as ([t2 q2] & H2 & H). cbv beta iota in H.
    injection H as <- _.
    apply (read_neighbors_text _ _ _ Hall) in H1 as (ts1 & -> & Hts1).
    apply IH in H2 as (ts2 & -> & Hts2).
    exists (ts1 ++ ts2). split; [now rewrite text_of_app|now apply Forall_app].
Qed.

Lemma read_loops_text (L : nat) (orig_of : list Z) :
  Forall (fun x => 0 <= x < 2^32) orig_of ->
  forall (acc : Z) (p p' text : list byte),
    Deserializer.read_loops L orig_of acc p = Ok (text, p') ->
    exists ts, text = text_of ts /\ Forall triplet_in_range ts.
Proof.
  intros Hall.
  induction L as [|L IH]; intros acc p p' text H; cbn [Deserializer.read_loops] in H.
  - injection H as <- _. exists []. split; [reflexivity|constructor].
  - apply bind_Ok in H as ([d q] & _ & H). cbv beta iota in H.
    apply bind_Ok in H as ([w q1] & Hw & H). cbv beta iota in H.
    apply bind_Ok in H as (ov & Hov & H).
    apply bind_Ok in H as ([rest q2] & Hrest & H). cbv beta iota in H.
    injection H as <- _.
    apply IH in Hrest as (ts & -> & Hts).
    exists ((ov, ov, w) :: ts). split; [reflexivity|].
    constructor; [|assumption].
    repeat split; cbn [fst snd];
      try apply (vget_range _ _ _ Hall Hov); apply (get_range _ _ _ Hw).
Qed.

Lemma read_body_text (version N : Z) (p text : list byte) :
  Deserializer.read_body version N p = Ok text ->
  exists ts, text = text_of ts /\ Forall triplet_in_range ts.
Proof.
  unfold Deserializer.read_body. intros H.
  apply bind_Ok in H as ([m q1] & Hm & H). cbv beta iota in H.
  apply read_mapping_range in Hm.
  apply bind_Ok in H as ([t2 q2] & H2 & H). cbv beta iota in H.
  apply bind_Ok in H as ([L q3] & _ & H). cbv beta iota in H.
  apply bind_Ok in H as ([t3 q4] & H3 & H). cbv beta iota in H.
  injection H as <-.
  apply (read_adjacency_text _ _ Hm) in H2 as (ts2 & -> & Hts2).
  apply (read_loops_text _ _ Hm) in H3 as (ts3 & -> & Hts3).
  exists (ts2 ++ ts3). split; [now rewrite text_of_app|now apply Forall_app].
Qed.

(** X13.  Whatever binary the deserializer decodes, well-formed or not, the
    text it writes is a list of lines [a<TAB>b<TAB>w<LF>] with both ids
    below [2^32] and the weight below 256, which the scanner of the
    serializer reads back as exactly these triplets. *)
Theorem decoded_text_scans (data text : list byte) :
  Deserializer.run data = Ok text ->
  exists ts : list (Z * Z * Z),
    text = text_of ts /\ Forall triplet_in_range ts
    /\ TSVScanner.for_each_triplet text = Ok ts.
Proof.
  intros H.
  assert (Hbody : exists version N p, Deserializer.read_body version N p = Ok text).
  { unfold Deserializer.run in H.
    destruct (length data <? 4 + 1 + 1 + 4 + 8)%nat; [discriminate|].
    destruct (negb (BinReader.has 4 data)); [discriminate|].
    apply bind_Ok in H as (p1 & _ & H).
    apply bind_Ok in H as ([version q1] & _ & H). cbv beta iota in H.
    destruct (negb (version =? 1) && negb (version =? 2)); [discriminate|].
    apply bind_Ok in H as ([endian q2] & _ & H). cbv beta iota in H.
    destruct (negb (endian =? 1)); [discriminate|].
    apply bind_Ok in H as ([[N M] q3] & _ & H). cbv beta iota in H.
    eauto. }
  destruct Hbody as (version & N & p & Hbody).
  apply read_body_text in Hbody as (ts & -> & Hts).
  exists ts. repeat split; [assumption|now apply scan_text_of].
Qed.

Lemma decoded_text_scans_witness :
  exists ts : list (Z * Z * Z),
    [x31; x30; x09; x32; x30; x09; x35; x0a] = text_of ts
    /\ Forall triplet_in_range ts
    /\ TSVScanner.for_each_triplet [x31; x30; x09; x32; x30; x09; x35; x0a] = Ok ts.
Proof.
  apply (decoded_text_scans bin_single_edge [x31; x30; x09; x32; x30; x09; x35; x0a]).
  reflexivity.
Defined.

(** ** Header fields that are cut or skipped *)

(** X14.  In a version-2 file the vertex count is cut to 32 bits without
    a check: a header whose [N] is raised by [2^32] is decoded exactly as
    the one with [N], whatever follows. *)
Theorem vertex_count_truncated (n M : Z) (rest : list byte) :
  0 <= n -> n + 2^32 < 2^64 -> 0 <= M < 2^64 ->
  (10 <= length rest)%nat ->
  Deserializer.run (file_header 2 ++ BinWriter.varu (n + 2^32) ++ BinWriter.varu M ++ rest)
  = Deserializer.run (file_header 2 ++ BinWriter.varu n ++ BinWriter.varu M ++ rest).
Proof.
  intros Hn Hn' HM Hrest.
  pose proof (varu_nonempty n). pose proof (varu_nonempty (n + 2^32)).
  pose proof (varu_nonempty M).
  rewrite !run_after_header by (try (now right); rewrite !length_app; lia).
  rewrite !read_counts_v2 by lia. cbn [bind].
  f_equal. unfold wrap32. rewrite <- (Z.mul_1_l (2^32)) at 1.
  now rewrite Z_mod_plus_full.
Qed.

Lemma vertex_count_truncated_witness :
  Deserializer.run (file_header 2 ++ BinWriter.varu (2 + 2^32) ++ BinWriter.varu 1
                    ++ [x0a; x00; x00; x00; x0a; x01; x01; x05; x00; x00])
  = Deserializer.run (file_header 2 ++ BinWriter.varu 2 ++ BinWriter.varu 1
                      ++ [x0a; x00; x00; x00; x0a; x01; x01; x05; x00; x00]).
Proof.
  apply (vertex_count_truncated 2 1 [x0a; x00; x00; x00; x0a; x01; x01; x05; x00; x00]).
  - lia.
  - lia.
  - lia.
  - simpl. lia.
Defined.

(** X15.  The two versions of the format decode alike: a version-1 file
    (raw [uint32] mapping, fixed-width counts) and the version-2 file of
    the same mapping and sections, of at least eighteen bytes, give the
    same text or the same failure. *)
Theorem versions_decode_alike (orig : list Z) (M : Z) (mapping sections : list byte) :
  Forall (fun x => 0 <= x < 2^32) orig ->
  Z.of_nat (length orig) < 2^32 ->
  0 <= M < 2^64 ->
  Serializer.emit_mapping (Z.of_nat (length orig)) orig = Ok mapping ->
  (18 <= length (binary_v2 orig M mapping sections))%nat ->
  Deserializer.run (binary_v1 orig M sections)
  = Deserializer.run (binary_v2 orig M mapping sections).
Proof. apply cross_version_read. Qed.

Lemma versions_decode_alike_witness :
  Deserializer.run (binary_v1 [10; 20] 1 [x01; x01; x05; x00; x00])
  = Deserializer.run
      (binary_v2 [10; 20] 1 [x0a; x00; x00; x00; x0a] [x01; x01; x05; x00; x00]).
Proof.
  apply (versions_decode_alike [10; 20] 1 [x0a; x00; x00; x00; x0a]
           [x01; x01; x05; x00; x00]).
  - repeat constructor; lia.
  - simpl. lia.
  - lia.
  - reflexivity.
  - simpl. lia.
Defined.

(** X16.  What [TextWriter] writes, [TSVScanner] reads: the lines
    [putu(a) TAB putu(b) TAB putu8(w) LF] of any list of triplets with ids
    below [2^32] and weights below 256 scan to the list itself. *)
Theorem written_text_scans (ts : list (Z * Z * Z)) :
  Forall triplet_in_range ts ->
  TSVScanner.for_each_triplet (text_of ts) = Ok ts.
Proof. apply scan_text_of. Qed.

Lemma written_text_scans_witness :
  TSVScanner.for_each_triplet (text_of [(4294967295, 0, 255); (7, 7, 0)])
  = Ok [(4294967295, 0, 255); (7, 7, 0)].
Proof.
  apply (written_text_scans [(4294967295, 0, 255); (7, 7, 0)]).
  repeat constructor; cbn; lia.
Defined.

(** * The serializer never fails on a scanned input *)

(** ** The search in the mapping *)

Lemma lower_bound_member (v : list Z) (x : Z) :
  Sorted Z.lt v -> In x v -> v !! Serializer.lower_bound v x = Some x.
Proof.
  intros Hs. apply Sorted_StronglySorted in Hs; [|intros a b c; lia].
  induction Hs as [|y v Hs IH Hall]; intros Hin; [destruct Hin|].
  cbn [Serializer.lower_bound].
  destruct (Z.ltb_spec y x) as [Hlt|Hge].
  - cbn. apply IH. destruct Hin as [->|Hin]; [lia|assumption].
  - destruct Hin as [->|Hin]; [reflexivity|].
    rewrite List.Forall_forall in Hall. apply Hall in Hin. lia.
Qed.

Lemma lower_bound_le (v : list Z) (x : Z) :
  (Serializer.lower_bound v x <= length v)%nat.
Proof.
  induction v as [|y v IH]; cbn [Serializer.lower_bound length]; [lia|].
  destruct (y <? x); lia.
Qed.

(** X17.  [idx_of] on a strictly ascending mapping of at most [2^32] ids:
    for an id of the mapping it returns the position of the id, and for
    any other it ends the run with the internal error. *)
Theorem idx_of_position (uniq : list Z) (x : Z) :
  Sorted Z.lt uniq -> Z.of_nat (length uniq) <= 2^32 ->
  (In x uniq ->
   exists i : Z, Serializer.idx_of uniq x = Ok i
                 /\ 0 <= i < Z.of_nat (length uniq)
                 /\ uniq !! Z.to_nat i = Some x)
  /\ (~ In x uniq -> Serializer.idx_of uniq x = die "id not found in uniq (internal)").
Proof.
  intros Hs Hlen. split.
  - intros Hin. pose proof (lower_bound_member uniq x Hs Hin) as Hfound.
    apply lookup_lt_Some in Hfound as Hlt.
    exists (Z.of_nat (Serializer.lower_bound uniq x)).
    unfold Serializer.idx_of. rewrite Hfound, Z.eqb_refl.
    rewrite wrap32_small by lia. rewrite Nat2Z.id. repeat split; try lia. assumption.
  - intros Hnot. unfold Serializer.idx_of.
    destruct (uniq !! Serializer.lower_bound uniq x) as [y|] eqn:Hy; [|reflexivity].
    destruct (Z.eqb_spec y x) as [->|]; [|reflexivity].
    exfalso. apply Hnot. apply list_elem_of_In. now apply list_elem_of_lookup_2 in Hy.
Qed.

Lemma idx_of_position_witness :
  (In 20 [10; 20; 30] ->
   exists i : Z, Serializer.idx_of [10; 20; 30] 20 = Ok i
                 /\ 0 <= i < Z.of_nat (length [10; 20; 30])
                 /\ [10; 20; 30] !! Z.to_nat i = Some 20)
  /\ (~ In 20 [10; 20; 30] ->
      Serializer.idx_of [10; 20; 30] 20 = die "id not found in uniq (internal)").
Proof.
  apply (idx_of_position [10; 20; 30] 20).
  - repeat constructor.
  - simpl. lia.
Defined.

(** ** Every id of the input is in the mapping *)

Lemma unique_member (x : Z) (l : list Z) : In x l -> In x (Serializer.unique l).
Proof.
  induction l as [|y l IH]; [intros []|].
  destruct l as [|z l]; [intros H; exact H|].
  rewrite unique_cons2. intros Hin.
  destruct (Z.eqb_spec y z) as [->|Hne].
  - apply IH. destruct Hin as [->|Hin]; [now left|assumption].
  - destruct Hin as [->|Hin]; [now left|right; now apply IH].
Qed.

Lemma resolved_member (ids : list Z) (x : Z) :
  In x ids -> resolved (Serializer.unique (Serializer.sort_ids ids)) x.
Proof.
  intros Hin. unfold resolved. apply lower_bound_member; [apply uniq_ascending|].
  apply unique_member. unfold Serializer.sort_ids.
  apply list_elem_of_In. rewrite merge_sort_Permutation. now apply list_elem_of_In.
Qed.

Lemma ids_resolved (ts : list (Z * Z * Z)) :
  let uniq := Serializer.unique (Serializer.sort_ids (Serializer.collect_ids ts)) in
  Forall (fun t => resolved uniq t.1.1 /\ resolved uniq t.1.2) ts.
Proof.
  cbv zeta. apply List.Forall_forall. intros t Ht.
  assert (Hin : forall x, In x [t.1.1; t.1.2] -> In x (Serializer.collect_ids ts)).
  { intros x Hx. unfold Serializer.collect_ids. apply in_flat_map. now exists t. }
  split; apply resolved_member; apply Hin; cbn; tauto.
Qed.

Lemma idx_of_resolved (uniq : list Z) (a : Z) :
  resolved uniq a -> Serializer.idx_of uniq a = Ok (cidx uniq a).
Proof.
  unfold resolved, Serializer.idx_of, cidx. intros ->. now rewrite Z.eqb_refl.
Qed.

(** ** Every access of the three passes is inside its vector *)

Lemma vget_inside {A} (v : list A) (i : Z) :
  (Z.to_nat i < length v)%nat ->
  exists x, vget v i = Ok x /\ v !! Z.to_nat i = Some x.
Proof.
  intros Hlt. unfold vget. destruct (v !! Z.to_nat i) as [x|] eqn:E; [eauto|].
  apply lookup_ge_None in E. lia.
Qed.

Lemma vset_inside {A} (v : list A) (i : Z) (x : A) :
  (Z.to_nat i < length v)%nat -> vset v i x = Ok (<[Z.to_nat i := x]> v).
Proof.
  intros Hlt. unfold vset. now destruct (Nat.ltb_spec (Z.to_nat i) (length v)); [|lia].
Qed.

Lemma vwrite_inside {A} (v xs : list A) (b : Z) :
  (Z.to_nat b + length xs <= length v)%nat ->
  vwrite v b xs = Ok (take (Z.to_nat b) v ++ xs ++ drop (Z.to_nat b + length xs) v).
Proof.
  intros Hfit. unfold vwrite.
  now destruct (Nat.leb_spec (Z.to_nat b + length xs) (length v)); [|lia].
Qed.

Lemma lo_resolved uniq t :
  Z.of_nat (length uniq) < 2^32 ->
  resolved uniq t.1.1 /\ resolved uniq t.1.2 ->
  (Z.to_nat (lo uniq t) < length uniq)%nat.
Proof.
  intros Hlen [Ha Hb].
  destruct (cidx_resolved uniq _ Hlen Ha) as (Ha0 & Han & _).
  destruct (cidx_resolved uniq _ Hlen Hb) as (Hb0 & Hbn & _).
  unfold lo. lia.
Qed.

(** Pass 2. *)
Lemma count_progress uniq (ts : list (Z * Z * Z)) :
  Z.of_nat (length uniq) < 2^32 ->
  Forall (fun t => resolved uniq t.1.1 /\ resolved uniq t.1.2) ts ->
  forall deg m l,
    length deg = length uniq ->
    exists st, Serializer.for_each (Serializer.count_edge uniq) (deg, m, l) ts = Ok st.
Proof.
  intros Hlen Hres. induction Hres as [|[[a b] w] ts Ht _ IH]; intros deg m l Hdeg.
  - cbn. eauto.
  - cbn [Serializer.for_each]. unfold Serializer.count_edge at 1.
    cbn [fst snd] in Ht. destruct Ht as [Ha Hb].
    rewrite (idx_of_resolved _ _ Ha), (idx_of_resolved _ _ Hb). cbn [bind].
    destruct (cidx uniq a =? cidx uniq b); [cbn [bind]; now apply IH|].
    pose proof (lo_resolved uniq (a, b, w) Hlen (conj Ha Hb)) as Hlo.
    unfold lo in Hlo. cbn [fst snd] in Hlo.
    destruct (vget_inside deg (Z.min (cidx uniq a) (cidx uniq b))) as (d & -> & _); [lia|].
    cbn [bind]. rewrite vset_inside by lia. cbn [bind].
    apply IH. now rewrite length_insert.
Qed.

(** The prefix sums. *)
Lemma prefix_progress (deg : list Z) (n : nat) :
  forall (k : nat) (off : list Z),
    (k + n <= length deg)%nat -> (k + n < length off)%nat ->
    exists off', Serializer.prefix_sums n (Z.of_nat k) deg off = Ok off'.
Proof.
  induction n as [|n IH]; intros k off Hdeg Hoff; [cbn; eauto|].
  cbn [Serializer.prefix_sums].
  destruct (vget_inside off (Z.of_nat k)) as (o & -> & _); [lia|]. cbn [bind].
  destruct (vget_inside deg (Z.of_nat k)) as (d & -> & _); [lia|]. cbn [bind].
  rewrite vset_inside by lia. cbn [bind].
  replace (Z.of_nat k + 1) with (Z.of_nat (S k)) by lia.
  apply IH; [lia|rewrite length_insert; lia].
Qed.

(** Pass 3. *)
Lemma fill_progress uniq ts (N : nat) :
  Z.of_nat (length uniq) < 2^32 -> N = length uniq ->
  Z.of_nat (length ts) < 2^64 ->
  forall ts2 ts1 (cur nei wts : list Z) loops,
    ts = ts1 ++ ts2 ->
    Forall (fun t => resolved uniq t.1.1 /\ resolved uniq t.1.2) ts2 ->
    (forall u : nat, (u < N)%nat ->
       cur !! u = Some (count_below uniq (Z.of_nat u) ts
                        + count_upper uniq (Z.of_nat u) ts1)) ->
    length nei = Z.to_nat (count_below uniq (Z.of_nat N) ts) ->
    length wts = Z.to_nat (count_below uniq (Z.of_nat N) ts) ->
    exists st,
      Serializer.for_each (Serializer.fill_edge uniq) (cur, nei, wts, loops) ts2 = Ok st.
Proof.
  intros Hlen HN Hbound.
  induction ts2 as [|[[a b] w] ts2 IH]; intros ts1 cur nei wts loops Hts Hres Hcur Hn Hw.
  - cbn. eauto.
  - inversion Hres as [|? ? Ht Hres']; subst x l.
    cbn [Serializer.for_each]. unfold Serializer.fill_edge at 1.
    cbn [fst snd] in Ht. destruct Ht as [Ha Hb].
    rewrite (idx_of_resolved _ _ Ha), (idx_of_resolved _ _ Hb). cbn [bind].
    assert (Hts' : ts = (ts1 ++ [(a, b, w)]) ++ ts2) by (now rewrite <- app_assoc).
    destruct (cidx uniq a =? cidx uniq b) eqn:Hloop.
    + cbn [bind]. apply (IH (ts1 ++ [(a, b, w)])); try assumption.
      intros u Hu. rewrite count_upper_snoc, (Hcur u Hu). f_equal.
      unfold is_upper, is_loop. cbn [fst snd]. rewrite Hloop. cbn [negb andb]. lia.
    + pose proof (lo_resolved uniq (a, b, w) Hlen (conj Ha Hb)) as Hlo.
      pose proof (lo_nonneg uniq (a, b, w)) as Hlo0.
      assert (Hnl : is_loop uniq (a, b, w) = false) by exact Hloop.
      change (Z.min (cidx uniq a) (cidx uniq b)) with (lo uniq (a, b, w)).
      change (Z.max (cidx uniq a) (cidx uniq b)) with (hi uniq (a, b, w)).
      set (t := (a, b, w)) in *.
      set (u0 := Z.to_nat (lo uniq t)) in *.
      assert (Hu0 : Z.of_nat u0 = lo uniq t) by (unfold u0; lia).
      assert (Hup0 : is_upper uniq (Z.of_nat u0) t = true).
      { unfold is_upper. now rewrite Hnl, Hu0, Z.eqb_refl. }
      assert (Hcnt : count_upper uniq (Z.of_nat u0) ts1 + 1
                     <= count_upper uniq (Z.of_nat u0) ts).
      { rewrite Hts, count_upper_app, count_upper_cons, Hup0.
        pose proof (count_upper_range uniq (Z.of_nat u0) ts2). lia. }
      pose proof (count_upper_range uniq (Z.of_nat u0) ts1) as Hc1.
      pose proof (count_below_range uniq (Z.of_nat u0) ts) as Hb0.
      pose proof (count_below_range uniq (Z.of_nat u0 + 1) ts) as Hb1.
      pose proof (count_below_mono uniq (Z.of_nat u0 + 1) (Z.of_nat N) ts ltac:(lia)) as Hm.
      rewrite count_below_succ in Hb1, Hm.
      pose proof (Hcur u0 ltac:(lia)) as Hpos.
      set (pos := count_below uniq (Z.of_nat u0) ts
                  + count_upper uniq (Z.of_nat u0) ts1) in *.
      assert (Hget : vget cur (lo uniq t) = Ok pos) by (apply vget_Ok; exact Hpos).
      rewrite Hget. cbn [bind].
      rewrite vset_inside by (apply lookup_lt_Some in Hpos; exact Hpos). cbn [bind].
      rewrite vset_inside by lia. cbn [bind].
      rewrite vset_inside by lia. cbn [bind].
      apply (IH (ts1 ++ [t])); try assumption.
      * intros u Hu. rewrite count_upper_snoc.
        destruct (Nat.eq_dec u0 u) as [<-|Hne].
        -- rewrite Hup0.
           rewrite list_lookup_insert_eq by (now apply lookup_lt_Some in Hpos).
           f_equal. rewrite wrap64_small by lia. unfold pos. lia.
        -- fold u0. rewrite list_lookup_insert_ne by assumption.
           rewrite (Hcur u Hu). f_equal.
           unfold is_upper. rewrite Hnl. cbn [negb andb].
           destruct (Z.eqb_spec (lo uniq t) (Z.of_nat u)); lia.
      * now rewrite length_insert.
      * now rewrite length_insert.
Qed.

(** The per-vertex sort. *)
Lemma sort_progress sort uniq ts (off : list Z) (N : nat) :
  std_sort_contract sort ->
  Z.of_nat (length ts) < 2^64 ->
  (forall j : nat, (j <= N)%nat -> off !! j = Some (count_below uniq (Z.of_nat j) ts)) ->
  forall (n k : nat) (nei wts : list Z),
    (k + n <= N)%nat ->
    length nei = Z.to_nat (count_below uniq (Z.of_nat N) ts) ->
    length wts = Z.to_nat (count_below uniq (Z.of_nat N) ts) ->
    exists r, Serializer.sort_neighbors sort n (Z.of_nat k) off (nei, wts) = Ok r.
Proof.
  intros Hsort Hbound Hoff.
  induction n as [|n IH]; intros k nei wts Hk Hn Hw; [cbn; eauto|].
  cbn [Serializer.sort_neighbors fst snd].
  assert (Hb : vget off (Z.of_nat k) = Ok (count_below uniq (Z.of_nat k) ts)).
  { apply vget_Ok. rewrite Nat2Z.id. apply Hoff. lia. }
  assert (He : vget off (Z.of_nat k + 1)
               = Ok (count_below uniq (Z.of_nat k) ts + count_upper uniq (Z.of_nat k) ts)).
  { apply vget_Ok. replace (Z.to_nat (Z.of_nat k + 1)) with (S k) by lia.
    rewrite <- count_below_succ. replace (Z.of_nat k + 1) with (Z.of_nat (S k)) by lia.
    apply Hoff. lia. }
  rewrite Hb, He. cbn [bind].
  pose proof (count_upper_range uniq (Z.of_nat k) ts) as Hck.
  pose proof (count_below_range uniq (Z.of_nat k) ts) as Hbk.
  pose proof (count_below_mono uniq (Z.of_nat k + 1) (Z.of_nat N) ts ltac:(lia)) as Hm.
  rewrite count_below_succ in Hm.
  replace (count_below uniq (Z.of_nat k) ts + count_upper uniq (Z.of_nat k) ts
           - count_below uniq (Z.of_nat k) ts)
    with (count_upper uniq (Z.of_nat k) ts) by lia.
  rewrite wrap64_small by lia.
  replace (Z.of_nat k + 1) with (Z.of_nat (S k)) by lia.
  destruct (count_upper uniq (Z.of_nat k) ts <=? 1); [apply IH; [lia|assumption..]|].
  rewrite !vslice_inside by lia. cbn [bind].
  set (ns := slice nei _ _). set (ws := slice wts _ _).
  assert (Hlns : length ns = Z.to_nat (count_upper uniq (Z.of_nat k) ts)).
  { unfold ns. apply length_slice. lia. }
  assert (Hlws : length ws = Z.to_nat (count_upper uniq (Z.of_nat k) ts)).
  { unfold ws. apply length_slice. lia. }
  assert (Hltmp : length (sort (zip ns ws)) = Z.to_nat (count_upper uniq (Z.of_nat k) ts)).
  { rewrite (Permutation_length (proj1 (Hsort _))), length_zip_same; lia. }
  rewrite !vwrite_inside by (rewrite length_map; lia). cbn [bind].
  apply IH; [lia|..]; rewrite length_splice; try assumption; rewrite length_map; lia.
Qed.

(** ** The tables are built *)

Lemma uniq_size (ts : list (Z * Z * Z)) :
  Z.of_nat (length ts) < 2^31 ->
  Z.of_nat (length (Serializer.unique (Serializer.sort_ids (Serializer.collect_ids ts))))
  < 2^32 - 1.
Proof. intros Hb. pose proof (uniq_length ts). lia. Qed.

Lemma build_total sort (ts : list (Z * Z * Z)) :
  std_sort_contract sort ->
  Z.of_nat (length ts) < 2^31 ->
  exists g, Serializer.build sort ts = Ok g.
Proof.
  intros Hsort Hbound. unfold Serializer.build.
  pose proof (ids_resolved ts) as Hres. cbv zeta in Hres.
  pose proof (uniq_size ts Hbound) as Hsize.
  set (uniq := Serializer.unique (Serializer.sort_ids (Serializer.collect_ids ts))) in *.
  rewrite (wrap32_small (Z.of_nat (length uniq))) by lia.
  rewrite (wrap32_small (Z.of_nat (length uniq) + 1)) by lia.
  rewrite Nat2Z.id.
  replace (Z.to_nat (Z.of_nat (length uniq) + 1)) with (S (length uniq)) by lia.
  (* pass 2 *)
  destruct (count_progress uniq ts ltac:(lia) Hres (replicate (length uniq) 0) 0 0)
    as ([[deg M] L] & Hpass2); [apply length_replicate|].
  rewrite Hpass2. cbn [bind].
  apply count_pass in Hpass2 as [Hldeg Hdeg]. rewrite length_replicate in Hldeg.
  assert (Hdeg' : forall (u : nat) (d : Z),
             deg !! u = Some d -> d = count_upper uniq (Z.of_nat u) ts).
  { intros u d Hd. apply lookup_lt_Some in Hd as Hu. rewrite Hldeg in Hu.
    rewrite (Hdeg u 0) in Hd; [|now apply lookup_replicate_2|lia].
    injection Hd as <-. pose proof (count_upper_range uniq (Z.of_nat u) ts).
    rewrite Z.add_0_l. apply wrap32_small. lia. }
  (* the prefix sums *)
  destruct (prefix_progress deg (length uniq) 0 (replicate (S (length uniq)) 0))
    as (off & Hsums); [lia|rewrite length_replicate; lia|].
  change (Z.of_nat 0) with 0 in Hsums. rewrite Hsums. cbn [bind].
  pose proof (prefix_sums_length _ _ _ _ _ Hsums) as Hloff.
  rewrite length_replicate in Hloff.
  assert (Hoff : forall j : nat, (j <= length uniq)%nat ->
             off !! j = Some (count_below uniq (Z.of_nat j) ts)).
  { change 0 with (Z.of_nat 0) in Hsums.
    apply (prefix_sums_Ok uniq ts deg Hdeg' ltac:(lia)) in Hsums as [_ Hoff].
    - intros j Hj. apply Hoff. lia.
    - intros j Hj. assert (j = 0%nat) by lia. subst j.
      rewrite count_below_0. apply lookup_replicate_2. lia. }
  assert (Hoff' : forall (j : nat) (o : Z),
             off !! j = Some o -> o = count_below uniq (Z.of_nat j) ts).
  { intros j o Ho. apply lookup_lt_Some in Ho as Hj.
    rewrite Hoff in Ho by lia. congruence. }
  assert (Htotal : vget off (Z.of_nat (length uniq))
                   = Ok (count_below uniq (Z.of_nat (length uniq)) ts)).
  { apply vget_Ok. rewrite Nat2Z.id. now apply Hoff. }
  rewrite Htotal. cbn [bind].
  set (total := count_below uniq (Z.of_nat (length uniq)) ts) in *.
  (* pass 3 *)
  destruct (fill_progress uniq ts (length uniq) ltac:(lia) eq_refl ltac:(lia)
              ts [] off (replicate (Z.to_nat total) 0) (replicate (Z.to_nat total) 0) [])
    as ([[[cur nei] wts] loops] & Hpass3);
    try (apply length_replicate); try reflexivity; try assumption.
  { intros u Hu. rewrite Hoff by lia. f_equal.
    change (count_upper uniq (Z.of_nat u) []) with 0. lia. }
  rewrite Hpass3. cbn [bind].
  apply (fill_pass uniq ts off Hoff' ltac:(lia) ts [] off) in Hpass3
    as (Hln & Hlw & _ & _); try reflexivity.
  2:{ intros u o Ho. rewrite Ho. f_equal. change (count_upper uniq (Z.of_nat u) []) with 0. lia. }
  2:{ intros u k o e _ He. now destruct k. }
  rewrite length_replicate in Hln, Hlw.
  (* the sorts *)
  destruct (sort_progress sort uniq ts off (length uniq) Hsort ltac:(lia) Hoff
              (length uniq) 0 nei wts) as ([nei' wts'] & Hsorts);
    [lia|assumption|assumption|].
  change (Z.of_nat 0) with 0 in Hsorts. rewrite Hsorts. cbn [bind]. eauto.
Qed.

(** ** The tables are written, and how many bytes at least *)

Lemma emit_entries_length (es : list (Z * Z)) :
  forall prev : Z, (2 * length es <= length (Serializer.emit_entries prev es))%nat.
Proof.
  induction es as [|[j w] es IH]; intros prev; cbn [Serializer.emit_entries length]; [lia|].
  rewrite !length_app. pose proof (varu_nonempty (wrap32 (j - prev))).
  pose proof (IH j). cbn [BinWriter.put length]. lia.
Qed.

Lemma emit_deltas_progress (uniq : list Z) (n : nat) :
  forall k : nat,
    (1 <= k)%nat -> (k + n <= length uniq)%nat ->
    exists bytes, Serializer.emit_deltas n (Z.of_nat k) uniq = Ok bytes
                  /\ (n <= length bytes)%nat.
Proof.
  induction n as [|n IH]; intros k Hk Hfit; cbn [Serializer.emit_deltas].
  - exists []. split; [reflexivity|cbn; lia].
  - destruct (vget_inside uniq (Z.of_nat k)) as (x & -> & _); [lia|]. cbn [bind].
    destruct (vget_inside uniq (Z.of_nat k - 1)) as (y & -> & _); [lia|]. cbn [bind].
    replace (Z.of_nat k + 1) with (Z.of_nat (S k)) by lia.
    destruct (IH (S k)) as (rest & -> & Hrest); [lia|lia|]. cbn [bind].
    eexists. split; [reflexivity|]. rewrite length_app.
    pose proof (varu_nonempty (wrap32 (x - y))). lia.
Qed.

Lemma emit_adjacency_progress uniq ts (off nei wts : list Z) (N : nat) :
  Z.of_nat (length ts) < 2^64 ->
  (forall j : nat, (j <= N)%nat -> off !! j = Some (count_below uniq (Z.of_nat j) ts)) ->
  length nei = Z.to_nat (count_below uniq (Z.of_nat N) ts) ->
  length wts = Z.to_nat (count_below uniq (Z.of_nat N) ts) ->
  forall n k : nat,
    (k + n <= N)%nat ->
    exists bytes,
      Serializer.emit_adjacency n (Z.of_nat k) off nei wts = Ok bytes
      /\ Z.of_nat n + 2 * (count_below uniq (Z.of_nat (k + n)) ts
                           - count_below uniq (Z.of_nat k) ts)
         <= Z.of_nat (length bytes).
Proof.
  intros Hbound Hoff Hn Hw.
  induction n as [|n IH]; intros k Hk; cbn [Serializer.emit_adjacency].
  - exists []. split; [reflexivity|]. rewrite Nat.add_0_r. cbn [length]. lia.
  - assert (Hb : vget off (Z.of_nat k) = Ok (count_below uniq (Z.of_nat k) ts)).
    { apply vget_Ok. rewrite Nat2Z.id. apply Hoff. lia. }
    assert (He : vget off (Z.of_nat k + 1)
                 = Ok (count_below uniq (Z.of_nat k) ts + count_upper uniq (Z.of_nat k) ts)).
    { apply vget_Ok. replace (Z.to_nat (Z.of_nat k + 1)) with (S k) by lia.
      rewrite <- count_below_succ. replace (Z.of_nat k + 1) with (Z.of_nat (S k)) by lia.
      apply Hoff. lia. }
    rewrite Hb, He. cbn [bind].
    pose proof (count_upper_range uniq (Z.of_nat k) ts) as Hck.
    pose proof (count_below_range uniq (Z.of_nat k) ts) as Hbk.
    pose proof (count_below_mono uniq (Z.of_nat k + 1) (Z.of_nat N) ts ltac:(lia)) as Hm.
    rewrite count_below_succ in Hm.
    replace (count_below uniq (Z.of_nat k) ts + count_upper uniq (Z.of_nat k) ts
             - count_below uniq (Z.of_nat k) ts)
      with (count_upper uniq (Z.of_nat k) ts) by lia.
    rewrite !vslice_inside by lia. cbn [bind].
    replace (Z.of_nat k + 1) with (Z.of_nat (S k)) by lia.
    destruct (IH (S k)) as (rest & -> & Hrest); [lia|]. cbn [bind].
    eexists. split; [reflexivity|].
    rewrite !length_app.
    set (es := zip _ _).
    assert (Hes : length es = Z.to_nat (count_upper uniq (Z.of_nat k) ts)).
    { unfold es. rewrite length_zip_same; rewrite !length_slice; lia. }
    pose proof (emit_entries_length es (Z.of_nat k)) as Hent.
    pose proof (varu_nonempty (wrap64 (count_upper uniq (Z.of_nat k) ts))) as Hv.
    replace (S k + n)%nat with (k + S n)%nat in Hrest by lia.
    replace (Z.of_nat (S k)) with (Z.of_nat k + 1) in Hrest by lia.
    rewrite count_below_succ in Hrest. lia.
Qed.

Lemma count_split uniq (ts : list (Z * Z * Z)) (N : nat) :
  Forall (fun t => (Z.to_nat (lo uniq t) < N)%nat) ts ->
  count_below uniq (Z.of_nat N) ts + Z.of_nat (length (loops_of uniq ts))
  = Z.of_nat (length ts).
Proof.
  induction 1 as [|t ts Ht _ IH]; [reflexivity|].
  rewrite count_below_cons. unfold loops_of in *. cbn [List.filter length].
  pose proof (lo_nonneg uniq t). unfold is_below.
  destruct (is_loop uniq t); cbn [negb andb map length].
  - lia.
  - destruct (Z.ltb_spec (lo uniq t) (Z.of_nat N)); lia.
Qed.

Lemma emit_total sort (ts : list (Z * Z * Z)) (g : Serializer.tables) :
  std_sort_contract sort ->
  Z.of_nat (length ts) < 2^31 -> ts <> [] ->
  Serializer.build sort ts = Ok g ->
  exists out,
    Serializer.emit g = Ok out
    /\ (1 <= length (Serializer.uniq g))%nat
    /\ (12 + 2 * length (Serializer.uniq g) + 2 * length ts <= length out)%nat.
Proof.
  intros Hsort Hbound Hne Hbuild.
  destruct (build_Ok sort ts g Hsort ltac:(lia) Hbuild)
    as (Huniq & Hoff & Hln & Hlw & _ & Hlp & _).
  pose proof (build_resolved sort ts g Hbuild) as Hres.
  pose proof (uniq_size ts Hbound) as Hsize.
  rewrite <- Huniq in Hoff, Hln, Hlw, Hlp, Hsize.
  set (uniq := Serializer.uniq g) in *.
  assert (HN : Serializer.N_of g = Z.of_nat (length uniq)).
  { unfold Serializer.N_of. fold uniq. apply wrap32_small. lia. }
  rewrite HN, Nat2Z.id in Hoff, Hln, Hlw.
  assert (Hpos : (1 <= length uniq)%nat).
  { destruct ts as [|t ts]; [congruence|].
    inversion Hres as [|? ? [Ha _] _]; subst.
    unfold resolved in Ha. apply lookup_lt_Some in Ha. lia. }
  unfold Serializer.emit. rewrite HN. fold uniq. rewrite Nat2Z.id.
  unfold Serializer.emit_mapping.
  destruct (Z.ltb_spec 0 (Z.of_nat (length uniq))) as [_|]; [|lia].
  destruct (vget_inside uniq 0) as (first & -> & _); [lia|]. cbn [bind].
  replace (Z.to_nat (Z.of_nat (length uniq) - 1)) with (length uniq - 1)%nat by lia.
  destruct (emit_deltas_progress uniq (length uniq - 1) 1) as (deltas & Hd & Hdl);
    [lia|lia|].
  change (Z.of_nat 1) with 1 in Hd. rewrite Hd. cbn [bind].
  destruct (emit_adjacency_progress uniq ts (Serializer.off g) (Serializer.upper_nei g)
              (Serializer.upper_w g) (length uniq) ltac:(lia) Hoff Hln Hlw (length uniq) 0)
    as (adj & Hadj & Hal); [lia|].
  change (Z.of_nat 0) with 0 in Hadj. rewrite Hadj. cbn [bind].
  eexists. split; [reflexivity|]. split; [exact Hpos|].
  rewrite !length_app.
  change (length Serializer.header) with 6%nat.
  change (length (BinWriter.u32le first)) with 4%nat.
  pose proof (varu_nonempty (Z.of_nat (length uniq))).
  pose proof (varu_nonempty (wrap64 (Serializer.M_noLoops g
                                     + Z.of_nat (length (Serializer.loops g))))).
  pose proof (varu_nonempty (Z.of_nat (length (Serializer.loops g)))).
  pose proof (emit_entries_length (Serializer.loops g) 0) as Hent.
  rewrite count_below_0 in Hal. cbn [Nat.add] in Hal.
  assert (Hsplit : count_below uniq (Z.of_nat (length uniq)) ts
                   + Z.of_nat (length (Serializer.loops g)) = Z.of_nat (length ts)).
  { rewrite (Permutation_length Hlp). apply count_split.
    eapply Forall_impl; [exact Hres|]. intros t Ht. now apply lo_resolved; [lia|]. }
  lia.
Qed.

(** ** The lines read back have the smaller id first *)

Lemma ascending_nth (l : list Z) :
  Sorted Z.lt l ->
  forall i j : nat, (i < j < length l)%nat -> nth i l 0 < nth j l 0.
Proof.
  intros Hs. apply Sorted_StronglySorted in Hs; [|intros a b c; lia].
  induction Hs as [|x l Hs IH Hall]; intros i j Hij; [cbn in Hij; lia|].
  destruct j as [|j]; [lia|]. cbn [length] in Hij.
  destruct i as [|i]; cbn [nth].
  - rewrite List.Forall_forall in Hall. apply Hall. apply nth_In. lia.
  - apply IH. lia.
Qed.

Lemma canon_oriented (t : Z * Z * Z) : t.1.1 <= t.1.2 -> canon t = t.
Proof.
  destruct t as [[a b] w]. unfold canon. cbn [fst snd]. intros H.
  now rewrite Z.min_l, Z.max_r by assumption.
Qed.

Lemma decoded_oriented sort (ts : list (Z * Z * Z)) (g : Serializer.tables) :
  std_sort_contract sort ->
  Forall triplet_in_range ts ->
  Z.of_nat (length ts) < 2^31 ->
  Serializer.build sort ts = Ok g ->
  Forall (fun t => t.1.1 <= t.1.2) (decoded_triplets ts g).
Proof.
  intros Hsort Hrange Hbound Hbuild.
  destruct (build_Ok sort ts g Hsort ltac:(lia) Hbuild)
    as (Huniq & _ & _ & _ & Hall & _ & _).
  pose proof (build_resolved sort ts g Hbuild) as Hres.
  pose proof (uniq_size ts Hbound) as Hsize.
  pose proof (uniq_ascending (Serializer.collect_ids ts)) as Hasc.
  rewrite <- Huniq in Hall, Hsize, Hasc.
  set (uniq := Serializer.uniq g) in *.
  assert (HN : Serializer.N_of g = Z.of_nat (length uniq)).
  { unfold Serializer.N_of. fold uniq. apply wrap32_small. lia. }
  rewrite HN, Nat2Z.id in Hall.
  unfold decoded_triplets. fold uniq. apply Forall_app. split.
  - apply Forall_flat_map_seq. intros u Hu.
    unfold entry_triplets. apply Forall_map.
    destruct (Hall u Hu) as [Hperm _].
    eapply Permutation_Forall; [symmetry; exact Hperm|].
    pose proof (upper_of_above uniq (Z.of_nat u) ts) as Habove.
    pose proof (upper_of_ok uniq (Z.of_nat u) ts ltac:(lia) Hrange Hres) as Hok.
    rewrite Forall_forall in Habove. rewrite List.Forall_forall in Hok.
    apply List.Forall_forall. intros e He. cbn [fst snd].
    specialize (Habove e ltac:(now apply list_elem_of_In)).
    destruct (Hok e He) as (_ & Hlt & _).
    unfold orig_at. rewrite Nat2Z.id. apply Z.lt_le_incl.
    apply ascending_nth; [assumption|lia].
  - unfold loop_triplets. apply Forall_map. apply List.Forall_forall.
    intros e _. cbn [fst snd]. lia.
Qed.

Lemma map_canon_oriented (l : list (Z * Z * Z)) :
  Forall (fun t => t.1.1 <= t.1.2) l -> map canon l = l.
Proof.
  induction 1 as [|t l Ht _ IH]; [reflexivity|].
  cbn [map]. now rewrite canon_oriented, IH.
Qed.



Lemma two_members (l : list Z) (i j : nat) (a b : Z) :
  l !! i = Some a -> l !! j = Some b -> a <> b -> (2 <= length l)%nat.
Proof.
  intros Ha Hb Hne.
  assert (i <> j) by (intros ->; congruence).
  apply lookup_lt_Some in Ha, Hb. lia.
Qed.

(** The binary of an input that is not empty and not a lone self-loop has
    at least eighteen bytes. *)
Lemma run_past_size_check (sort : list (Z * Z) -> list (Z * Z))
    (data : list byte) (ts : list (Z * Z * Z)) :
  std_sort_contract sort ->
  TSVScanner.for_each_triplet data = Ok ts ->
  Z.of_nat (length ts) < 2^31 ->
  (2 <= length ts)%nat \/ (exists a b w, ts = [(a, b, w)] /\ a <> b) ->
  exists out : list byte,
    Serializer.run sort data = Ok out /\ (18 <= length out)%nat.
Proof.
  intros Hsort Hscan Hbound Hshape.
  assert (Hne : ts <> []).
  { destruct Hshape as [Hlen|(a & b & w & -> & _)]; [|discriminate].
    intros ->. cbn in Hlen. lia. }
  destruct (build_total sort ts Hsort Hbound) as (g & Hbuild).
  destruct (emit_total sort ts g Hsort Hbound Hne Hbuild) as (out & Hemit & Hpos & Hsize).
  exists out. split.
  - unfold Serializer.run. rewrite Hscan. cbn [bind].
    destruct ts as [|t ts']; [congruence|]. rewrite Hbuild. exact Hemit.
  - destruct Hshape as [Hlen|(a & b & w & -> & Hab)]; [lia|].
    pose proof (build_resolved sort _ g Hbuild) as Hres.
    inversion Hres as [|? ? [Ha Hb] _]; subst. cbn [fst snd] in Ha, Hb.
    pose proof (two_members _ _ _ _ _ Ha Hb Hab). cbn [length] in Hsize. lia.
Qed.

(** X19.  The round trip of every input but two.  An edge list of fewer
    than [2^31] lines that is not empty and is not a single self-loop is
    serialized to a binary that the deserializer decodes, and the text it
    writes scans to the edges of the input, each with its smaller id
    first, in some order: none lost, none added, no weight changed. *)
Theorem roundtrip_unless_lone_loop (sort : list (Z * Z) -> list (Z * Z))
    (data : list byte) (ts : list (Z * Z * Z)) :
  std_sort_contract sort ->
  TSVScanner.for_each_triplet data = Ok ts ->
  Z.of_nat (length ts) < 2^31 ->
  (2 <= length ts)%nat \/ (exists a b w, ts = [(a, b, w)] /\ a <> b) ->
  exists (out : list byte) (decoded : list (Z * Z * Z)),
    Serializer.run sort data = Ok out
    /\ Deserializer.run out = Ok (text_of decoded)
    /\ TSVScanner.for_each_triplet (text_of decoded) = Ok decoded
    /\ Permutation decoded (map canon ts).
Proof.
  intros Hsort Hscan Hbound Hshape.
  destruct (run_past_size_check sort data ts Hsort Hscan Hbound Hshape)
    as (out & Hrun & H18).
  destruct (roundtrip_past_size_check sort data out ts Hsort Hscan Hbound Hrun H18)
    as (g' & Hbuild' & Hread & Hrescan & Hperm).
  exists out, (decoded_triplets ts g'). repeat split; try assumption.
  rewrite <- (map_canon_oriented (decoded_triplets ts g')); [exact Hperm|].
  apply (decoded_oriented sort); try assumption.
  now apply (for_each_triplet_range data).
Qed.

Lemma roundtrip_unless_lone_loop_witness :
  exists (out : list byte) (decoded : list (Z * Z * Z)),
    Serializer.run insertion_sort tsv_mixed = Ok out
    /\ Deserializer.run out = Ok (text_of decoded)
    /\ TSVScanner.for_each_triplet (text_of decoded) = Ok decoded
    /\ Permutation decoded
         (map canon [(1, 2, 10); (2, 1, 20); (5, 3, 9); (3, 3, 0)]).
Proof.
  apply (roundtrip_unless_lone_loop insertion_sort tsv_mixed
           [(1, 2, 10); (2, 1, 20); (5, 3, 9); (3, 3, 0)]).
  - exact insertion_sort_contract.
  - reflexivity.
  - simpl. lia.
  - left. simpl. lia.
Defined.

(** ** The counts in the header *)

Lemma count_pass_counter uniq (ts : list (Z * Z * Z)) :
  forall deg m l deg' m' l',
    0 <= m < 2^64 ->
    Serializer.for_each (Serializer.count_edge uniq) (deg, m, l) ts = Ok (deg', m', l') ->
    m' = wrap64 (m + Z.of_nat (length ts) - Z.of_nat (length (loops_of uniq ts))).
Proof.
  induction ts as [|t ts IH]; intros deg m l deg' m' l' Hm H.
  - cbn in H. injection H as <- <- <-. cbn [length loops_of List.filter map].
    rewrite wrap64_small; lia.
  - cbn [Serializer.for_each] in H.
    apply bind_Ok in H as ([[deg1 m1] l1] & Hstep & H1).
    apply count_edge_Ok in Hstep. unfold loops_of in *. cbn [List.filter length].
    destruct (is_loop uniq t).
    + injection Hstep as -> -> ->. apply IH in H1; [|assumption].
      rewrite H1. cbn [map length]. f_equal. lia.
    + destruct Hstep as (d & _ & Hst). injection Hst as -> -> ->.
      apply IH in H1; [|apply wrap64_range].
      rewrite H1.
      match goal with
      | |- wrap64 (wrap64 ?x + ?a - ?b) = _ =>
          replace (wrap64 x + a - b) with (wrap64 x + (a - b)) by lia
      end.
      rewrite wrap64_add_l. f_equal. cbn [length]. lia.
Qed.

Lemma build_M_noLoops sort (ts : list (Z * Z * Z)) (g : Serializer.tables) :
  Serializer.build sort ts = Ok g ->
  Serializer.M_noLoops g
  = wrap64 (Z.of_nat (length ts)
            - Z.of_nat (length (loops_of (Serializer.uniq g) ts))).
Proof.
  unfold Serializer.build. intros H.
  apply bind_Ok in H as ([[deg M] L] & Hpass2 & H1). cbv beta iota in H1.
  apply bind_Ok in H1 as (off & _ & H2).
  apply bind_Ok in H2 as (total & _ & H3).
  apply bind_Ok in H3 as ([[[cur nei] wts] loops] & _ & H4). cbv beta iota in H4.
  apply bind_Ok in H4 as ([nei' wts'] & _ & H5). cbv beta iota in H5.
  injection H5 as <-. cbn [Serializer.uniq Serializer.M_noLoops].
  apply count_pass_counter in Hpass2; [|lia]. now rewrite Z.add_0_l in Hpass2.
Qed.

Lemma unique_from (x : Z) (l : list Z) : In x (Serializer.unique l) -> In x l.
Proof.
  intros Hin.
  assert (Hall : Forall (fun y => In y l) (Serializer.unique l)).
  { apply unique_subset. apply List.Forall_forall. auto. }
  rewrite List.Forall_forall in Hall. now apply Hall.
Qed.

(** X20.  The counts that the serializer writes behind the six header
    bytes: [N] is the size of a strictly ascending list that holds exactly
    the ids of the input, so the number of distinct ids, and [M_total] is
    the number of edge lines, self-loops counted. *)
Theorem emitted_counts (sort : list (Z * Z) -> list (Z * Z))
    (data out : list byte) (ts : list (Z * Z * Z)) :
  std_sort_contract sort ->
  TSVScanner.for_each_triplet data = Ok ts ->
  Z.of_nat (length ts) < 2^31 ->
  Serializer.run sort data = Ok out ->
  exists (uniq : list Z) (rest : list byte),
    out = Serializer.header ++ BinWriter.varu (Z.of_nat (length uniq))
          ++ BinWriter.varu (Z.of_nat (length ts)) ++ rest
    /\ Sorted Z.lt uniq
    /\ forall x : Z, In x uniq <-> In x (Serializer.collect_ids ts).
Proof.
  intros Hsort Hscan Hbound Hrun. unfold Serializer.run in Hrun.
  rewrite Hscan in Hrun. cbn [bind] in Hrun.
  destruct ts as [|t0 ts0].
  - apply Ok_inj in Hrun. subst out. exists [], [].
    rewrite app_nil_r. repeat split; [constructor|intros []|intros []].
  - set (ts := t0 :: ts0) in *.
    apply bind_Ok in Hrun as (g & Hbuild & Hemit).
    destruct (build_Ok sort ts g Hsort ltac:(lia) Hbuild)
      as (Huniq & _ & _ & _ & _ & Hlp & _).
    pose proof (build_M_noLoops sort ts g Hbuild) as HM.
    pose proof (uniq_size ts Hbound) as Hsize. rewrite <- Huniq in Hsize, Hlp.
    unfold Serializer.emit in Hemit.
    apply bind_Ok in Hemit as (mapping & _ & H1).
    apply bind_Ok in H1 as (adjacency & _ & H2). apply Ok_inj in H2.
    exists (Serializer.uniq g),
      (mapping ++ adjacency
       ++ BinWriter.varu (Z.of_nat (length (Serializer.loops g)))
       ++ Serializer.emit_entries 0 (Serializer.loops g)).
    split; [|split].
    + rewrite <- H2. unfold Serializer.N_of. rewrite wrap32_small by lia.
      do 2 f_equal. f_equal. f_equal.
      rewrite HM, (Permutation_length Hlp), wrap64_add_l.
      pose proof (filter_length_le (is_loop (Serializer.uniq g)) ts) as Hle.
      unfold loops_of in *. rewrite length_map in *.
      rewrite Z.sub_add. apply wrap64_small. lia.
    + rewrite Huniq. apply uniq_ascending.
    + intros x. rewrite Huniq. split.
      * intros Hin. apply unique_from in Hin. unfold Serializer.sort_ids in Hin.
        apply list_elem_of_In in Hin. rewrite merge_sort_Permutation in Hin.
        now apply list_elem_of_In.
      * intros Hin. apply resolved_member in Hin. unfold resolved in Hin.
        apply list_elem_of_In. now apply list_elem_of_lookup_2 in Hin.
Qed.

Lemma emitted_counts_witness :
  exists (uniq : list Z) (rest : list byte),
    bin_mixed = Serializer.header ++ BinWriter.varu (Z.of_nat (length uniq))
                ++ BinWriter.varu
                     (Z.of_nat (length [(1, 2, 10); (2, 1, 20); (5, 3, 9); (3, 3, 0)]))
                ++ rest
    /\ Sorted Z.lt uniq
    /\ forall x : Z,
         In x uniq
         <-> In x (Serializer.collect_ids [(1, 2, 10); (2, 1, 20); (5, 3, 9); (3, 3, 0)]).
Proof.
  apply (emitted_counts insertion_sort tsv_mixed bin_mixed
           [(1, 2, 10); (2, 1, 20); (5, 3, 9); (3, 3, 0)]).
  - exact insertion_sort_contract.
  - reflexivity.
  - simpl. lia.
  - reflexivity.
Defined.

(** ** The order of the lines read back *)

Lemma orig_at_mono (uniq : list Z) (i j : Z) :
  Sorted Z.lt uniq -> 0 <= i <= j -> (Z.to_nat j < length uniq)%nat ->
  orig_at uniq i <= orig_at uniq j.
Proof.
  intros Hs Hij Hj. unfold orig_at.
  destruct (Z.eq_dec i j) as [->|Hne]; [lia|].
  apply Z.lt_le_incl. apply ascending_nth; [assumption|lia].
Qed.

Lemma StronglySorted_app_all {A} (R : A -> A -> Prop) (l1 l2 : list A) :
  StronglySorted R l1 -> StronglySorted R l2 ->
  (forall x y, In x l1 -> In y l2 -> R x y) ->
  StronglySorted R (l1 ++ l2).
Proof.
  intros H1 H2 Hcross. induction H1 as [|x l1 H1 IH Hall]; [exact H2|].
  cbn [app]. constructor.
  - apply IH. intros a b Ha Hb. apply Hcross; [now right|assumption].
  - apply Forall_app. split; [assumption|].
    apply List.Forall_forall. intros y Hy. apply Hcross; [now left|assumption].
Qed.

Lemma StronglySorted_blocks {A} (R : A -> A -> Prop) (f : nat -> list A) (n : nat) :
  forall a : nat,
    (forall u, (a <= u < a + n)%nat -> StronglySorted R (f u)) ->
    (forall u u' x y, (a <= u < u')%nat -> (u' < a + n)%nat ->
                      In x (f u) -> In y (f u') -> R x y) ->
    StronglySorted R (flat_map f (seq a n)).
Proof.
  induction n as [|n IH]; intros a Hin Hcross; cbn [seq flat_map]; [constructor|].
  apply StronglySorted_app_all.
  - apply Hin. lia.
  - apply IH.
    + intros u Hu. apply Hin. lia.
    + intros u u' x y Hu Hu'. apply Hcross; lia.
  - intros x y Hx Hy. apply in_flat_map in Hy as (u' & Hu' & Hy).
    apply in_seq in Hu'. apply (Hcross a u'); try assumption; lia.
Qed.

Lemma by_first_strongly (es : list (Z * Z)) :
  Sorted by_first es -> StronglySorted by_first es.
Proof. apply Sorted_StronglySorted. intros a b c. unfold by_first. lia. Qed.

Lemma entry_block_sorted (uniq : list Z) (u : Z) (es : list (Z * Z)) :
  Sorted Z.lt uniq -> Sorted by_first es ->
  Forall (entry_ok uniq) es ->
  StronglySorted edge_le (entry_triplets uniq u es).
Proof.
  intros Hs Hes Hok. apply by_first_strongly in Hes.
  induction Hes as [|e es Hes IH Hall]; [constructor|].
  inversion Hok as [|? ? He Hok']; subst.
  cbn [entry_triplets map]. constructor; [now apply IH|].
  fold (entry_triplets uniq u es). unfold entry_triplets. apply Forall_map.
  rewrite List.Forall_forall in Hall, Hok'. apply List.Forall_forall. intros e' He'.
  right. cbn [fst snd]. split; [reflexivity|].
  destruct He as (He0 & _ & _). destruct (Hok' e' He') as (_ & Hlt & _).
  specialize (Hall e' He'). unfold by_first in Hall.
  apply orig_at_mono; [assumption|lia|assumption].
Qed.

Lemma loop_block_sorted (uniq : list Z) (es : list (Z * Z)) :
  Sorted Z.lt uniq -> Sorted by_first es ->
  Forall (entry_ok uniq) es ->
  StronglySorted edge_le (loop_triplets uniq es).
Proof.
  intros Hs Hes Hok. apply by_first_strongly in Hes.
  induction Hes as [|e es Hes IH Hall]; [constructor|].
  inversion Hok as [|? ? He Hok']; subst.
  cbn [loop_triplets map]. constructor; [now apply IH|].
  fold (loop_triplets uniq es). unfold loop_triplets. apply Forall_map.
  rewrite List.Forall_forall in Hall, Hok'. apply List.Forall_forall. intros e' He'.
  destruct He as (He0 & _ & _). destruct (Hok' e' He') as (_ & Hlt & _).
  specialize (Hall e' He'). unfold by_first in Hall.
  pose proof (orig_at_mono uniq e.1 e'.1 Hs ltac:(lia) Hlt) as Hle.
  unfold edge_le. cbn [fst snd]. lia.
Qed.

Lemma decoded_sorted sort (ts : list (Z * Z * Z)) (g : Serializer.tables) :
  std_sort_contract sort ->
  Forall triplet_in_range ts ->
  Z.of_nat (length ts) < 2^31 ->
  Serializer.build sort ts = Ok g ->
  exists edges loops : list (Z * Z * Z),
    decoded_triplets ts g = edges ++ loops
    /\ Sorted edge_le edges /\ Forall (fun t => t.1.1 < t.1.2) edges
    /\ Sorted edge_le loops /\ Forall (fun t => t.1.1 = t.1.2) loops.
Proof.
  intros Hsort Hrange Hbound Hbuild.
  destruct (build_Ok sort ts g Hsort ltac:(lia) Hbuild)
    as (Huniq & _ & _ & _ & Hall & Hlp & Hls).
  pose proof (build_resolved sort ts g Hbuild) as Hres.
  pose proof (uniq_size ts Hbound) as Hsize.
  pose proof (uniq_ascending (Serializer.collect_ids ts)) as Hasc.
  rewrite <- Huniq in Hall, Hsize, Hasc, Hlp.
  set (uniq := Serializer.uniq g) in *.
  assert (HN : Serializer.N_of g = Z.of_nat (length uniq)).
  { unfold Serializer.N_of. fold uniq. apply wrap32_small. lia. }
  rewrite HN, Nat2Z.id in Hall.
  assert (Hentries : forall u : nat, (u < length uniq)%nat ->
             Forall (entry_ok uniq)
               (range_entries uniq ts (Serializer.upper_nei g) (Serializer.upper_w g)
                  (Z.of_nat u))
             /\ Forall (fun e => Z.of_nat u < e.1)
                  (range_entries uniq ts (Serializer.upper_nei g) (Serializer.upper_w g)
                     (Z.of_nat u))).
  { intros u Hu. split.
    - eapply Permutation_Forall; [symmetry; apply (Hall u Hu)|].
      apply upper_of_ok; [lia|assumption..].
    - eapply Permutation_Forall; [symmetry; apply (Hall u Hu)|].
      apply upper_of_above. }
  assert (Hloops : Forall (entry_ok uniq) (Serializer.loops g)).
  { eapply Permutation_Forall; [symmetry; exact Hlp|].
    apply loops_of_ok; [lia|assumption..]. }
  eexists _, _. split; [reflexivity|]. fold uniq. repeat split.
  - apply StronglySorted_Sorted. apply StronglySorted_blocks.
    + intros u Hu. apply entry_block_sorted; [assumption|apply Hall; lia|apply Hentries; lia].
    + intros u u' x y Hu Hu' Hx Hy. left.
      unfold entry_triplets in Hx, Hy.
      apply in_map_iff in Hx as (e & <- & _). apply in_map_iff in Hy as (e' & <- & _).
      cbn [fst snd]. unfold orig_at. rewrite !Nat2Z.id.
      apply ascending_nth; [assumption|lia].
  - apply Forall_flat_map_seq. intros u Hu.
    destruct (Hentries u Hu) as [Hok Habove].
    unfold entry_triplets. apply Forall_map.
    rewrite List.Forall_forall in Hok. rewrite Forall_forall in Habove.
    apply List.Forall_forall. intros e He. cbn [fst snd].
    destruct (Hok e He) as (_ & Hlt & _).
    specialize (Habove e ltac:(now apply list_elem_of_In)). cbn beta in Habove.
    unfold orig_at. rewrite Nat2Z.id. apply ascending_nth; [assumption|lia].
  - apply StronglySorted_Sorted. now apply loop_block_sorted.
  - unfold loop_triplets. apply Forall_map. apply List.Forall_forall.
    intros e _. reflexivity.
Qed.

(** X21.  The order of the text read back, which the head of main.cpp
    describes as "increasing i and neighbor order": for an input of fewer
    than [2^31] lines that is not empty and not a lone self-loop, the text
    that comes out of the round trip lists first the edges between two
    ids, each with the smaller id first, sorted by the smaller and then by
    the larger id, and behind them the self-loops sorted by their id.  The
    lines listed are the ones of the text: they are two [uint32_t] and a
    [uint8_t] each, the scanner reads them back from the text as they
    are, and they are the lines of the input, each turned to have its
    smaller id first, in another order. *)
Theorem decoded_text_sorted (sort : list (Z * Z) -> list (Z * Z))
    (data : list byte) (ts : list (Z * Z * Z)) :
  std_sort_contract sort ->
  TSVScanner.for_each_triplet data = Ok ts ->
  Z.of_nat (length ts) < 2^31 ->
  (2 <= length ts)%nat \/ (exists a b w, ts = [(a, b, w)] /\ a <> b) ->
  exists (out : list byte) (edges loops : list (Z * Z * Z)),
    Serializer.run sort data = Ok out
    /\ Deserializer.run out = Ok (text_of (edges ++ loops))
    /\ Forall triplet_in_range (edges ++ loops)
    /\ TSVScanner.for_each_triplet (text_of (edges ++ loops)) = Ok (edges ++ loops)
    /\ Permutation (edges ++ loops) (map canon ts)
    /\ Sorted edge_le edges /\ Forall (fun t => t.1.1 < t.1.2) edges
    /\ Sorted edge_le loops /\ Forall (fun t => t.1.1 = t.1.2) loops.
Proof.
  intros Hsort Hscan Hbound Hshape.
  destruct (run_past_size_check sort data ts Hsort Hscan Hbound Hshape)
    as (out & Hrun & H18).
  destruct (roundtrip_past_size_check sort data out ts Hsort Hscan Hbound Hrun H18)
    as (g & Hbuild & Hread & Hrescan & Hperm).
  pose proof (for_each_triplet_range data ts Hscan) as Hrange.
  rewrite (map_canon_oriented (decoded_triplets ts g)) in Hperm
    by now apply (decoded_oriented sort).
  destruct (decoded_sorted sort ts g Hsort Hrange Hbound Hbuild)
    as (edges & loops & Heq & Hse & Hoe & Hsl & Hol).
  exists out, edges, loops. rewrite <- Heq.
  split; [assumption|]. split; [assumption|].
  split; [now apply (for_each_triplet_range (text_of (decoded_triplets ts g)))|].
  repeat split; assumption.
Qed.

Lemma decoded_text_sorted_witness :
  exists (out : list byte) (edges loops : list (Z * Z * Z)),
    Serializer.run insertion_sort tsv_mixed = Ok out
    /\ Deserializer.run out = Ok (text_of (edges ++ loops))
    /\ Forall triplet_in_range (edges ++ loops)
    /\ TSVScanner.for_each_triplet (text_of (edges ++ loops)) = Ok (edges ++ loops)
    /\ Permutation (edges ++ loops)
         (map canon [(1, 2, 10); (2, 1, 20); (5, 3, 9); (3, 3, 0)])
    /\ Sorted edge_le edges /\ Forall (fun t => t.1.1 < t.1.2) edges
    /\ Sorted edge_le loops /\ Forall (fun t => t.1.1 = t.1.2) loops.
Proof.
  apply (decoded_text_sorted insertion_sort tsv_mixed
           [(1, 2, 10); (2, 1, 20); (5, 3, 9); (3, 3, 0)]).
  - exact insertion_sort_contract.
  - reflexivity.
  - simpl. lia.
  - left. simpl. lia.
Defined.

(** * The binary of a graph without parallel edges *)

(** ** The tables see an edge through its endpoints in order *)

Lemma lo_canon uniq t : lo uniq (canon t) = lo uniq t.
Proof.
  destruct t as [[a b] w]. unfold lo, canon. cbn [fst snd].
  destruct (Z.le_ge_cases a b).
  - now rewrite (Z.min_l a b), (Z.max_r a b) by lia.
  - rewrite (Z.min_r a b), (Z.max_l a b) by lia. apply Z.min_comm.
Qed.

Lemma hi_canon uniq t : hi uniq (canon t) = hi uniq t.
Proof.
  destruct t as [[a b] w]. unfold hi, canon. cbn [fst snd].
  destruct (Z.le_ge_cases a b).
  - now rewrite (Z.min_l a b), (Z.max_r a b) by lia.
  - rewrite (Z.min_r a b), (Z.max_l a b) by lia. apply Z.max_comm.
Qed.

Lemma is_loop_canon uniq t : is_loop uniq (canon t) = is_loop uniq t.
Proof.
  destruct t as [[a b] w]. unfold is_loop, canon. cbn [fst snd].
  destruct (Z.le_ge_cases a b).
  - now rewrite (Z.min_l a b), (Z.max_r a b) by lia.
  - rewrite (Z.min_r a b), (Z.max_l a b) by lia. apply Z.eqb_sym.
Qed.

Lemma upper_of_canon uniq u (ts : list (Z * Z * Z)) :
  upper_of uniq u (map canon ts) = upper_of uniq u ts.
Proof.
  unfold upper_of. induction ts as [|t ts IH]; [reflexivity|].
  assert (Hup : is_upper uniq u (canon t) = is_upper uniq u t).
  { unfold is_upper. now rewrite is_loop_canon, lo_canon. }
  cbn [map List.filter]. rewrite Hup.
  destruct (is_upper uniq u t); [|exact IH].
  cbn [map]. rewrite hi_canon, IH. destruct t as [[a b] w]. reflexivity.
Qed.

Lemma loops_of_canon uniq (ts : list (Z * Z * Z)) :
  loops_of uniq (map canon ts) = loops_of uniq ts.
Proof.
  unfold loops_of. induction ts as [|t ts IH]; [reflexivity|].
  cbn [map List.filter]. rewrite is_loop_canon.
  destruct (is_loop uniq t) eqn:Hloop; [|exact IH].
  cbn [map]. rewrite IH. f_equal.
  destruct t as [[a b] w]. unfold is_loop in Hloop. cbn [fst snd canon] in *.
  apply Z.eqb_eq in Hloop. f_equal.
  destruct (Z.le_ge_cases a b); [now rewrite (Z.min_l a b) by lia|].
  rewrite (Z.min_r a b) by lia. now symmetry.
Qed.

Lemma collect_ids_canon (ts : list (Z * Z * Z)) (x : Z) :
  In x (Serializer.collect_ids (map canon ts)) <-> In x (Serializer.collect_ids ts).
Proof.
  unfold Serializer.collect_ids. rewrite !in_flat_map. split.
  - intros (c & Hc & Hx). apply in_map_iff in Hc as (t & <- & Ht).
    exists t. split; [assumption|].
    destruct t as [[a b] w]. cbn [canon fst snd In] in *.
    destruct (Z.le_ge_cases a b);
      [rewrite (Z.min_l a b), (Z.max_r a b) in Hx by lia|rewrite (Z.min_r a b), (Z.max_l a b) in Hx by lia]; tauto.
  - intros (t & Ht & Hx). exists (canon t). split; [now apply in_map|].
    destruct t as [[a b] w]. cbn [canon fst snd In] in *.
    destruct (Z.le_ge_cases a b);
      [rewrite (Z.min_l a b), (Z.max_r a b) by lia|rewrite (Z.min_r a b), (Z.max_l a b) by lia]; tauto.
Qed.

(** ** The mapping depends on the set of ids only *)

Lemma ascending_same_elements (l1 : list Z) :
  forall l2 : list Z,
    Sorted Z.lt l1 -> Sorted Z.lt l2 ->
    (forall x, In x l1 <-> In x l2) -> l1 = l2.
Proof.
  induction l1 as [|x l1 IH]; intros l2 H1 H2 Hsame.
  - destruct l2 as [|y l2]; [reflexivity|].
    exfalso. apply (Hsame y). now left.
  - destruct l2 as [|y l2]; [exfalso; apply (Hsame x); now left|].
    apply Sorted_StronglySorted in H1 as S1; [|intros a b c; lia].
    apply Sorted_StronglySorted in H2 as S2; [|intros a b c; lia].
    apply StronglySorted_inv in S1 as [S1 A1]. apply StronglySorted_inv in S2 as [S2 A2].
    rewrite List.Forall_forall in A1, A2.
    assert (Hxy : x = y).
    { destruct (proj1 (Hsame x) ltac:(now left)) as [->|Hx]; [reflexivity|].
      destruct (proj2 (Hsame y) ltac:(now left)) as [->|Hy]; [reflexivity|].
      apply A2 in Hx. apply A1 in Hy. lia. }
    subst y. f_equal. apply IH.
    + now apply Sorted_inv in H1.
    + now apply Sorted_inv in H2.
    + intros z. split; intros Hz.
      * destruct (proj1 (Hsame z) ltac:(now right)) as [->|Hz']; [|assumption].
        apply A1 in Hz. lia.
      * destruct (proj2 (Hsame z) ltac:(now right)) as [->|Hz']; [|assumption].
        apply A2 in Hz. lia.
Qed.

Lemma uniq_members (ts : list (Z * Z * Z)) (x : Z) :
  In x (Serializer.unique (Serializer.sort_ids (Serializer.collect_ids ts)))
  <-> In x (Serializer.collect_ids ts).
Proof.
  split.
  - intros Hin. apply unique_from in Hin. unfold Serializer.sort_ids in Hin.
    apply list_elem_of_In in Hin. rewrite merge_sort_Permutation in Hin.
    now apply list_elem_of_In.
  - intros Hin. apply resolved_member in Hin. unfold resolved in Hin.
    apply list_elem_of_In. now apply list_elem_of_lookup_2 in Hin.
Qed.

Lemma uniq_of_graph (ts1 ts2 : list (Z * Z * Z)) :
  Permutation (map canon ts1) (map canon ts2) ->
  Serializer.unique (Serializer.sort_ids (Serializer.collect_ids ts1))
  = Serializer.unique (Serializer.sort_ids (Serializer.collect_ids ts2)).
Proof.
  intros Hperm. apply ascending_same_elements; try apply uniq_ascending.
  intros x. rewrite !uniq_members, <- (collect_ids_canon ts1), <- (collect_ids_canon ts2).
  unfold Serializer.collect_ids. rewrite !in_flat_map.
  split; intros (c & Hc & Hx); exists c; (split; [|assumption]).
  - now apply (Permutation_in _ Hperm).
  - now apply (Permutation_in _ (Permutation_sym Hperm)).
Qed.

(** ** Ranges with distinct keys have one sorted arrangement *)

Lemma filter_Permutation_list {A} (p : A -> bool) (l l' : list A) :
  Permutation l l' -> Permutation (List.filter p l) (List.filter p l').
Proof.
  induction 1 as [|x l l' _ IH|x y l|l l' l'' _ IH1 _ IH2]; cbn [List.filter].
  - reflexivity.
  - destruct (p x); [now constructor|assumption].
  - destruct (p x), (p y); try reflexivity. apply perm_swap.
  - now transitivity (List.filter p l').
Qed.

Lemma by_first_sorted_unique (l1 : list (Z * Z)) :
  forall l2 : list (Z * Z),
    Sorted by_first l1 -> Sorted by_first l2 ->
    Permutation l1 l2 -> List.NoDup (map fst l1) -> l1 = l2.
Proof.
  induction l1 as [|x l1 IH]; intros l2 H1 H2 Hperm Hnd.
  - apply Permutation_nil in Hperm. now subst.
  - destruct l2 as [|y l2].
    { apply Permutation_sym, Permutation_nil in Hperm. discriminate. }
    apply by_first_strongly in H1 as S1. apply by_first_strongly in H2 as S2.
    apply StronglySorted_inv in S1 as [_ A1]. apply StronglySorted_inv in S2 as [_ A2].
    rewrite List.Forall_forall in A1, A2.
    cbn [map] in Hnd. apply NoDup_cons_iff in Hnd as [Hx Hnd].
    assert (Hxy : x = y).
    { assert (Hyin : In y (x :: l1)).
      { apply (Permutation_in _ (Permutation_sym Hperm)). now left. }
      assert (Hxin : In x (y :: l2)).
      { apply (Permutation_in _ Hperm). now left. }
      destruct Hyin as [->|Hy]; [reflexivity|].
      destruct Hxin as [->|Hx']; [reflexivity|].
      exfalso. apply Hx. apply A1 in Hy as Hle1. apply A2 in Hx' as Hle2.
      unfold by_first in Hle1, Hle2.
      replace x.1 with y.1 by lia. now apply in_map. }
    subst y. f_equal. apply IH.
    + now apply Sorted_inv in H1.
    + now apply Sorted_inv in H2.
    + now apply Permutation_cons_inv in Hperm.
    + assumption.
Qed.

Lemma NoDup_map_filter {A K K'} (k : A -> K) (f : A -> K') (p : A -> bool) (l : list A) :
  (forall x y, In x l -> In y l -> p x = true -> p y = true -> f x = f y -> k x = k y) ->
  List.NoDup (map k l) -> List.NoDup (map f (List.filter p l)).
Proof.
  induction l as [|x l IH]; intros Hkey Hnd; cbn [List.filter map]; [constructor|].
  cbn [map] in Hnd. apply NoDup_cons_iff in Hnd as [Hx Hnd].
  assert (Hrest : List.NoDup (map f (List.filter p l))).
  { apply IH; [|assumption]. intros a b Ha Hb. apply Hkey; now right. }
  destruct (p x) eqn:Hpx; [|assumption].
  cbn [map]. constructor; [|assumption].
  intros Hin. apply in_map_iff in Hin as (y & Hfy & Hy).
  apply filter_In in Hy as [Hy Hpy].
  apply Hx. rewrite <- (Hkey y x); [now apply in_map|now right|now left|assumption..].
Qed.

Lemma cidx_injective uniq (a b : Z) :
  Z.of_nat (length uniq) < 2^32 -> resolved uniq a -> resolved uniq b ->
  cidx uniq a = cidx uniq b -> a = b.
Proof.
  intros Hlen Ha Hb Heq.
  destruct (cidx_resolved uniq a Hlen Ha) as (_ & _ & <-).
  destruct (cidx_resolved uniq b Hlen Hb) as (_ & _ & <-).
  now rewrite Heq.
Qed.

Lemma endpoints_of_indices uniq (t t' : Z * Z * Z) :
  Z.of_nat (length uniq) < 2^32 ->
  resolved uniq t.1.1 /\ resolved uniq t.1.2 ->
  resolved uniq t'.1.1 /\ resolved uniq t'.1.2 ->
  lo uniq t = lo uniq t' -> hi uniq t = hi uniq t' ->
  ((canon t).1.1, (canon t).1.2) = ((canon t').1.1, (canon t').1.2).
Proof.
  intros Hlen [Ha Hb] [Ha' Hb'] Hlo Hhi.
  destruct t as [[a b] w], t' as [[a' b'] w']. unfold lo, hi, canon in *.
  cbn [fst snd] in *.
  assert (Hcases : (cidx uniq a = cidx uniq a' /\ cidx uniq b = cidx uniq b')
                   \/ (cidx uniq a = cidx uniq b' /\ cidx uniq b = cidx uniq a')) by lia.
  destruct Hcases as [[E1 E2]|[E1 E2]];
    apply cidx_injective in E1; try assumption;
    apply cidx_injective in E2; try assumption; subst.
  - reflexivity.
  - f_equal; lia.
Qed.

Lemma upper_keys_distinct uniq u (ts : list (Z * Z * Z)) :
  Z.of_nat (length uniq) < 2^32 ->
  Forall (fun t => resolved uniq t.1.1 /\ resolved uniq t.1.2) ts ->
  List.NoDup (map (fun t => ((canon t).1.1, (canon t).1.2)) ts) ->
  List.NoDup (map fst (upper_of uniq u ts)).
Proof.
  intros Hlen Hres Hnd. unfold upper_of. rewrite map_map. cbn [fst].
  apply (NoDup_map_filter (fun t => ((canon t).1.1, (canon t).1.2))); [|assumption].
  rewrite List.Forall_forall in Hres.
  intros x y Hx Hy Hpx Hpy Hhi.
  unfold is_upper in Hpx, Hpy.
  apply andb_true_iff in Hpx as [_ Hpx]. apply andb_true_iff in Hpy as [_ Hpy].
  apply Z.eqb_eq in Hpx, Hpy.
  apply (endpoints_of_indices uniq); auto. congruence.
Qed.

Lemma loop_keys_distinct uniq (ts : list (Z * Z * Z)) :
  Z.of_nat (length uniq) < 2^32 ->
  Forall (fun t => resolved uniq t.1.1 /\ resolved uniq t.1.2) ts ->
  List.NoDup (map (fun t => ((canon t).1.1, (canon t).1.2)) ts) ->
  List.NoDup (map fst (loops_of uniq ts)).
Proof.
  intros Hlen Hres Hnd. unfold loops_of. rewrite map_map. cbn [fst].
  apply (NoDup_map_filter (fun t => ((canon t).1.1, (canon t).1.2))); [|assumption].
  rewrite List.Forall_forall in Hres.
  intros x y Hx Hy Hpx Hpy Heq.
  unfold is_loop in Hpx, Hpy. apply Z.eqb_eq in Hpx, Hpy.
  apply (endpoints_of_indices uniq); auto; unfold lo, hi; lia.
Qed.

(** ** What is written, in terms of the ranges *)

Lemma emit_adjacency_bytes uniq ts (off nei wts : list Z) (N : nat) :
  Z.of_nat (length ts) < 2^64 ->
  (forall j : nat, (j <= N)%nat -> off !! j = Some (count_below uniq (Z.of_nat j) ts)) ->
  length nei = Z.to_nat (count_below uniq (Z.of_nat N) ts) ->
  length wts = Z.to_nat (count_below uniq (Z.of_nat N) ts) ->
  forall n k : nat,
    (k + n <= N)%nat ->
    Serializer.emit_adjacency n (Z.of_nat k) off nei wts
    = Ok (flat_map
            (fun u : nat =>
               BinWriter.varu (count_upper uniq (Z.of_nat u) ts)
               ++ Serializer.emit_entries (Z.of_nat u)
                    (range_entries uniq ts nei wts (Z.of_nat u)))
            (seq k n)).
Proof.
  intros Hbound Hoff Hn Hw.
  induction n as [|n IH]; intros k Hk; cbn [Serializer.emit_adjacency seq flat_map];
    [reflexivity|].
  assert (Hb : vget off (Z.of_nat k) = Ok (count_below uniq (Z.of_nat k) ts)).
  { apply vget_Ok. rewrite Nat2Z.id. apply Hoff. lia. }
  assert (He : vget off (Z.of_nat k + 1)
               = Ok (count_below uniq (Z.of_nat k) ts + count_upper uniq (Z.of_nat k) ts)).
  { apply vget_Ok. replace (Z.to_nat (Z.of_nat k + 1)) with (S k) by lia.
    rewrite <- count_below_succ. replace (Z.of_nat k + 1) with (Z.of_nat (S k)) by lia.
    apply Hoff. lia. }
  rewrite Hb, He. cbn [bind].
  pose proof (count_upper_range uniq (Z.of_nat k) ts) as Hck.
  pose proof (count_below_range uniq (Z.of_nat k) ts) as Hbk.
  pose proof (count_below_mono uniq (Z.of_nat k + 1) (Z.of_nat N) ts ltac:(lia)) as Hm.
  rewrite count_below_succ in Hm.
  replace (count_below uniq (Z.of_nat k) ts + count_upper uniq (Z.of_nat k) ts
           - count_below uniq (Z.of_nat k) ts)
    with (count_upper uniq (Z.of_nat k) ts) by lia.
  rewrite !vslice_inside by lia. cbn [bind].
  replace (Z.of_nat k + 1) with (Z.of_nat (S k)) by lia.
  rewrite IH by lia. cbn [bind].
  rewrite wrap64_small by lia. rewrite <- app_assoc. reflexivity.
Qed.

Lemma emit_bytes sort (ts : list (Z * Z * Z)) (g : Serializer.tables) :
  std_sort_contract sort ->
  Z.of_nat (length ts) < 2^31 -> ts <> [] ->
  Serializer.build sort ts = Ok g ->
  let uniq := Serializer.uniq g in
  exists mapping,
    Serializer.emit_mapping (Z.of_nat (length uniq)) uniq = Ok mapping
    /\ Serializer.emit g
       = Ok (Serializer.header ++ BinWriter.varu (Z.of_nat (length uniq))
             ++ BinWriter.varu (Z.of_nat (length ts)) ++ mapping
             ++ flat_map
                  (fun u : nat =>
                     BinWriter.varu (count_upper uniq (Z.of_nat u) ts)
                     ++ Serializer.emit_entries (Z.of_nat u)
                          (range_entries uniq ts (Serializer.upper_nei g)
                             (Serializer.upper_w g) (Z.of_nat u)))
                  (seq 0 (length uniq))
             ++ BinWriter.varu (Z.of_nat (length (Serializer.loops g)))
             ++ Serializer.emit_entries 0 (Serializer.loops g)).
Proof.
  intros Hsort Hbound Hne Hbuild. cbv zeta.
  destruct (emit_total sort ts g Hsort Hbound Hne Hbuild) as (out & Hemit & _ & _).
  destruct (build_Ok sort ts g Hsort ltac:(lia) Hbuild)
    as (Huniq & Hoff & Hln & Hlw & _ & Hlp & _).
  pose proof (build_M_noLoops sort ts g Hbuild) as HM.
  pose proof (uniq_size ts Hbound) as Hsize.
  rewrite <- Huniq in Hoff, Hln, Hlw, Hlp, Hsize.
  set (uniq := Serializer.uniq g) in *.
  assert (HN : Serializer.N_of g = Z.of_nat (length uniq)).
  { unfold Serializer.N_of. fold uniq. apply wrap32_small. lia. }
  rewrite HN, Nat2Z.id in Hoff, Hln, Hlw.
  unfold Serializer.emit in *. rewrite HN in *. fold uniq in Hemit |- *.
  rewrite Nat2Z.id in *.
  destruct (Serializer.emit_mapping (Z.of_nat (length uniq)) uniq) as [mapping|] eqn:Hmap;
    [|discriminate].
  exists mapping. split; [reflexivity|]. cbn [bind].
  change 0 with (Z.of_nat 0) at 1.
  rewrite (emit_adjacency_bytes uniq ts _ _ _ (length uniq) ltac:(lia) Hoff Hln Hlw)
    by lia.
  cbn [bind]. do 3 f_equal. f_equal.
  rewrite HM, (Permutation_length Hlp), wrap64_add_l.
  pose proof (filter_length_le (is_loop uniq) ts) as Hle.
  unfold loops_of in *. rewrite length_map in *.
  rewrite Z.sub_add. f_equal. apply wrap64_small. lia.
Qed.

Lemma range_of_graph sort (ts1 ts2 : list (Z * Z * Z)) (g1 g2 : Serializer.tables) :
  std_sort_contract sort ->
  Z.of_nat (length ts1) < 2^31 ->
  Permutation (map canon ts1) (map canon ts2) ->
  List.NoDup (map (fun t => ((canon t).1.1, (canon t).1.2)) ts1) ->
  Serializer.build sort ts1 = Ok g1 ->
  Serializer.build sort ts2 = Ok g2 ->
  Serializer.uniq g1 = Serializer.uniq g2
  /\ Serializer.loops g1 = Serializer.loops g2
  /\ forall u : nat, (u < length (Serializer.uniq g1))%nat ->
       range_entries (Serializer.uniq g1) ts1 (Serializer.upper_nei g1)
         (Serializer.upper_w g1) (Z.of_nat u)
       = range_entries (Serializer.uniq g2) ts2 (Serializer.upper_nei g2)
           (Serializer.upper_w g2) (Z.of_nat u).
Proof.
  intros Hsort Hbound Hperm Hnd Hb1 Hb2.
  assert (Hlen : length ts2 = length ts1).
  { apply Permutation_length in Hperm. now rewrite !length_map in Hperm. }
  destruct (build_Ok sort ts1 g1 Hsort ltac:(lia) Hb1) as (Hu1 & _ & _ & _ & Hall1 & Hlp1 & Hls1).
  destruct (build_Ok sort ts2 g2 Hsort ltac:(lia) Hb2) as (Hu2 & _ & _ & _ & Hall2 & Hlp2 & Hls2).
  pose proof (build_resolved sort ts1 g1 Hb1) as Hres1.
  pose proof (uniq_size ts1 Hbound) as Hsize.
  pose proof (uniq_of_graph ts1 ts2 Hperm) as Hsame.
  rewrite <- Hu1 in Hall1, Hlp1, Hsize, Hsame.
  rewrite <- Hu2 in Hall2, Hlp2, Hsame.
  rewrite <- Hsame in *.
  set (uniq := Serializer.uniq g1) in *.
  assert (HN1 : Serializer.N_of g1 = Z.of_nat (length uniq)).
  { unfold Serializer.N_of. fold uniq. apply wrap32_small. lia. }
  assert (HN2 : Serializer.N_of g2 = Z.of_nat (length uniq)).
  { unfold Serializer.N_of. rewrite <- Hsame. apply wrap32_small. lia. }
  rewrite HN1, Nat2Z.id in Hall1. rewrite HN2, Nat2Z.id in Hall2.
  split; [reflexivity|]. split.
  - apply by_first_sorted_unique; try assumption.
    + rewrite Hlp1, Hlp2, <- (loops_of_canon uniq ts1), <- (loops_of_canon uniq ts2).
      unfold loops_of. apply Permutation_map. now apply filter_Permutation_list.
    + eapply Permutation_NoDup; [apply Permutation_map; symmetry; exact Hlp1|].
      apply loop_keys_distinct; [lia|assumption..].
  - intros u Hu. destruct (Hall1 u Hu) as [Hp1 Hs1]. destruct (Hall2 u Hu) as [Hp2 Hs2].
    apply by_first_sorted_unique; try assumption.
    + rewrite Hp1, Hp2, <- (upper_of_canon uniq _ ts1), <- (upper_of_canon uniq _ ts2).
      unfold upper_of. apply Permutation_map. now apply filter_Permutation_list.
    + eapply Permutation_NoDup; [apply Permutation_map; symmetry; exact Hp1|].
      apply upper_keys_distinct; [lia|assumption..].
Qed.

Lemma flat_map_pointwise_eq {A B} (f g : A -> list B) (l : list A) :
  (forall x, In x l -> f x = g x) -> flat_map f l = flat_map g l.
Proof.
  induction l as [|x l IH]; intros H; cbn [flat_map]; [reflexivity|].
  rewrite (H x) by now left. f_equal. apply IH. intros y Hy. apply H. now right.
Qed.

(** X22.  The binary of a graph without parallel edges is a function of
    the graph, not of the text: two inputs (of fewer than [2^31] lines)
    that hold the same edges, up to the order of the lines and to the
    order of the two ids in a line, and in which no pair of ids occurs on
    two lines, are serialized to the same bytes, whatever [std::sort] does
    with equal keys. *)
Theorem binary_of_simple_graph (sort : list (Z * Z) -> list (Z * Z))
    (data1 data2 : list byte) (ts1 ts2 : list (Z * Z * Z)) :
  std_sort_contract sort ->
  TSVScanner.for_each_triplet data1 = Ok ts1 ->
  TSVScanner.for_each_triplet data2 = Ok ts2 ->
  Z.of_nat (length ts1) < 2^31 ->
  Permutation (map canon ts1) (map canon ts2) ->
  List.NoDup (map (fun t => ((canon t).1.1, (canon t).1.2)) ts1) ->
  Serializer.run sort data1 = Serializer.run sort data2.
Proof.
  intros Hsort Hscan1 Hscan2 Hbound Hperm Hnd.
  assert (Hlen : length ts2 = length ts1).
  { apply Permutation_length in Hperm. now rewrite !length_map in Hperm. }
  unfold Serializer.run. rewrite Hscan1, Hscan2. cbn [bind].
  destruct ts1 as [|t1 ts1'], ts2 as [|t2 ts2']; try discriminate Hlen; [reflexivity|].
  set (ts1 := t1 :: ts1') in *. set (ts2 := t2 :: ts2') in *.
  destruct (build_total sort ts1 Hsort Hbound) as (g1 & Hb1).
  destruct (build_total sort ts2 Hsort ltac:(lia)) as (g2 & Hb2).
  rewrite Hb1, Hb2. cbn [bind].
  destruct (emit_bytes sort ts1 g1 Hsort Hbound ltac:(discriminate) Hb1)
    as (m1 & Hm1 & ->).
  destruct (emit_bytes sort ts2 g2 Hsort ltac:(lia) ltac:(discriminate) Hb2)
    as (m2 & Hm2 & ->).
  destruct (range_of_graph sort ts1 ts2 g1 g2 Hsort Hbound Hperm Hnd Hb1 Hb2)
    as (Hu & Hl & Hr).
  rewrite <- Hu in *. rewrite <- Hl. rewrite Hlen.
  assert (m1 = m2) by congruence. subst m2.
  do 5 f_equal. apply (f_equal (fun l => l ++ _)).
  apply flat_map_pointwise_eq. intros u Hin. apply in_seq in Hin.
  rewrite <- (Hr u ltac:(lia)). f_equal. f_equal.
  pose proof (build_Ok sort ts1 g1 Hsort ltac:(lia) Hb1) as (Hu1 & _ & _ & _ & Hall1 & _).
  pose proof (build_Ok sort ts2 g2 Hsort ltac:(lia) Hb2) as (Hu2 & _ & _ & _ & Hall2 & _).
  pose proof (uniq_size ts1 Hbound) as Hsize.
  rewrite <- Hu1 in Hall1, Hsize. rewrite <- Hu2, <- Hu in Hall2.
  assert (HN1 : Serializer.N_of g1 = Z.of_nat (length (Serializer.uniq g1))).
  { unfold Serializer.N_of. apply wrap32_small. lia. }
  assert (HN2 : Serializer.N_of g2 = Z.of_nat (length (Serializer.uniq g1))).
  { unfold Serializer.N_of. rewrite <- Hu. apply wrap32_small. lia. }
  rewrite HN1, Nat2Z.id in Hall1. rewrite HN2, Nat2Z.id in Hall2.
  destruct (Hall1 u ltac:(lia)) as [Hp1 _]. destruct (Hall2 u ltac:(lia)) as [Hp2 _].
  rewrite <- !length_upper_of.
  rewrite <- (Permutation_length Hp1), <- (Permutation_length Hp2).
  now rewrite (Hr u ltac:(lia)).
Qed.

Lemma binary_of_simple_graph_witness :
  Serializer.run insertion_sort
    [x33; x09; x35; x09; x39; x0a;  x32; x09; x31; x09; x31; x30; x0d; x0a;
     x33; x09; x33; x09; x30]
  = Serializer.run insertion_sort
      [x31; x09; x32; x09; x31; x30; x0a;  x35; x09; x33; x09; x39; x0a;
       x0a;  x33; x09; x33; x09; x30; x0a].
Proof.
  apply (binary_of_simple_graph insertion_sort _ _
           [(3, 5, 9); (2, 1, 10); (3, 3, 0)] [(1, 2, 10); (5, 3, 9); (3, 3, 0)]).
  - exact insertion_sort_contract.
  - reflexivity.
  - reflexivity.
  - simpl. lia.
  - cbn. apply perm_swap.
  - vm_compute.
    repeat (apply List.NoDup_cons; [intros H; cbn in H; intuition congruence|]).
    apply List.NoDup_nil.
Defined.

(** With two lines on the same pair of ids the premise on parallel edges
    fails, and so can the conclusion: a sort that keeps equal keys in their
    order writes the two weights in the order of the lines. *)
Lemma parallel_edges_keep_line_order :
  Permutation (map canon [(1, 2, 10); (1, 2, 20)]) (map canon [(2, 1, 20); (1, 2, 10)])
  /\ Serializer.run insertion_sort
       [x31; x09; x32; x09; x31; x30; x0a;  x31; x09; x32; x09; x32; x30; x0a]
     <> Serializer.run insertion_sort
          [x32; x09; x31; x09; x32; x30; x0a;  x31; x09; x32; x09; x31; x30; x0a].
Proof.
  split; [cbn; apply perm_swap|].
  vm_compute. discriminate.
Qed.

(** * The shape of the binary that is written *)

(** ** The mapping section *)

Lemma deltas_ascending (xs : list Z) :
  forall y : Z,
    Sorted Z.lt (y :: xs) -> Forall (fun x => 0 <= x < 2^32) (y :: xs) ->
    Forall (fun d => 0 < d < 2^32) (deltas y xs).
Proof.
  induction xs as [|x xs IH]; intros y Hs Hall; cbn [deltas]; [constructor|].
  apply Sorted_inv in Hs as [Hs Hhd]. apply HdRel_inv in Hhd.
  inversion Hall as [|? ? Hy Hall']; subst.
  inversion Hall' as [|? ? Hx _]; subst.
  constructor; [lia|]. now apply IH.
Qed.

Lemma emit_deltas_layout (xs : list Z) :
  forall (pre : list Z) (y : Z) (ds : list byte),
    Sorted Z.lt (y :: xs) -> Forall (fun x => 0 <= x < 2^32) (y :: xs) ->
    Serializer.emit_deltas (length xs) (Z.of_nat (length pre) + 1) (pre ++ y :: xs) = Ok ds ->
    ds = flat_map BinWriter.varu (deltas y xs).
Proof.
  induction xs as [|x xs IH]; intros pre y ds Hs Hall Hemit.
  - cbn in Hemit. now injection Hemit as <-.
  - apply Sorted_inv in Hs as [Hs Hhd]. apply HdRel_inv in Hhd.
    inversion Hall as [|? ? Hy Hall']; subst.
    inversion Hall' as [|? ? Hx _]; subst.
    cbn [length Serializer.emit_deltas] in Hemit.
    replace (Z.of_nat (length pre) + 1) with (Z.of_nat (length (pre ++ [y]))) in Hemit
      by (rewrite length_app; simpl; lia).
    replace (pre ++ y :: x :: xs) with ((pre ++ [y]) ++ x :: xs) in Hemit
      by (now rewrite <- app_assoc).
    rewrite vget_middle in Hemit. cbn [bind] in Hemit.
    replace (Z.of_nat (length (pre ++ [y])) - 1) with (Z.of_nat (length pre)) in Hemit
      by (rewrite length_app; simpl; lia).
    rewrite <- app_assoc in Hemit. cbn [app] in Hemit.
    rewrite vget_middle in Hemit. cbn [bind] in Hemit.
    replace (pre ++ y :: x :: xs) with ((pre ++ [y]) ++ x :: xs) in Hemit
      by (now rewrite <- app_assoc).
    replace (Z.of_nat (length pre) + 1 + 1) with (Z.of_nat (length (pre ++ [y])) + 1) in Hemit
      by (rewrite length_app; simpl; lia).
    destruct (Serializer.emit_deltas (length xs) _ _) as [ds'|] eqn:Hds'; [|discriminate].
    cbn [bind] in Hemit. injection Hemit as <-.
    cbn [deltas flat_map]. rewrite wrap32_small by lia. f_equal.
    now apply (IH (pre ++ [y]) x ds').
Qed.

Lemma emit_mapping_layout (orig : list Z) (mapping : list byte) :
  Sorted Z.lt orig -> Forall (fun x => 0 <= x < 2^32) orig ->
  Serializer.emit_mapping (Z.of_nat (length orig)) orig = Ok mapping ->
  mapping = mapping_layout orig.
Proof.
  intros Hs Hall Hemit. unfold Serializer.emit_mapping in Hemit.
  destruct orig as [|y xs].
  - cbn in Hemit. now injection Hemit as <-.
  - destruct (Z.ltb_spec 0 (Z.of_nat (length (y :: xs)))); [|simpl in *; lia].
    change (vget (y :: xs) 0) with (Ok y) in Hemit. cbn [bind] in Hemit.
    replace (Z.to_nat (Z.of_nat (length (y :: xs)) - 1)) with (length xs) in *
      by (simpl; lia).
    destruct (Serializer.emit_deltas (length xs) 1 (y :: xs)) as [ds|] eqn:Hds; [|discriminate].
    cbn [bind] in Hemit. injection Hemit as <-.
    unfold mapping_layout, mapping_deltas.
    now rewrite (emit_deltas_layout xs [] y ds Hs Hall Hds).
Qed.

(** ** The adjacency and the loops section *)

Lemma gap_entries_range (es : list (Z * Z)) :
  forall prev : Z,
    0 <= prev -> Sorted Z.le (prev :: map fst es) ->
    Forall (fun e => e.1 < 2^32) es ->
    Forall (fun e => 0 <= e.1 < 2^32) (gap_entries prev es).
Proof.
  induction es as [|[j w] es IH]; intros prev Hprev Hs Hall; cbn [gap_entries];
    [constructor|].
  cbn [map fst] in Hs. apply Sorted_inv in Hs as [Hs Hhd]. apply HdRel_inv in Hhd.
  inversion Hall as [|? ? Hj Hall']; subst. cbn [fst] in Hj.
  constructor; [cbn [fst]; lia|]. apply IH; [lia|assumption..].
Qed.

Lemma adjacency_bytes_layout (cnt : nat -> Z) (es : nat -> list (Z * Z)) (n : nat) :
  forall k : nat,
    (forall u : nat, (k <= u < k + n)%nat ->
       cnt u = Z.of_nat (length (es u))
       /\ Sorted Z.le (Z.of_nat u :: map fst (es u))
       /\ Forall (fun e => e.1 < 2^32) (es u)) ->
    flat_map (fun u : nat =>
                BinWriter.varu (cnt u) ++ Serializer.emit_entries (Z.of_nat u) (es u))
             (seq k n)
    = adjacency_layout (Z.of_nat k) (map es (seq k n)).
Proof.
  induction n as [|n IH]; intros k H; cbn [seq flat_map map adjacency_layout];
    [reflexivity|].
  destruct (H k ltac:(lia)) as (Hc & Hs & Hr).
  rewrite Hc.
  rewrite (proj1 (emit_entries_gaps (es k) (Z.of_nat k) ltac:(lia) Hs Hr)).
  rewrite <- app_assoc. do 2 f_equal.
  replace (Z.of_nat k + 1) with (Z.of_nat (S k)) by lia.
  apply IH. intros u Hu. apply H. lia.
Qed.

(** ** Reading the layout *)

Lemma read_indices_layout (es : list (Z * Z)) :
  forall (prev : Z) (rest : list byte),
    0 <= prev -> Sorted Z.le (prev :: map fst es) ->
    Forall (fun e => e.1 < 2^32 /\ 0 <= e.2 < 256) es ->
    read_indices (length es) prev (flat_map entry_bytes (gap_entries prev es) ++ rest)
    = Ok (es, rest).
Proof.
  induction es as [|[j w] es IH]; intros prev rest Hprev Hs Hall; [reflexivity|].
  cbn [map fst] in Hs. apply Sorted_inv in Hs as [Hs Hhd]. apply HdRel_inv in Hhd.
  inversion Hall as [|? ? [Hj Hw] Hall']; subst. cbn [fst snd] in *.
  cbn [length gap_entries flat_map read_indices]. unfold entry_bytes at 1. cbn [fst snd].
  rewrite <- !app_assoc.
  rewrite (varu_read_written (j - prev) _ ltac:(lia)). cbn [bind].
  rewrite get_put by assumption. cbn [bind].
  rewrite (wrap32_small (j - prev)) by lia.
  replace (prev + (j - prev)) with j by lia. rewrite wrap32_small by lia.
  now rewrite (IH j rest ltac:(lia) Hs Hall').
Qed.

Lemma read_index_lists_layout (adj : list (list (Z * Z))) :
  forall (k : nat) (rest : list byte),
    (forall (u : nat) (es : list (Z * Z)),
        adj !! u = Some es ->
        Z.of_nat (length es) < 2^64
        /\ Sorted Z.le (Z.of_nat (k + u) :: map fst es)
        /\ Forall (fun e => e.1 < 2^32 /\ 0 <= e.2 < 256) es) ->
    read_index_lists (length adj) (Z.of_nat k) (adjacency_layout (Z.of_nat k) adj ++ rest)
    = Ok (adj, rest).
Proof.
  induction adj as [|es adj IH]; intros k rest H; [reflexivity|].
  destruct (H 0%nat es eq_refl) as (Hlen & Hs & Hall). rewrite Nat.add_0_r in Hs.
  cbn [length adjacency_layout read_index_lists]. rewrite <- !app_assoc.
  rewrite (varu_read_written (Z.of_nat (length es)) _ ltac:(lia)). cbn [bind].
  rewrite Nat2Z.id, read_indices_layout by (try assumption; lia). cbn [bind].
  replace (Z.of_nat k + 1) with (Z.of_nat (S k)) by lia.
  rewrite (IH (S k) rest); [reflexivity|].
  intros u es' Hu. replace (S k + u)%nat with (k + S u)%nat by lia.
  now apply (H (S u)).
Qed.

Lemma decode_layout (orig : list Z) (M : Z) (adj : list (list (Z * Z)))
    (loops : list (Z * Z)) :
  Forall (fun x => 0 <= x < 2^32) orig -> Z.of_nat (length orig) < 2^32 ->
  0 <= M < 2^64 ->
  Serializer.emit_mapping (Z.of_nat (length orig)) orig = Ok (mapping_layout orig) ->
  length adj = length orig ->
  (forall (u : nat) (es : list (Z * Z)),
      adj !! u = Some es ->
      Z.of_nat (length es) < 2^64
      /\ Sorted Z.le (Z.of_nat u :: map fst es)
      /\ Forall (fun e => e.1 < 2^32 /\ 0 <= e.2 < 256) es) ->
  Z.of_nat (length loops) < 2^64 ->
  Sorted Z.le (0 :: map fst loops) ->
  Forall (fun e => e.1 < 2^32 /\ 0 <= e.2 < 256) loops ->
  decode_indices 2 (body_layout orig M adj loops) = Ok (orig, adj, loops, []).
Proof.
  intros Horig HN HM Hmap Hadj Hes HL Hsl Hal.
  unfold decode_indices, body_layout.
  rewrite read_counts_v2 by lia. cbn [bind]. rewrite wrap32_small by lia.
  rewrite (read_mapping_v2_emitted orig _ _ Horig Hmap). cbn [bind].
  rewrite Nat2Z.id, <- Hadj.
  change 0 with (Z.of_nat 0) at 1 2.
  rewrite (read_index_lists_layout adj 0) by exact Hes. cbn [bind].
  unfold loops_layout.
  rewrite (varu_read_written (Z.of_nat (length loops)) _ ltac:(lia)). cbn [bind].
  rewrite Nat2Z.id.
  rewrite <- (app_nil_r (flat_map entry_bytes (gap_entries 0 loops))).
  rewrite read_indices_layout by (try assumption; lia). reflexivity.
Qed.

(** ** The vertex count fits its 32 bits when the tables are built *)

Lemma ascending_bounded (l : list Z) :
  forall a b : Z,
    Sorted Z.lt l -> Forall (fun x => a <= x < b) l -> a <= b ->
    Z.of_nat (length l) <= b - a.
Proof.
  induction l as [|x l IH]; intros a b Hs Hall Hab; [cbn; lia|].
  apply Sorted_StronglySorted in Hs; [|intros u v w; lia].
  apply StronglySorted_inv in Hs as [Hs Hgt].
  inversion Hall as [|? ? Hx Hall']; subst.
  assert (Hl : Forall (fun y => x + 1 <= y < b) l).
  { apply List.Forall_forall. intros y Hy.
    rewrite List.Forall_forall in Hgt, Hall'.
    specialize (Hgt y Hy). specialize (Hall' y Hy). lia. }
  specialize (IH (x + 1) b (StronglySorted_Sorted Hs) Hl ltac:(lia)).
  cbn [length]. lia.
Qed.

Lemma ascending_NoDup (l : list Z) : Sorted Z.lt l -> List.NoDup l.
Proof.
  intros Hs. apply Sorted_StronglySorted in Hs; [|intros u v w; lia].
  induction Hs as [|x l Hs IH Hgt]; [apply List.NoDup_nil|].
  apply List.NoDup_cons; [|assumption].
  intros Hin. rewrite List.Forall_forall in Hgt. specialize (Hgt x Hin). lia.
Qed.

Lemma count_pass_no_vertex uniq (ts : list (Z * Z * Z)) :
  forall (m l : Z) st,
    Serializer.for_each (Serializer.count_edge uniq) ([], m, l) ts = Ok st ->
    Forall (fun t => is_loop uniq t = true) ts.
Proof.
  induction ts as [|t ts IH]; intros m l st H; [constructor|].
  cbn [Serializer.for_each] in H.
  apply bind_Ok in H as (st1 & Hstep & H1).
  apply count_edge_Ok in Hstep.
  destruct (is_loop uniq t) eqn:Hloop.
  - subst st1. constructor; [assumption|]. now apply IH in H1.
  - destruct Hstep as (d & Hd & _). discriminate.
Qed.

Lemma build_vertices_fit sort (ts : list (Z * Z * Z)) (g : Serializer.tables) :
  Forall triplet_in_range ts ->
  Z.of_nat (length ts) < 2^32 ->
  Serializer.build sort ts = Ok g ->
  Z.of_nat (length (Serializer.uniq g)) < 2^32.
Proof.
  intros Hrange Hbound Hbuild.
  pose proof (build_resolved sort ts g Hbuild) as Hres.
  unfold Serializer.build in Hbuild.
  set (uniq := Serializer.unique (Serializer.sort_ids (Serializer.collect_ids ts))) in *.
  apply bind_Ok in Hbuild as ([[deg M] L] & Hpass2 & H1). cbv beta iota in H1.
  apply bind_Ok in H1 as (off & _ & H2).
  apply bind_Ok in H2 as (total & _ & H3).
  apply bind_Ok in H3 as ([[[cur nei] wts] loops] & _ & H4). cbv beta iota in H4.
  apply bind_Ok in H4 as ([nei' wts'] & _ & H5). cbv beta iota in H5.
  injection H5 as <-. cbn [Serializer.uniq] in *.
  pose proof (uniq_ascending (Serializer.collect_ids ts)) as Hasc. fold uniq in Hasc.
  pose proof (uniq_range ts Hrange) as Hur. fold uniq in Hur.
  pose proof (ascending_bounded uniq 0 (2^32) Hasc Hur ltac:(lia)) as Hle.
  destruct (Z.eq_dec (Z.of_nat (length uniq)) (2^32)) as [Hfull|]; [exfalso|lia].
  rewrite Hfull in Hpass2. change (Z.to_nat (wrap32 (2^32))) with 0%nat in Hpass2.
  cbn [replicate] in Hpass2.
  apply count_pass_no_vertex in Hpass2 as Hloops.
  assert (Hincl : incl uniq (map (fun t : Z * Z * Z => t.1.1) ts)).
  { intros x Hx. apply uniq_members in Hx. unfold Serializer.collect_ids in Hx.
    apply in_flat_map in Hx as (t & Ht & Hxt).
    rewrite List.Forall_forall in Hloops, Hres.
    specialize (Hloops t Ht). destruct (Hres t Ht) as [Ha Hb].
    assert (Hsame : t.1.1 = t.1.2).
    { unfold is_loop, cidx in Hloops. apply Z.eqb_eq in Hloops.
      unfold resolved in Ha, Hb.
      apply lookup_lt_Some in Ha as Hla. apply lookup_lt_Some in Hb as Hlb.
      rewrite !wrap32_small in Hloops by lia.
      apply Nat2Z.inj in Hloops. rewrite Hloops in Ha. congruence. }
    apply in_map_iff. exists t. split; [|assumption].
    destruct Hxt as [<-|[<-|[]]]; [reflexivity|now symmetry]. }
  pose proof (NoDup_incl_length (ascending_NoDup uniq Hasc) Hincl) as Hlen.
  rewrite length_map in Hlen. lia.
Qed.

(** ** What is written, for a vertex count that fits *)

Lemma emit_written sort (ts : list (Z * Z * Z)) (g : Serializer.tables) (out : list byte) :
  std_sort_contract sort ->
  Z.of_nat (length ts) < 2^32 ->
  Z.of_nat (length (Serializer.uniq g)) < 2^32 ->
  Serializer.build sort ts = Ok g ->
  Serializer.emit g = Ok out ->
  let uniq := Serializer.uniq g in
  exists mapping,
    Serializer.emit_mapping (Z.of_nat (length uniq)) uniq = Ok mapping
    /\ out = Serializer.header ++ BinWriter.varu (Z.of_nat (length uniq))
             ++ BinWriter.varu (Z.of_nat (length ts)) ++ mapping
             ++ flat_map
                  (fun u : nat =>
                     BinWriter.varu (count_upper uniq (Z.of_nat u) ts)
                     ++ Serializer.emit_entries (Z.of_nat u)
                          (range_entries uniq ts (Serializer.upper_nei g)
                             (Serializer.upper_w g) (Z.of_nat u)))
                  (seq 0 (length uniq))
             ++ BinWriter.varu (Z.of_nat (length (Serializer.loops g)))
             ++ Serializer.emit_entries 0 (Serializer.loops g).
Proof.
  intros Hsort Hbound Hsize Hbuild Hemit. cbv zeta.
  destruct (build_Ok sort ts g Hsort Hbound Hbuild)
    as (Huniq & Hoff & Hln & Hlw & _ & Hlp & _).
  pose proof (build_M_noLoops sort ts g Hbuild) as HM.
  rewrite <- Huniq in Hoff, Hln, Hlw, Hlp.
  set (uniq := Serializer.uniq g) in *.
  assert (HN : Serializer.N_of g = Z.of_nat (length uniq)).
  { unfold Serializer.N_of. fold uniq. apply wrap32_small. lia. }
  rewrite HN, Nat2Z.id in Hoff, Hln, Hlw.
  unfold Serializer.emit in Hemit. rewrite HN in Hemit. fold uniq in Hemit.
  rewrite Nat2Z.id in Hemit.
  destruct (Serializer.emit_mapping (Z.of_nat (length uniq)) uniq) as [mapping|] eqn:Hmap;
    [|discriminate].
  exists mapping. split; [reflexivity|]. cbn [bind] in Hemit.
  change 0 with (Z.of_nat 0) in Hemit at 1.
  rewrite (emit_adjacency_bytes uniq ts _ _ _ (length uniq) ltac:(lia) Hoff Hln Hlw)
    in Hemit by lia.
  cbn [bind] in Hemit.
  assert (HMt : wrap64 (Serializer.M_noLoops g + Z.of_nat (length (Serializer.loops g)))
                = Z.of_nat (length ts)).
  { rewrite HM, (Permutation_length Hlp), wrap64_add_l.
    pose proof (filter_length_le (is_loop uniq) ts) as Hle.
    unfold loops_of in *. rewrite length_map in *.
    rewrite Z.sub_add. apply wrap64_small. lia. }
  rewrite HMt in Hemit. now injection Hemit.
Qed.

(** ** The indices that the deserializer computes

    Whenever the loops of [Deserializer::run] get through a body, the
    indices [j] and [v] that they computed on the way are those of
    [decode_indices], and each of them lay inside the mapping. *)

Lemma read_neighbors_indices (deg : nat) (orig_of : list Z) (i : Z) :
  forall (prev : Z) (p text p' : list byte),
    Deserializer.read_neighbors deg orig_of i prev p = Ok (text, p') ->
    exists es : list (Z * Z),
      read_indices deg prev p = Ok (es, p')
      /\ Forall (fun e => (Z.to_nat e.1 < length orig_of)%nat) es.
Proof.
  induction deg as [|deg IH]; intros prev p text p' H.
  - cbn in H. injection H as <- <-. exists []. split; [reflexivity|constructor].
  - cbn [Deserializer.read_neighbors] in H.
    apply bind_Ok in H as ([gap p1] & Hgap & H). cbv beta iota zeta in H.
    apply bind_Ok in H as ([w p2] & Hw & H). cbv beta iota in H.
    apply bind_Ok in H as (oi & _ & H).
    apply bind_Ok in H as (oj & Hoj & H).
    apply bind_Ok in H as ([rest p3] & Hrest & H). cbv beta iota in H.
    injection H as <- <-.
    apply IH in Hrest as (es & Hes & Hall).
    exists ((wrap32 (prev + wrap32 gap), w) :: es). split.
    + cbn [read_indices]. rewrite Hgap. cbn [bind]. rewrite Hw. cbn [bind].
      now rewrite Hes.
    + constructor; [|assumption]. cbn [fst].
      apply vget_Ok, lookup_lt_Some in Hoj. exact Hoj.
Qed.

Lemma read_adjacency_indices (n : nat) (orig_of : list Z) :
  forall (i : Z) (p text p' : list byte),
    Deserializer.read_adjacency n orig_of i p = Ok (text, p') ->
    exists adj : list (list (Z * Z)),
      read_index_lists n i p = Ok (adj, p')
      /\ Forall (Forall (fun e => (Z.to_nat e.1 < length orig_of)%nat)) adj.
Proof.
  induction n as [|n IH]; intros i p text p' H.
  - cbn in H. injection H as <- <-. exists []. split; [reflexivity|constructor].
  - cbn [Deserializer.read_adjacency] in H.
    apply bind_Ok in H as ([deg p1] & Hdeg & H). cbv beta iota in H.
    apply bind_Ok in H as ([t p2] & Hnb & H). cbv beta iota in H.
    apply bind_Ok in H as ([rest p3] & Hrest & H). cbv beta iota in H.
    injection H as <- <-.
    apply read_neighbors_indices in Hnb as (es & Hes & Hall).
    apply IH in Hrest as (adj & Hadj & Halls).
    exists (es :: adj). split; [|now constructor].
    cbn [read_index_lists]. rewrite Hdeg. cbn [bind]. rewrite Hes. cbn [bind].
    now rewrite Hadj.
Qed.

Lemma read_loops_indices (L : nat) (orig_of : list Z) :
  forall (acc : Z) (p text p' : list byte),
    Deserializer.read_loops L orig_of acc p = Ok (text, p') ->
    exists es : list (Z * Z),
      read_indices L acc p = Ok (es, p')
      /\ Forall (fun e => (Z.to_nat e.1 < length orig_of)%nat) es.
Proof.
  induction L as [|L IH]; intros acc p text p' H.
  - cbn in H. injection H as <- <-. exists []. split; [reflexivity|constructor].
  - cbn [Deserializer.read_loops] in H.
    apply bind_Ok in H as ([d p1] & Hd & H). cbv beta iota zeta in H.
    apply bind_Ok in H as ([w p2] & Hw & H). cbv beta iota in H.
    apply bind_Ok in H as (ov & Hov & H).
    apply bind_Ok in H as ([rest p3] & Hrest & H). cbv beta iota in H.
    injection H as <- <-.
    apply IH in Hrest as (es & Hes & Hall).
    exists ((wrap32 (acc + wrap32 d), w) :: es). split.
    + cbn [read_indices]. rewrite Hd. cbn [bind]. rewrite Hw. cbn [bind].
      now rewrite Hes.
    + constructor; [|assumption]. cbn [fst].
      apply vget_Ok, lookup_lt_Some in Hov. exact Hov.
Qed.

Lemma read_body_indices (version N M : Z) (p p0 text : list byte) :
  Deserializer.read_counts version p = Ok (N, M, p0) ->
  Deserializer.read_body version N p0 = Ok text ->
  exists (orig_of : list Z) (adj : list (list (Z * Z))) (loops : list (Z * Z))
         (p' : list byte),
    decode_indices version p = Ok (orig_of, adj, loops, p')
    /\ Forall (Forall (fun e => (Z.to_nat e.1 < length orig_of)%nat)) adj
    /\ Forall (fun e => (Z.to_nat e.1 < length orig_of)%nat) loops.
Proof.
  intros Hcounts H. unfold Deserializer.read_body in H.
  apply bind_Ok in H as ([orig_of p1] & Hmap & H). cbv beta iota in H.
  apply bind_Ok in H as ([t2 p2] & Hadj & H). cbv beta iota in H.
  apply bind_Ok in H as ([L p3] & HL & H). cbv beta iota in H.
  apply bind_Ok in H as ([t4 p4] & Hloops & H). cbv beta iota in H.
  apply read_adjacency_indices in Hadj as (adj & Hadj & Hall).
  apply read_loops_indices in Hloops as (loops & Hloops & Hlall).
  exists orig_of, adj, loops, p4. split; [|split; assumption].
  unfold decode_indices. rewrite Hcounts. cbn [bind]. rewrite Hmap. cbn [bind].
  rewrite Hadj. cbn [bind]. rewrite HL. cbn [bind]. now rewrite Hloops.
Qed.

Lemma lookup_map_seq {A} (f : nat -> A) (n : nat) :
  forall (k i : nat) (x : A),
    map f (seq k n) !! i = Some x -> (i < n)%nat /\ x = f (k + i)%nat.
Proof.
  induction n as [|n IH]; intros k i x H; [discriminate|].
  cbn [seq map] in H. destruct i as [|i].
  - cbn in H. injection H as <-. rewrite Nat.add_0_r. split; [lia|reflexivity].
  - cbn [lookup list_lookup] in H. apply IH in H as [Hi ->].
    split; [lia|]. f_equal. lia.
Qed.



